(** * Transactional indexes and epoch-ordered reclamation (sto-layout)

  A shallow embedding of [TRcu.hh] (the RCU groups and sets) and of the
  TPC-C index header that follows it (the unordered hash index and the
  range scanner of the ordered index), with the properties of the
  specification stated over it. *)

From stdpp Require Import gmap list sorting.
From Stdlib Require Import ZArith Lia Strings.Byte.

Local Open Scope Z_scope.

(** ** Machine integers *)

(** [unsigned] is 32 bits wide, [uint64_t] 64 bits; additions wrap. *)
Definition unsigned_modulus : Z := 2 ^ 32.
Definition uint64_modulus : Z := 2 ^ 64.

Definition uadd (x y : Z) : Z := (x + y) mod unsigned_modulus.
Definition add64 (x y : Z) : Z := (x + y) mod uint64_modulus.

(** ** TRcuGroup *)

(** A call made through a function pointer: the pointer and its argument. *)
Definition call : Type := (Z * Z)%type.

Module TRcuGroup.

(** [function] is a function pointer, [0] standing for [nullptr]; [u] is
    the union of [argument] and [epoch], one 64-bit word. *)
Record TRcuElement : Type := mkElement { function : Z; u : Z }.

(** The group without its [next_] link: a [TRcuSet] keeps its groups as a
    list, in the order the links give. *)
Record t : Type := mkGroup {
  head_ : Z;
  tail_ : Z;
  capacity_ : Z;
  epoch_ : Z;
  e_ : list TRcuElement
}.

Definition set_head (h : Z) (g : t) : t :=
  mkGroup h (tail_ g) (capacity_ g) (epoch_ g) (e_ g).
Definition set_tail (tl : Z) (g : t) : t :=
  mkGroup (head_ g) tl (capacity_ g) (epoch_ g) (e_ g).
Definition set_epoch (ep : Z) (g : t) : t :=
  mkGroup (head_ g) (tail_ g) (capacity_ g) ep (e_ g).

(** [e_[i] = el]; writing outside the storage is undefined. *)
Definition store (i : Z) (el : TRcuElement) (g : t) : option t :=
  if (0 <=? i) && (i <? Z.of_nat (length (e_ g)))
  then Some (mkGroup (head_ g) (tail_ g) (capacity_ g) (epoch_ g)
                     (<[Z.to_nat i := el]> (e_ g)))
  else None.

Definition load (i : Z) (g : t) : option TRcuElement :=
  if 0 <=? i then e_ g !! Z.to_nat i else None.

(** The constructor sets [head_], [tail_] and [capacity_] only: [epoch_]
    and the elements keep whatever the fresh storage holds. *)
Definition make (capacity : Z) (raw_epoch : Z) (raw : list TRcuElement) : t :=
  mkGroup 0 0 capacity raw_epoch raw.

(** [add]: [None] is the failed assertion (or a write past the storage). *)
Definition add (epoch fn argument : Z) (g : t) : option t :=
  if negb (uadd (tail_ g) 2 <=? capacity_ g) then None
  else
    g1 ← (if (head_ g =? tail_ g) || negb (epoch_ g =? epoch)
          then g' ← store (tail_ g) (mkElement 0 epoch) g;
               Some (set_tail (uadd (tail_ g') 1) (set_epoch epoch g'))
          else Some g);
    g2 ← store (tail_ g1) (mkElement fn argument) g1;
    Some (set_tail (uadd (tail_ g2) 1) g2).

(** The destructor's loop.  The test [head_ != tail_] is the code's; the
    fuel bounds the number of iterations. *)
Fixpoint destroy_loop (fuel : nat) (g : t) (calls : list call)
  : option (t * list call) :=
  if head_ g =? tail_ g then Some (g, calls)
  else match fuel with
       | O => None
       | S fuel' =>
           el ← load (head_ g) g;
           destroy_loop fuel' (set_head (uadd (head_ g) 1) g)
             (if function el =? 0 then calls
              else calls ++ [(function el, u el)])
       end.

(** Consecutive deferrals with one epoch, each a function and its
    argument. *)
Fixpoint add_all (epoch : Z) (acts : list call) (g : t) : option t :=
  match acts with
  | [] => Some g
  | (fn, argument) :: rest => g' ← add epoch fn argument g; add_all epoch rest g'
  end.

(** Deferrals in a row, each with its epoch, its function and its
    argument. *)
Fixpoint add_seq (adds : list (Z * Z * Z)) (g : t) : option t :=
  match adds with
  | [] => Some g
  | (epoch, fn, argument) :: rest =>
      g' ← add epoch fn argument g; add_seq rest g'
  end.

Definition action (a : call) : TRcuElement := mkElement a.1 a.2.
Definition marker (epoch : Z) : TRcuElement := mkElement 0 epoch.

(** The call an action entry stands for. *)
Definition called (el : TRcuElement) : call := (function el, u el).

(** The class invariant: the entries lie between [head_] and [tail_], inside
    the storage the group was made with. *)
Definition wf (g : t) : Prop :=
  0 <= head_ g <= tail_ g /\ tail_ g <= capacity_ g
  /\ capacity_ g <= Z.of_nat (length (e_ g)) /\ capacity_ g < unsigned_modulus.

(** [~TRcuGroup]: [head_] reaches [tail_] after [(tail_ - head_) mod 2^32]
    increments, which is the fuel given to the loop. *)
Definition destroy (g : t) (calls : list call) : option (t * list call) :=
  destroy_loop (Z.to_nat ((tail_ g - head_ g) mod unsigned_modulus)) g calls.

(** The epoch the next action would inherit, if the group holds any
    entry. *)
Definition recent_epoch (g : t) : option Z :=
  if head_ g =? tail_ g then None else Some (epoch_ g).

(** Entries [e_[from .. to)]. *)
Definition entries (from to : Z) (g : t) : list TRcuElement :=
  take (Z.to_nat (to - from)) (drop (Z.to_nat from) (e_ g)).

(** The calls the queue stands for: those of its action entries, in
    order. *)
Definition live_calls (g : t) : list call :=
  called <$> filter (fun el => function el <> 0) (entries (head_ g) (tail_ g) g).

(** Modelled from the spec: [TRcuGroup::clean_until] is declared in
    [TRcu.hh] and defined elsewhere.  "At each epoch marker <= max_epoch,
    execute the following action entries until the next epoch marker.
    Stop at the first marker exceeding max_epoch."  The result tells
    whether the group was exhausted. *)
Fixpoint run_actions (fuel : nat) (g : t) (calls : list call)
  : t * list call :=
  match fuel with
  | O => (g, calls)
  | S fuel' =>
      if head_ g =? tail_ g then (g, calls)
      else match load (head_ g) g with
           | Some el =>
               if function el =? 0 then (g, calls)
               else run_actions fuel' (set_head (uadd (head_ g) 1) g)
                      (calls ++ [(function el, u el)])
           | None => (g, calls)
           end
  end.

Fixpoint clean_until (fuel : nat) (max_epoch : Z) (g : t)
  (calls : list call) : bool * t * list call :=
  match fuel with
  | O => (false, g, calls)
  | S fuel' =>
      if head_ g =? tail_ g then (true, g, calls)
      else match load (head_ g) g with
           | Some el =>
               if u el <=? max_epoch
               then let '(g', calls') :=
                      run_actions fuel' (set_head (uadd (head_ g) 1) g) calls
                    in clean_until fuel' max_epoch g' calls'
               else (false, g, calls)
           | None => (false, g, calls)
           end
  end.

End TRcuGroup.

(** ** TRcuSet *)

Module TRcuSet.

(** [groups] lists the chain from [first_] to [current_] (its last
    element). *)
Record t : Type := mkSet {
  groups : list TRcuGroup.t;
  clean_epoch_ : Z
}.

(** Modelled from the spec: [TRcuSet::hard_clean_until] is declared in
    [TRcu.hh] and defined elsewhere.  "Drain: walk groups from head; ...
    free exhausted groups."  The group [current_] stays. *)
Fixpoint hard_clean_groups (max_epoch : Z) (gs : list TRcuGroup.t)
  (calls : list call) : list TRcuGroup.t * list call :=
  match gs with
  | [] => ([], calls)
  | g :: rest =>
      let '(done, g', calls') :=
        TRcuGroup.clean_until (S (length (TRcuGroup.e_ g))) max_epoch g calls in
      match rest with
      | [] => ([g'], calls')
      | _ :: _ =>
          if done then hard_clean_groups max_epoch rest calls'
          else (g' :: rest, calls')
      end
  end.

Definition hard_clean_until (max_epoch : Z) (s : t) (calls : list call)
  : t * list call :=
  let '(gs, calls') := hard_clean_groups max_epoch (groups s) calls in
  (mkSet gs (clean_epoch_ s), calls').

Definition clean_until (max_epoch : Z) (s : t) (calls : list call)
  : t * list call :=
  let '(s1, calls1) :=
    if negb (clean_epoch_ s =? max_epoch)
    then hard_clean_until max_epoch s calls
    else (s, calls) in
  (mkSet (groups s1) max_epoch, calls1).

Definition clean_epoch (s : t) : Z := clean_epoch_ s.

Section Add.
(** [grow] is declared in [TRcu.hh] and defined elsewhere: it is taken as
    it comes. *)
Variable grow : t -> t.

(** [TRcuSet::add]: [current_] is the last group of the chain.  [None] is
    the failed assertion of [TRcuGroup::add]. *)
Definition add (epoch fn argument : Z) (s : t) : option t :=
  current ← last (groups s);
  let s :=
    if TRcuGroup.capacity_ current <? uadd (TRcuGroup.tail_ current) 2
    then grow s else s in
  current ← last (groups s);
  current' ← TRcuGroup.add epoch fn argument current;
  Some (mkSet (<[pred (length (groups s)) := current']> (groups s))
              (clean_epoch_ s)).

End Add.

(** The queue is empty when no group holds an entry. *)
Definition queue_empty (s : t) : Prop :=
  Forall (fun g => TRcuGroup.head_ g = TRcuGroup.tail_ g) (groups s).

End TRcuSet.

(** ** Version words and transaction items *)

Definition nullptr : Z := 0.

Module TransactionTid.

(** Modelled from the spec: the header that declares the version word is
    not among the sources.  "A 64-bit atomic word with reserved low-order
    bits: LOCK, OPAQUE, NONOPAQUE, USER (one application-defined bit), and
    an ordered COUNTER."  The flags are single bits below the counter's
    unit; the properties below use nothing else about their positions. *)
Definition lock_bit : Z := 32.
Definition nonopaque_bit : Z := 64.
Definition user_bit : Z := 128.
Definition increment_value : Z := 1024.

Definition is_locked (v : Z) : bool := negb (Z.land v lock_bit =? 0).

(** "[unlocked()]": the word without its lock bit. *)
Definition unlocked (v : Z) : Z := Z.ldiff v lock_bit.

(** Taking the lock spins while the bit is set: with nobody to release it
    the call does not return, which is [None]. *)
Definition lock (v : Z) : option Z :=
  if is_locked v then None else Some (Z.lor v lock_bit).

Definition unlock (v : Z) : Z := Z.ldiff v lock_bit.

(** "[inc_nonopaque()] bumps the counter while the word is locked; used
    for structural bucket changes." *)
Definition inc_nonopaque_version (v : Z) : Z :=
  Z.lor (add64 v increment_value) nonopaque_bit.

Definition counter (v : Z) : Z := v / increment_value.

End TransactionTid.

Module TransItem.

(** Modelled from the spec: the transaction item is declared outside the
    sources.  "A tuple (owner, key, flags, observed_version?,
    pending_write?)"; "the lower bits of an item's key pointer distinguish
    record items from bucket-version items (unordered) and internode items
    (ordered)".  One container is modelled, so the owner is left out; the
    tag bit of the key ([bucket_bit], [internode_bit]) is the constructor,
    the bucket or the node being named by its index. *)
Inductive item_key : Type :=
| RecordKey (e : Z)
| TaggedKey (node : nat).

#[global] Instance item_key_eq_dec : EqDecision item_key.
Proof. solve_decision. Defined.

Record t : Type := mkItem {
  key : item_key;
  flags : Z;
  has_read : bool;
  rdata : Z;
  has_write : bool;
  wdata : Z
}.

Definition user0_bit : Z := 2 ^ 48.

Definition fresh (k : item_key) : t := mkItem k 0 false 0 false 0.

Definition add_flags (f : Z) (it : t) : t :=
  mkItem (key it) (Z.lor (flags it) f) (has_read it) (rdata it)
         (has_write it) (wdata it).
Definition clear_flags (f : Z) (it : t) : t :=
  mkItem (key it) (Z.ldiff (flags it) f) (has_read it) (rdata it)
         (has_write it) (wdata it).

(** [add_write(p)] stages the payload [p]; [add_write()] only marks the
    item as written. *)
Definition add_write (p : Z) (it : t) : t :=
  mkItem (key it) (flags it) (has_read it) (rdata it) true p.
Definition add_write_void (it : t) : t :=
  mkItem (key it) (flags it) (has_read it) (rdata it) true (wdata it).
Definition clear_write (it : t) : t :=
  mkItem (key it) (flags it) (has_read it) (rdata it) false (wdata it).
Definition remove_write (it : t) : t := clear_write it.
Definition remove_read (it : t) : t :=
  mkItem (key it) (flags it) false (rdata it) (has_write it) (wdata it).

(** [observe(version)]: "opaque versions forbid observing a locked word;
    non-opaque permit locked-by-other with a later revalidation".  The
    first observation of an item is the one it keeps.  [None] is the
    failed observation. *)
Definition observe (opaque : bool) (v : Z) (it : t) : option t :=
  if opaque && TransactionTid.is_locked v then None
  else Some (if has_read it then it
             else mkItem (key it) (flags it) true v (has_write it) (wdata it)).

(** [update_read(old, new)] replaces the observation [old] by [new]; the
    caller passes the value it expects to find, as
    [update_internode_version] of the ordered index does before its own
    call. *)
Definition update_read (old new : Z) (it : t) : t :=
  if has_read it && (rdata it =? old)
  then mkItem (key it) (flags it) true new (has_write it) (wdata it)
  else it.

(** The item an observation of [v], with or without the write mark of
    [select_for_update], leaves. *)
Definition observed (for_update : bool) (v : Z) (item : t) : t :=
  mkItem (key item) (flags item) true
    (if has_read item then rdata item else v)
    (for_update || has_write item) (wdata item).

(** The transaction's item set, in the order the items were created.
    [Sto::item(owner, key)] finds the item of [key] or appends a fresh
    one. *)
Fixpoint lookup (k : item_key) (its : list t) : option t :=
  match its with
  | [] => None
  | it :: rest => if decide (key it = k) then Some it else lookup k rest
  end.

Definition item (k : item_key) (its : list t) : list t :=
  match lookup k its with
  | Some _ => its
  | None => its ++ [fresh k]
  end.

Definition get (k : item_key) (its : list t) : t :=
  default (fresh k) (lookup k its).

(** Writing through the proxy changes the item found under the key. *)
Fixpoint put (it : t) (its : list t) : list t :=
  match its with
  | [] => []
  | it' :: rest =>
      if decide (key it' = key it) then it :: rest else it' :: put it rest
  end.

End TransItem.

(** ** The unordered index *)

Module internal_elem.

(** A node of a bucket's list.  Its [next] link is kept by its bucket, whose
    chain lists the nodes in link order. *)
Record t (K V : Type) : Type := mk {
  key : K;
  version : Z;
  value : V;
  deleted : bool
}.
Arguments mk {K V}.
Arguments key {K V}.
Arguments version {K V}.
Arguments value {K V}.
Arguments deleted {K V}.

End internal_elem.

Module bucket_entry.

(** [chain] is the list [head, head->next, ...] of node addresses. *)
Record t : Type := mk {
  chain : list Z;
  version : Z
}.

End bucket_entry.

Module unordered_index.

(** The template arguments of the index and what its environment fixes:
    the key type with its [std::equal_to], the hash, the value type with its
    default value, the offset of the member [value] inside a node, the
    version [Sto::initialized_tid()] (declared outside the sources), and
    the flags [Opacity] and [ReadMyWrite] ([Adaptive] is false
    throughout). *)
Class params : Type := mkParams {
  K : Type;
  K_eq :: EqDecision K;
  V : Type;
  hasher_ : K -> Z;
  value_default : V;
  value_offset : Z;
  initialized_tid : Z;
  Opacity : bool;
  ReadMyWrite : bool
}.

Section Index.
Context {P : params}.

Definition invalid_bit : Z := TransactionTid.user_bit.
Definition insert_bit : Z := TransItem.user0_bit.
Definition delete_bit : Z := Z.shiftl TransItem.user0_bit 1.

(** The table, the nodes it points to, the values the caller's pointers
    refer to, the items of the running transaction, and the nodes handed to
    [Transaction::rcu_delete]. *)
Record state : Type := mkState {
  map_ : list bucket_entry.t;
  elems : gmap Z (internal_elem.t K V);
  values : gmap Z V;
  items : list TransItem.t;
  rcu : list Z
}.

Definition set_map (m : list bucket_entry.t) (st : state) : state :=
  mkState m (elems st) (values st) (items st) (rcu st).
Definition set_elems (h : gmap Z (internal_elem.t K V)) (st : state) : state :=
  mkState (map_ st) h (values st) (items st) (rcu st).
Definition set_items (its : list TransItem.t) (st : state) : state :=
  mkState (map_ st) (elems st) (values st) its (rcu st).
Definition set_rcu (r : list Z) (st : state) : state :=
  mkState (map_ st) (elems st) (values st) (items st) r.

Definition set_bucket (idx : nat) (b : bucket_entry.t) (st : state) : state :=
  set_map (<[idx := b]> (map_ st)) st.

Definition sel_return_type : Type := (bool * bool * Z * Z)%type.
Definition ins_return_type : Type := (bool * bool)%type.
Definition del_return_type : Type := (bool * bool)%type.

Definition valid (el : internal_elem.t K V) : bool :=
  Z.land (internal_elem.version el) invalid_bit =? 0.

Definition has_delete (item : TransItem.t) : bool :=
  negb (Z.land (TransItem.flags item) delete_bit =? 0).
Definition has_insert (item : TransItem.t) : bool :=
  negb (Z.land (TransItem.flags item) insert_bit =? 0).
Definition is_phantom (el : internal_elem.t K V) (item : TransItem.t) : bool :=
  negb (valid el) && negb (has_insert item).

Definition make_bucket_key (idx : nat) : TransItem.item_key :=
  TransItem.TaggedKey idx.
Definition is_bucket (item : TransItem.t) : bool :=
  match TransItem.key item with
  | TransItem.TaggedKey _ => true
  | TransItem.RecordKey _ => false
  end.

(** [hash(k) % nbuckets()]; a table without buckets has no such index. *)
Definition find_bucket_idx (k : K) (st : state) : option nat :=
  let n := Z.of_nat (length (map_ st)) in
  if n =? 0 then None else Some (Z.to_nat (hasher_ k mod n)).

(** The walk of [find_in_bucket]; a link to a node that is not there cannot
    be followed. *)
Fixpoint find_in_chain (h : gmap Z (internal_elem.t K V)) (c : list Z) (k : K)
  : option Z :=
  match c with
  | [] => Some nullptr
  | curr :: rest =>
      el ← h !! curr;
      if bool_decide (internal_elem.key el = k) then Some curr
      else find_in_chain h rest k
  end.

Definition find_in_bucket (st : state) (buck : bucket_entry.t) (k : K)
  : option Z :=
  find_in_chain (elems st) (bucket_entry.chain buck) k.

(** [&e->value], and what a [value_type*] reads: a value of the caller or
    the member [value] of a node. *)
Definition value_ptr (e : Z) : Z := e + value_offset.

Definition read_value (st : state) (p : Z) : option V :=
  match values st !! p with
  | Some v => Some v
  | None => internal_elem.value <$> elems st !! (p - value_offset)
  end.

(** [v ? *v : value_type()] *)
Definition deref_or_default (st : state) (vptr : Z) : option V :=
  if vptr =? nullptr then Some value_default else values st !! vptr.

(** [copy_row]: [table_row->value = *value] unless [value] is null. *)
Definition copy_row (e : Z) (vptr : Z) (st : state) : option state :=
  if vptr =? nullptr then Some st
  else
    v ← values st !! vptr;
    el ← elems st !! e;
    Some (set_elems (<[e := internal_elem.mk (internal_elem.key el)
                              (internal_elem.version el) v
                              (internal_elem.deleted el)]> (elems st)) st).

(** [lock(buck.version)] and [unlock(buck.version)], on the bucket at
    [idx]. *)
Definition lock (idx : nat) (st : state) : option state :=
  buck ← map_ st !! idx;
  v ← TransactionTid.lock (bucket_entry.version buck);
  Some (set_bucket idx (bucket_entry.mk (bucket_entry.chain buck) v) st).

Definition unlock (idx : nat) (st : state) : option state :=
  buck ← map_ st !! idx;
  Some (set_bucket idx
          (bucket_entry.mk (bucket_entry.chain buck)
             (TransactionTid.unlock (bucket_entry.version buck))) st).

(** [insert_in_bucket]: [new_elem] is the address [new] returns, one that no
    node occupies. *)
Definition insert_in_bucket (idx : nat) (k : K) (vptr : Z) (mark_valid : bool)
  (new_elem : Z) (st : state) : option state :=
  buck ← map_ st !! idx;
  if negb (TransactionTid.is_locked (bucket_entry.version buck)) then None
  else if (new_elem =? nullptr) || bool_decide (is_Some (elems st !! new_elem))
  then None
  else
    v ← deref_or_default st vptr;
    let new_head :=
      internal_elem.mk k
        (Z.lor initialized_tid (if mark_valid then 0 else invalid_bit))
        v false in
    Some (set_bucket idx
            (bucket_entry.mk (new_elem :: bucket_entry.chain buck)
               (TransactionTid.inc_nonopaque_version (bucket_entry.version buck)))
            (set_elems (<[new_elem := new_head]> (elems st)) st)).

(** Unlinking [el] from a chain; the assertion [assert(curr)] fails when
    the walk ends without meeting it. *)
Fixpoint unlink (el : Z) (c : list Z) : option (list Z) :=
  match c with
  | [] => None
  | curr :: rest =>
      if curr =? el then Some rest
      else rest' ← unlink el rest; Some (curr :: rest')
  end.

(** [_remove]: the node leaves its chain under the bucket lock and goes to
    [Transaction::rcu_delete]. *)
Definition _remove (e : Z) (st : state) : option state :=
  el ← elems st !! e;
  idx ← find_bucket_idx (internal_elem.key el) st;
  st1 ← lock idx st;
  buck ← map_ st1 !! idx;
  c ← unlink e (bucket_entry.chain buck);
  st2 ← unlock idx
         (set_bucket idx (bucket_entry.mk c (bucket_entry.version buck)) st1);
  Some (set_rcu (rcu st2 ++ [e]) st2).

(** The overloads for [TVersion] and [TNonopaqueVersion]. *)
Definition select_for_update (item : TransItem.t) (vers : Z)
  : option TransItem.t :=
  TransItem.add_write_void <$> TransItem.observe Opacity vers item.

Definition select_for_overwrite (item : TransItem.t) (vers : Z) (vptr : Z)
  : option TransItem.t :=
  Some (TransItem.add_write vptr item).

Definition sto_item (k : TransItem.item_key) (st : state) : state :=
  set_items (TransItem.item k (items st)) st.
Definition get_item (k : TransItem.item_key) (st : state) : TransItem.t :=
  TransItem.get k (items st).
Definition put_item (item : TransItem.t) (st : state) : state :=
  set_items (TransItem.put item (items st)) st.

Definition sel_abort : sel_return_type := (false, false, 0, nullptr).

(** The three operations return their tuple and the state they leave.
    [None] stands for a call that yields no result: a lock that is never
    released, a link to a node that is not there, a failed assertion.

    [select_row]: in read-my-writes mode a written item answers with
    [&((item.write_value<internal_elem*>())->value)], the address of the
    member [value] of the staged pointer read as a node. *)
Definition select_row (k : K) (for_update : bool) (st : state)
  : option (sel_return_type * state) :=
  idx ← find_bucket_idx k st;
  buck ← map_ st !! idx;
  let buck_vers := bucket_entry.version buck in
  e ← find_in_bucket st buck k;
  if negb (e =? nullptr) then
    el ← elems st !! e;
    let st := sto_item (TransItem.RecordKey e) st in
    let item := get_item (TransItem.RecordKey e) st in
    if is_phantom el item then Some (sel_abort, st)
    else if ReadMyWrite && has_delete item
    then Some ((true, false, 0, nullptr), st)
    else if ReadMyWrite && TransItem.has_write item
    then Some ((true, true, e, value_ptr (TransItem.wdata item)), st)
    else
      match (if for_update
             then select_for_update item (internal_elem.version el)
             else TransItem.observe Opacity (internal_elem.version el) item) with
      | None => Some (sel_abort, st)
      | Some item' => Some ((true, true, e, value_ptr e), put_item item' st)
      end
  else
    let st := sto_item (make_bucket_key idx) st in
    match TransItem.observe Opacity buck_vers
            (get_item (make_bucket_key idx) st) with
    | None => Some (sel_abort, st)
    | Some item' => Some ((true, false, 0, nullptr), put_item item' st)
    end.

(** [update_row]; its assertion asks for a written item without the insert
    flag. *)
Definition update_row (rid : Z) (new_row : Z) (st : state) : option state :=
  let st := sto_item (TransItem.RecordKey rid) st in
  let item := get_item (TransItem.RecordKey rid) st in
  if TransItem.has_write item && negb (has_insert item)
  then Some (put_item (TransItem.add_write new_row item) st)
  else None.

Definition ins_abort : ins_return_type := (false, false).

(** [insert_row]; [new_elem] is the address [new] returns if the row is
    allocated. *)
Definition insert_row (k : K) (vptr : Z) (overwrite : bool) (new_elem : Z)
  (st : state) : option (ins_return_type * state) :=
  idx ← find_bucket_idx k st;
  st ← lock idx st;
  buck ← map_ st !! idx;
  e ← find_in_bucket st buck k;
  if negb (e =? nullptr) then
    st ← unlock idx st;
    el ← elems st !! e;
    let st := sto_item (TransItem.RecordKey e) st in
    let item := get_item (TransItem.RecordKey e) st in
    if is_phantom el item then Some (ins_abort, st)
    else if ReadMyWrite && has_delete item
    then Some ((true, false),
               put_item (TransItem.add_write vptr
                           (TransItem.clear_write
                              (TransItem.clear_flags delete_bit item))) st)
    else if overwrite then
      match select_for_overwrite item (internal_elem.version el) vptr with
      | None => Some (ins_abort, st)
      | Some item' =>
          let st := put_item item' st in
          if ReadMyWrite && has_insert item'
          then st' ← copy_row e vptr st; Some ((true, true), st')
          else Some ((true, true), st)
      end
    else
      match TransItem.observe Opacity (internal_elem.version el) item with
      | None => Some (ins_abort, st)
      | Some item' => Some ((true, true), put_item item' st)
      end
  else
    let buck_vers_0 := TransactionTid.unlocked (bucket_entry.version buck) in
    st ← insert_in_bucket idx k vptr false new_elem st;
    buck ← map_ st !! idx;
    new_head ← head (bucket_entry.chain buck);
    let buck_vers_1 := TransactionTid.unlocked (bucket_entry.version buck) in
    st ← unlock idx st;
    let st := sto_item (make_bucket_key idx) st in
    let bucket_item := get_item (make_bucket_key idx) st in
    let st :=
      if TransItem.has_read bucket_item
      then put_item (TransItem.update_read buck_vers_0 buck_vers_1 bucket_item) st
      else st in
    let st := sto_item (TransItem.RecordKey new_head) st in
    let item := get_item (TransItem.RecordKey new_head) st in
    Some ((true, false),
          put_item (TransItem.add_flags insert_bit
                      (TransItem.add_write vptr item)) st).

Definition del_abort : del_return_type := (false, false).

(** [delete_row]; the fourth branch is [assert(valid)]. *)
Definition delete_row (k : K) (st : state) : option (del_return_type * state) :=
  idx ← find_bucket_idx k st;
  buck ← map_ st !! idx;
  let buck_vers := bucket_entry.version buck in
  e ← find_in_bucket st buck k;
  if negb (e =? nullptr) then
    el ← elems st !! e;
    let st := sto_item (TransItem.RecordKey e) st in
    let item := get_item (TransItem.RecordKey e) st in
    let valid := valid el in
    if is_phantom el item then Some (del_abort, st)
    else if ReadMyWrite && (negb valid && has_insert item) then
      st ← _remove e st;
      let st :=
        put_item (TransItem.clear_flags (Z.lor insert_bit delete_bit)
                    (TransItem.remove_write (TransItem.remove_read item))) st in
      let st := sto_item (make_bucket_key idx) st in
      let st :=
        match TransItem.observe Opacity buck_vers
                (get_item (make_bucket_key idx) st) with
        | Some item' => put_item item' st
        | None => st
        end in
      Some ((true, true), st)
    else if ReadMyWrite && negb valid then None
    else if ReadMyWrite && has_delete item then Some ((true, false), st)
    else
      match select_for_update item (internal_elem.version el) with
      | None => Some (del_abort, st)
      | Some item' =>
          let st := put_item item' st in
          el ← elems st !! e;
          if internal_elem.deleted el then Some (del_abort, st)
          else Some ((true, true),
                     put_item (TransItem.add_flags delete_bit item') st)
      end
  else
    let st := sto_item (make_bucket_key idx) st in
    match TransItem.observe Opacity buck_vers
            (get_item (make_bucket_key idx) st) with
    | None => Some (del_abort, st)
    | Some item' => Some ((true, false), put_item item' st)
    end.

(** The [TObject] callbacks.  [cleanup] unlinks the node of a committed
    delete or of an aborted insert. *)
Definition cleanup (item : TransItem.t) (committed : bool) (st : state)
  : option state :=
  if (if committed then has_delete item else has_insert item) then
    match TransItem.key item with
    | TransItem.TaggedKey _ => None
    | TransItem.RecordKey e =>
        el ← elems st !! e;
        if negb (valid el) || internal_elem.deleted el
        then _remove e st
        else None
    end
  else Some st.

(** [table_row->value = v], for a row that is there. *)
Definition store_value (e : Z) (v : V) (st : state) : option state :=
  el ← elems st !! e;
  Some (set_elems (<[e := internal_elem.mk (internal_elem.key el)
                            (internal_elem.version el) v
                            (internal_elem.deleted el)]> (elems st)) st).

(** [nontrans_put]: the value comes by reference, so [copy_row(el, &v)]
    copies it; [new_elem] is the address [new] returns if a node is
    allocated, which is marked valid and put at the head of the chain
    without a change of the bucket's version. *)
Definition nontrans_put (k : K) (v : V) (new_elem : Z) (st : state)
  : option state :=
  idx ← find_bucket_idx k st;
  st ← lock idx st;
  buck ← map_ st !! idx;
  el ← find_in_bucket st buck k;
  st ← (if el =? nullptr then
          if (new_elem =? nullptr)
             || bool_decide (is_Some (elems st !! new_elem))
          then None
          else
            Some (set_bucket idx
                    (bucket_entry.mk (new_elem :: bucket_entry.chain buck)
                       (bucket_entry.version buck))
                    (set_elems
                       (<[new_elem := internal_elem.mk k
                                        (Z.lor initialized_tid 0) v false]>
                          (elems st)) st))
        else store_value el v st);
  unlock idx st.

Section Install.
(** [set_version] and [set_version_locked] belong to the version word,
    declared outside the sources: each is taken as the function from the
    word it finds and the word it is given to the word it leaves. *)
Variable set_version : Z -> Z -> Z.
Variable set_version_locked : Z -> Z -> Z.

Definition set_elem_version (e : Z) (v : Z) (st : state) : option state :=
  el ← elems st !! e;
  Some (set_elems (<[e := internal_elem.mk (internal_elem.key el) v
                            (internal_elem.value el)
                            (internal_elem.deleted el)]> (elems st)) st).

(** [install]; [commit_tid] is [txn.commit_tid()].  The first assertion
    refuses a bucket item. *)
Definition install (item : TransItem.t) (commit_tid : Z) (st : state)
  : option state :=
  match TransItem.key item with
  | TransItem.TaggedKey _ => None
  | TransItem.RecordKey e =>
      el ← elems st !! e;
      if has_delete item then
        Some (set_elems
                (<[e := internal_elem.mk (internal_elem.key el)
                          (set_version_locked (internal_elem.version el)
                             (add64 (internal_elem.version el)
                                TransactionTid.increment_value))
                          (internal_elem.value el) true]> (elems st)) st)
      else
        st ← (if negb (has_insert item)
              then copy_row e (TransItem.wdata item) st
              else Some st);
        el ← elems st !! e;
        st ← set_elem_version e
               (set_version (internal_elem.version el) commit_tid) st;
        if Opacity && has_insert item then
          idx ← find_bucket_idx (internal_elem.key el) st;
          st ← lock idx st;
          buck ← map_ st !! idx;
          let st :=
            if negb (Z.land (bucket_entry.version buck)
                       TransactionTid.nonopaque_bit =? 0)
            then set_bucket idx
                   (bucket_entry.mk (bucket_entry.chain buck)
                      (set_version (bucket_entry.version buck) commit_tid)) st
            else st in
          unlock idx st
        else Some st
  end.

End Install.

End Index.

End unordered_index.

(** ** The ordered index: range scans *)

Module ordered_index.

(** Keys reach the tree as byte strings ([Str]). *)
Definition Str : Type := list byte.

Definition byte_val (b : byte) : Z := Z.of_N (Byte.to_N b).

(** [memcmp(a, b, n)]: the sign of the first difference among the first [n]
    bytes. *)
Fixpoint memcmp (a b : Str) (n : nat) {struct n} : Z :=
  match n, a, b with
  | S n', x :: a', y :: b' =>
      if byte_val x <? byte_val y then -1
      else if byte_val y <? byte_val x then 1
      else memcmp a' b' n'
  | _, _, _ => 0
  end.

(** Modelled from the spec: the string class and the key slices belong to
    the trie library, outside the sources.  Strings compare byte by byte,
    a proper prefix being smaller; "interior nodes route by 8-byte key
    slices", a slice read as a big-endian number, short slices padded with
    zero bytes. *)
Definition compare (a b : Str) : Z :=
  let c := memcmp a b (Nat.min (length a) (length b)) in
  if c =? 0 then Z.of_nat (length a) - Z.of_nat (length b) else c.

(** The same order by recursion on the two strings: -1, 0 or 1. *)
Fixpoint lex (a b : Str) : Z :=
  match a, b with
  | [], [] => 0
  | [], _ :: _ => -1
  | _ :: _, [] => 1
  | x :: a', y :: b' =>
      if byte_val x <? byte_val y then -1
      else if byte_val y <? byte_val x then 1
      else lex a' b'
  end.

Definition str_le (a b : Str) : bool := compare a b <=? 0.
Definition str_lt (a b : Str) : bool := compare a b <? 0.

Fixpoint be_value (n : nat) (s : Str) : Z :=
  match n with
  | O => 0
  | S n' =>
      match s with
      | [] => 0
      | x :: s' => byte_val x * 256 ^ Z.of_nat n' + be_value n' s'
      end
  end.

Definition make_comparable (data : Str) (len : nat) : Z :=
  be_value 8 (take len data).

(** The key a scan holds when it enters a leaf. *)
Record masstree_key : Type := mkKey {
  prefix_length : nat;
  full_string : Str
}.

(** A leaf as the scan meets it: its identity and version, the key of the
    scan on entry, and its entries in permutation order, each with its
    [ikey0_], its full key and its value pointer. *)
Record leaf : Type := mkLeaf {
  node : nat;
  full_version_value : Z;
  entry_key : masstree_key;
  entries : list (Z * Str * Z)
}.

(** [ikey0_[permutation()[permutation().size() - 1]]] *)
Definition last_ikey (l : leaf) : option Z :=
  (fun en => en.1.1) <$> last (entries l).

(** The bytes all keys of a leaf share: those before its layer's slice. *)
Definition leaf_prefix (l : leaf) : Str :=
  take (prefix_length (entry_key l)) (full_string (entry_key l)).

(** A leaf holds at least one entry, and every entry's key is the leaf's
    prefix followed by a rest whose first slice is the entry's [ikey0_]. *)
Definition leaf_wf (l : leaf) : Prop :=
  entries l <> []
  /\ (prefix_length (entry_key l) <= length (full_string (entry_key l)))%nat
  /\ Forall (fun en : Z * Str * Z =>
               exists r, en.1.2 = leaf_prefix l ++ r
                         /\ en.1.1 = make_comparable r (Nat.min (length r) 8))
       (entries l).

Definition all_entries (ls : list leaf) : list (Z * Str * Z) :=
  concat (entries <$> ls).

Definition key_lt (a b : Z * Str * Z) : Prop := lex a.1.2 b.1.2 < 0.

(** The leaves of a trie in scan order: well-formed, their keys strictly
    ascending from one entry to the next and from one leaf to the next. *)
Definition table_wf (ls : list leaf) : Prop :=
  Forall leaf_wf ls /\ StronglySorted key_lt (all_entries ls).

(** [begin <= k < end_] *)
Definition in_range (begin end_ : Str) (en : Z * Str * Z) : bool :=
  str_le begin en.1.2 && str_lt en.1.2 end_.

(** A pass over entries in order, the reference a scan is compared with:
    an entry may be passed by ([skip]), end the pass before it is looked at
    ([stop]), or be looked at, which adds [d] to the log and ends the pass
    unless [go] holds.  [pass_log] is the log, [pass_on] tells whether the
    pass reaches the end of the list, [pass_ok] whether no entry that was
    looked at ended it. *)
Section Pass.
Context {X : Type}.
Variables skip stop go : Z * Str * Z -> bool.
Variable d : Z * Str * Z -> list X.

Fixpoint pass_log (ens : list (Z * Str * Z)) : list X :=
  match ens with
  | [] => []
  | en :: rest =>
      if skip en then pass_log rest
      else if stop en then []
      else d en ++ (if go en then pass_log rest else [])
  end.

Fixpoint pass_on (ens : list (Z * Str * Z)) : bool :=
  match ens with
  | [] => true
  | en :: rest =>
      if skip en then pass_on rest
      else if stop en then false
      else if go en then pass_on rest else false
  end.

Fixpoint pass_ok (ens : list (Z * Str * Z)) : bool :=
  match ens with
  | [] => true
  | en :: rest =>
      if skip en then pass_ok rest
      else if stop en then true
      else if go en then pass_ok rest else false
  end.

End Pass.

(** The elements of a list up to and including the first that satisfies
    [p]. *)
Fixpoint through_first {A : Type} (p : A -> bool) (l : list A) : list A :=
  match l with
  | [] => []
  | x :: rest => if p x then [x] else x :: through_first p rest
  end.

Module range_scanner.

Record t : Type := mk {
  boundary_ : Str;
  boundary_compar_ : bool;
  scan_succeeded_ : bool
}.

Definition set_compar (b : bool) (sc : t) : t :=
  mk (boundary_ sc) b (scan_succeeded_ sc).
Definition set_succeeded (b : bool) (sc : t) : t :=
  mk (boundary_ sc) (boundary_compar_ sc) b.

(** The constructor. *)
Definition make (upper : Str) : t := mk upper false true.

Section Scanner.
(** The template arguments: the two callbacks, over the state [S] they act
    on, and the direction. *)
Context {S : Type}.
Variable node_callback_ : nat -> Z -> S -> bool * S.
Variable value_callback_ : Str -> Z -> S -> option (bool * bool * S).
Variable Reverse : bool.

(** [check]: [iter] gives the leaf, [key] the key of the scan; the last
    [ikey0_] of a leaf without entries is not defined. *)
Definition check (l : leaf) (key : masstree_key) (sc : t) : option t :=
  let min := Nat.min (length (boundary_ sc)) (prefix_length key) in
  let cmp := memcmp (boundary_ sc) (full_string key) min in
  if negb Reverse then
    if (cmp <? 0)
       || ((cmp =? 0) && (length (boundary_ sc) <=? prefix_length key)%nat)
    then Some (set_compar true sc)
    else if cmp =? 0 then
      let slice :=
        make_comparable (drop (prefix_length key) (boundary_ sc))
          (Nat.min (length (boundary_ sc) - prefix_length key) 8) in
      (fun last => set_compar (slice <=? last) sc) <$> last_ikey l
    else Some sc
  else if 0 <=? cmp then Some (set_compar true sc)
  else Some sc.

(** [visit_leaf]: the node callback, then [check] if there is a
    boundary. *)
Definition visit_leaf (l : leaf) (key : masstree_key) (sc : t) (s : S)
  : option (t * S) :=
  let '(ok, s) := node_callback_ (node l) (full_version_value l) s in
  let sc := if ok then sc else set_succeeded false sc in
  if negb (bool_decide (boundary_ sc = []))
  then (fun sc' => (sc', s)) <$> check l key sc
  else Some (sc, s).

(** The result is what [visit_value] returns: whether the scan goes on. *)
Definition visit_value (key : Str) (e : Z) (sc : t) (s : S)
  : option (bool * t * S) :=
  if boundary_compar_ sc
     && ((Reverse && str_le key (boundary_ sc))
         || (negb Reverse && str_le (boundary_ sc) key))
  then Some (false, sc, s)
  else
    match value_callback_ key e s with
    | None => None
    | Some (ok, visited, s) =>
        if negb ok then Some (false, set_succeeded false sc, s)
        else if negb visited then Some (false, set_succeeded false sc, s)
        else Some (true, sc, s)
    end.

(** Modelled from the spec: the scan of the trie is run by the trie
    library.  "Descend from [begin], visit leaves in order", handing the
    scanner each leaf on entry and then each of its records from [begin]
    on, until the scanner stops it. *)
Fixpoint scan_values (begin : Str) (ens : list (Z * Str * Z)) (sc : t) (s : S)
  : option (bool * t * S) :=
  match ens with
  | [] => Some (true, sc, s)
  | (_, k, e) :: rest =>
      if str_le begin k then
        match visit_value k e sc s with
        | Some (true, sc, s) => scan_values begin rest sc s
        | other => other
        end
      else scan_values begin rest sc s
  end.

Fixpoint scan_leaves (begin : Str) (ls : list leaf) (sc : t) (s : S)
  : option (t * S) :=
  match ls with
  | [] => Some (sc, s)
  | l :: rest =>
      match visit_leaf l (entry_key l) sc s with
      | Some (sc, s) =>
          match scan_values begin (entries l) sc s with
          | Some (true, sc, s) => scan_leaves begin rest sc s
          | Some (false, sc, s) => Some (sc, s)
          | None => None
          end
      | None => None
      end
  end.

(** The descent: the leaves whose records all precede [begin] are passed
    by, up to the one before the first leaf that reaches [begin]. *)
Fixpoint descend (begin : Str) (ls : list leaf) : list leaf :=
  match ls with
  | l :: (l' :: _) as rest =>
      match head (entries l') with
      | Some (_, k, _) => if str_le k begin then descend begin rest else ls
      | None => ls
      end
  | _ => ls
  end.

Definition scan (begin : Str) (ls : list leaf) (sc : t) (s : S)
  : option (t * S) :=
  scan_leaves begin (descend begin ls) sc s.

End Scanner.

End range_scanner.

(** The template arguments of the ordered index ([Adaptive] is false
    throughout), and the opacity check of the runtime, which is decided
    outside the sources. *)
Class params : Type := mkParams {
  V : Type;
  Opacity : bool;
  ReadMyWrite : bool;
  check_opacity : list TransItem.t -> bool
}.

Section Index.
Context {P : params}.

Definition invalid_bit : Z := TransactionTid.user_bit.
Definition insert_bit : Z := TransItem.user0_bit.
Definition delete_bit : Z := Z.shiftl TransItem.user0_bit 1.

(** The leaves of [table_] in key order, the records they point to, the
    values the staged writes point to, the items of the running
    transaction, and the calls the user's callback has received. *)
Record state : Type := mkState {
  table_ : list leaf;
  elems : gmap Z (internal_elem.t Str V);
  values : gmap Z V;
  items : list TransItem.t;
  delivered : list (Str * V)
}.

Definition set_items (its : list TransItem.t) (st : state) : state :=
  mkState (table_ st) (elems st) (values st) its (delivered st).
Definition deliver (k : Str) (v : V) (st : state) : state :=
  mkState (table_ st) (elems st) (values st) (items st) (delivered st ++ [(k, v)]).

Definition valid (el : internal_elem.t Str V) : bool :=
  Z.land (internal_elem.version el) invalid_bit =? 0.
Definition has_insert (item : TransItem.t) : bool :=
  negb (Z.land (TransItem.flags item) insert_bit =? 0).
Definition has_delete (item : TransItem.t) : bool :=
  negb (Z.land (TransItem.flags item) delete_bit =? 0).

Definition get_internode_key (n : nat) : TransItem.item_key :=
  TransItem.TaggedKey n.

(** Modelled from the spec: [add_read] and [add_read_opaque] belong to the
    transaction proxy.  "For each leaf, register an internode observation
    (its full version at visit time)"; the observation "cannot be
    established" when the opacity check of the runtime refuses it. *)
Definition add_read (v : Z) (it : TransItem.t) : TransItem.t :=
  if TransItem.has_read it then it
  else TransItem.mkItem (TransItem.key it) (TransItem.flags it) true v
         (TransItem.has_write it) (TransItem.wdata it).

Definition register_internode_version (n : nat) (nodeversion : Z) (st : state)
  : bool * state :=
  let its := TransItem.item (get_internode_key n) (items st) in
  let item := TransItem.get (get_internode_key n) its in
  if Opacity && negb (check_opacity its) then (false, set_items its st)
  else (true, set_items (TransItem.put (add_read nodeversion item) its) st).

(** The two lambdas of [range_scan]; [callback] is the user's, and every
    call it receives is recorded. *)
Definition node_callback (n : nat) (version : Z) (st : state) : bool * state :=
  register_internode_version n version st.

Definition value_callback (callback : Str -> V -> bool) (key : Str) (e : Z)
  (st : state) : option (bool * bool * state) :=
  el ← elems st !! e;
  let its := TransItem.item (TransItem.RecordKey e) (items st) in
  let item := TransItem.get (TransItem.RecordKey e) its in
  let st := set_items its st in
  if ReadMyWrite && has_delete item then Some (true, true, st)
  else if ReadMyWrite && TransItem.has_write item then
    if has_insert item
    then Some (true, callback key (internal_elem.value el),
               deliver key (internal_elem.value el) st)
    else
      (fun v => (true, callback key v, deliver key v st))
        <$> values st !! TransItem.wdata item
  else
    match TransItem.observe Opacity (internal_elem.version el) item with
    | None => Some (false, false, st)
    | Some item' =>
        let st := set_items (TransItem.put item' its) st in
        if negb (valid el) then Some (true, true, st)
        else Some (true, callback key (internal_elem.value el),
                   deliver key (internal_elem.value el) st)
    end.

Definition is_phantom (el : internal_elem.t Str V) (item : TransItem.t) : bool :=
  negb (valid el) && negb (has_insert item).

(** The overloads for [TVersion] and [TNonopaqueVersion]. *)
Definition select_for_update (item : TransItem.t) (vers : Z)
  : option TransItem.t :=
  TransItem.add_write_void <$> TransItem.observe Opacity vers item.

Definition sel_return_type : Type := (bool * bool * Z * Z)%type.
Definition sel_abort : sel_return_type := (false, false, 0, nullptr).

(** [select_row(rid, for_update)]: [rid] is the address of a record, whose
    member [value] lies [value_offset] bytes in; a [rid] that is no record
    cannot be read. *)
Definition select_row (value_offset : Z) (rid : Z) (for_update : bool)
  (st : state) : option (sel_return_type * state) :=
  el ← elems st !! rid;
  let its := TransItem.item (TransItem.RecordKey rid) (items st) in
  let item := TransItem.get (TransItem.RecordKey rid) its in
  let st := set_items its st in
  if is_phantom el item then Some (sel_abort, st)
  else if ReadMyWrite && has_delete item
  then Some ((true, false, 0, nullptr), st)
  else if ReadMyWrite && TransItem.has_write item
  then Some ((true, true, rid,
              if has_insert item then rid + value_offset
              else TransItem.wdata item), st)
  else
    match (if for_update
           then select_for_update item (internal_elem.version el)
           else TransItem.observe Opacity (internal_elem.version el) item) with
    | None => Some (sel_abort, st)
    | Some item' =>
        Some ((true, true, rid, rid + value_offset),
              set_items (TransItem.put item' its) st)
    end.

(** What a [value_type*] reads: a staged row, or the member [value] of a
    record. *)
Definition read_value (value_offset : Z) (st : state) (p : Z) : option V :=
  match values st !! p with
  | Some v => Some v
  | None => internal_elem.value <$> elems st !! (p - value_offset)
  end.

(** [update_row]; its assertion asks for a written item without the insert
    flag. *)
Definition update_row (rid : Z) (new_row : Z) (st : state) : option state :=
  let its := TransItem.item (TransItem.RecordKey rid) (items st) in
  let item := TransItem.get (TransItem.RecordKey rid) its in
  if TransItem.has_write item && negb (has_insert item)
  then Some (set_items (TransItem.put (TransItem.add_write new_row item) its) st)
  else None.

(** [update_internode_version] *)
Definition update_internode_version (n : nat) (prev_nv new_nv : Z) (st : state)
  : bool * state :=
  let its := TransItem.item (get_internode_key n) (items st) in
  let item := TransItem.get (get_internode_key n) its in
  if TransItem.has_read item && (prev_nv =? TransItem.rdata item)
  then (true,
        set_items (TransItem.put (TransItem.update_read prev_nv new_nv item) its) st)
  else (false, set_items its st).

(** What the callback receives for an entry: its key and the value of its
    record. *)
Definition delivery (st : state) (en : Z * Str * Z) : option (Str * V) :=
  (fun el => (en.1.2, internal_elem.value el)) <$> elems st !! en.2.

(** The record of an entry is committed and can be observed. *)
Definition observable (st : state) (en : Z * Str * Z) : Prop :=
  exists el, elems st !! en.2 = Some el /\ valid el = true
             /\ Opacity && TransactionTid.is_locked (internal_elem.version el)
                = false.

(** The record of an entry is there and can be observed, committed or
    not. *)
Definition readable (st : state) (en : Z * Str * Z) : Prop :=
  exists el, elems st !! en.2 = Some el
             /\ Opacity && TransactionTid.is_locked (internal_elem.version el)
                = false.

(** The row of an entry whose record is valid: its key and the record's
    value. *)
Definition committed_row (st : state) (en : Z * Str * Z) : option (Str * V) :=
  el ← elems st !! en.2;
  if valid el then Some (en.1.2, internal_elem.value el) else None.

(** The transaction has staged no write and no delete. *)
Definition no_writes (its : list TransItem.t) : Prop :=
  Forall (fun it => TransItem.has_write it = false /\ has_delete it = false) its.

(** What a scan keeps of the state [st0] it starts from: the table, the
    records, the staged values, and a transaction without writes. *)
Definition scan_inv (st0 st : state) : Prop :=
  table_ st = table_ st0 /\ elems st = elems st0 /\ values st = values st0
  /\ (ReadMyWrite = false \/ no_writes (items st)).

(** [range_scan<Callback, Reverse>]: the scan itself is the forward one in
    both directions. *)
Definition range_scan (Reverse : bool) (begin end_ : Str)
  (callback : Str -> V -> bool) (st : state) : option (bool * state) :=
  r ← range_scanner.scan node_callback (value_callback callback) Reverse
        begin (table_ st) (range_scanner.make end_) st;
  Some (range_scanner.scan_succeeded_ r.1, r.2).

End Index.

End ordered_index.

(** ** The TPC-C input generator *)

Module tpcc_input_generator.

(** [nurand(a, c, x, y)] on [uint64_t].  [r_a] and [r_xy] are what the two
    calls [random(0, a)] and [random(x, y)] return; in the source [+] binds
    tighter than [|]; the remainder by zero is undefined. *)
Definition nurand (a c x y : Z) (r_a r_xy : Z) : option Z :=
  let r1 := Z.lor r_a (add64 r_xy c) in
  let n := (y - x + 1) mod uint64_modulus in
  if n =? 0 then None else Some (add64 (r1 mod n) x).

(** [gen_customer_id] and [gen_item_id], with the constants of the
    header. *)
Definition gen_customer_id (r_a r_xy : Z) : option Z :=
  nurand 1023 259 1 3000 r_a r_xy.
Definition gen_item_id (r_a r_xy : Z) : option Z :=
  nurand 8191 7911 1 100000 r_a r_xy.

End tpcc_input_generator.

(** ** Example instances *)

(** An index over 64-bit keys and values, hashed by the key itself, whose
    nodes keep [value] 24 bytes in. *)
Definition uint_index (opacity rmw : bool) : unordered_index.params :=
  unordered_index.mkParams Z _ Z (fun k => k) 0 24 1024 opacity rmw.

(** Two empty buckets, and the caller's value 77 at address 1000. *)
Definition empty_table (opacity rmw : bool)
  : @unordered_index.state (uint_index opacity rmw) :=
  @unordered_index.mkState (uint_index opacity rmw)
    [bucket_entry.mk [] 0; bucket_entry.mk [] 0] ∅ {[1000 := 77]} [] [].

(** The key 5 in its bucket, in a node at address 4096 with the given
    version, under the given items. *)
Definition one_row_table (opacity rmw : bool) (vers : Z) (its : list TransItem.t)
  : @unordered_index.state (uint_index opacity rmw) :=
  @unordered_index.mkState (uint_index opacity rmw)
    [bucket_entry.mk [] 0; bucket_entry.mk [4096] 0]
    {[4096 := internal_elem.mk 5 vers 77 false]} {[1000 := 78]} its [].

(** An ordered index over 64-bit values, keyed by 8-byte big-endian numbers,
    without opacity or read-my-writes. *)
Definition scan_index : ordered_index.params :=
  ordered_index.mkParams Z false false (fun _ => true).

Definition key8 (n : byte) : ordered_index.Str :=
  [x00; x00; x00; x00; x00; x00; x00; n]%byte.

(** The keys 5 and 7 in one bucket, 7 at the head of the chain, in nodes at
    4096 and 8192 with the values 77 and 88. *)
Definition two_row_table (opacity rmw : bool)
  : @unordered_index.state (uint_index opacity rmw) :=
  @unordered_index.mkState (uint_index opacity rmw)
    [bucket_entry.mk [] 0; bucket_entry.mk [8192; 4096] 0]
    (<[4096 := internal_elem.mk 5 1024 77 false]>
       (<[8192 := internal_elem.mk 7 1024 88 false]> ∅))
    {[1000 := 78]} [] [].

(** A set of one empty group of four slots, and a way to grow by a group of
    eight. *)
Definition one_group_set : TRcuSet.t :=
  TRcuSet.mkSet [TRcuGroup.make 4 0 (replicate 4 (TRcuGroup.mkElement 0 0))] 0.

Definition grow_by_eight (s : TRcuSet.t) : TRcuSet.t :=
  TRcuSet.mkSet
    (TRcuSet.groups s
     ++ [TRcuGroup.make 8 0 (replicate 8 (TRcuGroup.mkElement 0 0))])
    (TRcuSet.clean_epoch_ s).

(** The keys 10, 20, 30 and 40 in two leaves of the first layer, their
    records committed with values 100 to 400. *)
Definition scan_table : @ordered_index.state scan_index :=
  @ordered_index.mkState scan_index
    [ordered_index.mkLeaf 1 0 (ordered_index.mkKey 0 [])
       [(10, key8 x0a, 4096); (20, key8 x14, 4128)];
     ordered_index.mkLeaf 2 0 (ordered_index.mkKey 0 [])
       [(30, key8 x1e, 4160); (40, key8 x28, 4192)]]
    (<[4096 := internal_elem.mk (key8 x0a) 1024 100 false]>
       (<[4128 := internal_elem.mk (key8 x14) 1024 200 false]>
          (<[4160 := internal_elem.mk (key8 x1e) 1024 300 false]>
             (<[4192 := internal_elem.mk (key8 x28) 1024 400 false]> ∅))))
    ∅ [] [].

(** The same table with the record of the key 20 not yet committed. *)
Definition scan_table_uncommitted : @ordered_index.state scan_index :=
  @ordered_index.mkState scan_index
    (ordered_index.table_ scan_table)
    (<[4128 := internal_elem.mk (key8 x14) 1152 200 false]>
       (ordered_index.elems scan_table))
    ∅ [] [].

(** An ordered index with read-my-writes, and a state of it with one
    committed record at 4096, whose value is 100, a staged row 555 at 1000,
    and the given items. *)
Definition rmw_ordered_index : ordered_index.params :=
  ordered_index.mkParams Z false true (fun _ => true).

Definition one_record_state (its : list TransItem.t)
  : @ordered_index.state rmw_ordered_index :=
  @ordered_index.mkState rmw_ordered_index []
    {[4096 := internal_elem.mk (key8 x0a) 1024 100 false]} {[1000 := 555]} its [].

(** * Properties *)

(** ** RCU groups *)

Section GroupFacts.
Import TRcuGroup.

Lemma uadd_small (x y : Z) :
  0 <= x + y < unsigned_modulus -> uadd x y = x + y.
Proof. intros H. unfold uadd. now apply Z.mod_small. Qed.

Lemma take_take_le {A : Type} (l : list A) (n m : nat) :
  (n <= m)%nat -> take n (take m l) = take n l.
Proof. intros H. rewrite take_take. f_equal. lia. Qed.

Lemma entries_nil (i : Z) (g : t) : entries i i g = [].
Proof. unfold entries. now rewrite Z.sub_diag. Qed.

Lemma entries_snoc (from to : Z) (g : t) (el : TRcuElement) :
  0 <= from <= to -> e_ g !! Z.to_nat to = Some el ->
  entries from (to + 1) g = entries from to g ++ [el].
Proof.
  intros Hr Hl. unfold entries.
  replace (Z.to_nat (to + 1 - from)) with (S (Z.to_nat (to - from))) by lia.
  apply take_S_r. rewrite lookup_drop.
  now replace (Z.to_nat from + Z.to_nat (to - from))%nat with (Z.to_nat to) by lia.
Qed.

Lemma entries_take_eq (from to : Z) (g g' : t) :
  0 <= from <= to ->
  take (Z.to_nat to) (e_ g') = take (Z.to_nat to) (e_ g) ->
  entries from to g' = entries from to g.
Proof.
  intros Hr Ht. unfold entries. apply list_eq. intros i.
  rewrite !lookup_take, !lookup_drop.
  destruct (decide (i < Z.to_nat (to - from))%nat) as [Hi|Hi]; [|done].
  assert (Hlt : (Z.to_nat from + i < Z.to_nat to)%nat) by lia.
  pose proof (f_equal (fun l => l !! (Z.to_nat from + i)%nat) Ht) as He.
  simpl in He. rewrite !lookup_take in He.
  now destruct (decide (Z.to_nat from + i < Z.to_nat to)%nat).
Qed.

Lemma entries_app (from mid to : Z) (g : t) :
  0 <= from <= mid -> mid <= to ->
  entries from to g = entries from mid g ++ entries mid to g.
Proof.
  intros H1 H2. unfold entries.
  replace (Z.to_nat (to - from))
    with (Z.to_nat (mid - from) + Z.to_nat (to - mid))%nat by lia.
  rewrite <- take_take_drop, drop_drop.
  now replace (Z.to_nat from + Z.to_nat (mid - from))%nat
    with (Z.to_nat mid) by lia.
Qed.

Lemma store_spec (i : Z) (el : TRcuElement) (g : t) :
  0 <= i < Z.of_nat (length (e_ g)) ->
  store i el g
  = Some (mkGroup (head_ g) (tail_ g) (capacity_ g) (epoch_ g)
            (<[Z.to_nat i := el]> (e_ g))).
Proof.
  intros H. unfold store.
  replace (0 <=? i) with true by (symmetry; apply Z.leb_le; lia).
  replace (i <? Z.of_nat (length (e_ g))) with true
    by (symmetry; apply Z.ltb_lt; lia).
  reflexivity.
Qed.

Lemma recent_epoch_marks (epoch : Z) (g : t) :
  (head_ g =? tail_ g) || negb (epoch_ g =? epoch)
  = negb (bool_decide (recent_epoch g = Some epoch)).
Proof.
  unfold recent_epoch. destruct (head_ g =? tail_ g); cbn.
  - now rewrite bool_decide_eq_false_2.
  - destruct (Z.eqb_spec (epoch_ g) epoch) as [->|Hne]; cbn.
    + now rewrite bool_decide_eq_true_2.
    + rewrite bool_decide_eq_false_2; [done|]. now intros [= ?].
Qed.

(** What one [add] does: a marker exactly when the group holds no entry of
    this epoch yet, then the action. *)
Lemma add_spec (epoch fn argument : Z) (g : t) :
  wf g -> tail_ g + 2 <= capacity_ g ->
  exists g',
    add epoch fn argument g = Some g' /\ wf g'
    /\ head_ g' = head_ g /\ capacity_ g' = capacity_ g
    /\ tail_ g'
       = tail_ g + (if decide (recent_epoch g = Some epoch) then 1 else 2)
    /\ recent_epoch g' = Some epoch
    /\ take (Z.to_nat (tail_ g)) (e_ g') = take (Z.to_nat (tail_ g)) (e_ g)
    /\ entries (tail_ g) (tail_ g') g'
       = (if decide (recent_epoch g = Some epoch) then [] else [marker epoch])
         ++ [action (fn, argument)].
Proof.
  intros (Hh & Ht & Hc & Hm) Hroom. unfold add.
  rewrite (uadd_small (tail_ g) 2) by lia.
  replace (tail_ g + 2 <=? capacity_ g) with true
    by (symmetry; apply Z.leb_le; lia).
  cbn [negb]. rewrite recent_epoch_marks.
  destruct (decide (recent_epoch g = Some epoch)) as [Heq|Hne].
  - (* the epoch is inherited *)
    rewrite bool_decide_eq_true_2 by done. cbn [negb mbind option_bind].
    rewrite store_spec by lia. unfold set_tail.
    cbn [mbind option_bind tail_ e_ head_ capacity_ epoch_].
    rewrite (uadd_small (tail_ g) 1) by lia.
    eexists. split; [reflexivity|].
    unfold wf; cbn [head_ tail_ capacity_ epoch_ e_].
    rewrite !length_insert.
    repeat split; try lia.
    + unfold recent_epoch in *; cbn [head_ tail_ epoch_].
      replace (head_ g =? tail_ g + 1) with false
        by (symmetry; apply Z.eqb_neq; lia).
      destruct (head_ g =? tail_ g); [discriminate|done].
    + rewrite !take_insert_ge by lia. reflexivity.
    + set (g2 := mkGroup _ _ _ _ _).
      rewrite (entries_snoc (tail_ g) (tail_ g) g2 (action (fn, argument)));
        [|lia|].
      * now rewrite entries_nil.
      * subst g2; cbn [e_]. apply list_lookup_insert_eq. lia.
  - (* a marker is written *)
    rewrite bool_decide_eq_false_2 by done. cbn [negb mbind option_bind].
    rewrite store_spec by lia. unfold set_tail, set_epoch.
    cbn [mbind option_bind tail_ e_ head_ capacity_ epoch_].
    rewrite (uadd_small (tail_ g) 1) by lia.
    rewrite store_spec by (cbn [e_]; rewrite length_insert; lia).
    cbn [mbind option_bind tail_ e_ head_ capacity_ epoch_].
    rewrite (uadd_small (tail_ g + 1) 1) by lia.
    eexists. split; [reflexivity|].
    unfold wf; cbn [head_ tail_ capacity_ epoch_ e_].
    rewrite !length_insert.
    repeat split; try lia.
    + unfold recent_epoch; cbn [head_ tail_ epoch_].
      replace (head_ g =? tail_ g + 1 + 1) with false
        by (symmetry; apply Z.eqb_neq; lia). reflexivity.
    + rewrite !take_insert_ge by lia. reflexivity.
    + replace (tail_ g + 1 + 1) with ((tail_ g + 1) + 1) by lia.
      set (g2 := mkGroup _ _ _ _ _).
      rewrite (entries_snoc (tail_ g) (tail_ g + 1) g2 (action (fn, argument)));
        [|lia|].
      * rewrite (entries_snoc (tail_ g) (tail_ g) g2 (marker epoch)); [|lia|].
        -- now rewrite entries_nil.
        -- subst g2; cbn [e_]. rewrite list_lookup_insert_ne by lia.
           apply list_lookup_insert_eq. lia.
      * subst g2; cbn [e_]. apply list_lookup_insert_eq.
        rewrite length_insert. lia.
Qed.

(** Deferrals that find their epoch in the group add their actions only. *)
Lemma add_all_inherit (epoch : Z) (acts : list call) (g : t) :
  wf g -> recent_epoch g = Some epoch ->
  acts = [] \/ tail_ g + Z.of_nat (length acts) + 1 <= capacity_ g ->
  exists g',
    add_all epoch acts g = Some g' /\ wf g'
    /\ head_ g' = head_ g /\ capacity_ g' = capacity_ g
    /\ tail_ g' = tail_ g + Z.of_nat (length acts)
    /\ recent_epoch g' = Some epoch
    /\ take (Z.to_nat (tail_ g)) (e_ g') = take (Z.to_nat (tail_ g)) (e_ g)
    /\ entries (tail_ g) (tail_ g') g' = action <$> acts.
Proof.
  revert g. induction acts as [|[fn argument] rest IH]; intros g Hwf Hrec Hroom.
  - exists g. cbn. rewrite Z.add_0_r, entries_nil. repeat split; done || apply Hwf.
  - destruct Hroom as [|Hroom]; [discriminate|]. cbn [length] in Hroom.
    destruct (add_spec epoch fn argument g Hwf ltac:(lia))
      as (g1 & Hadd & Hwf1 & Hh1 & Hc1 & Ht1 & Hrec1 & Htk1 & Hen1).
    destruct (decide (recent_epoch g = Some epoch)) as [_|]; [|contradiction].
    destruct (IH g1 Hwf1 Hrec1) as (g' & Hall & Hwf' & Hh' & Hc' & Ht' & Hrec' & Htk' & Hen').
    { destruct rest; [now left|right]. cbn [length] in *. lia. }
    exists g'. cbn [add_all]. rewrite Hadd. cbn [mbind option_bind].
    pose proof Hwf as (Hh & _).
    assert (Htk : take (Z.to_nat (tail_ g)) (e_ g')
                  = take (Z.to_nat (tail_ g)) (e_ g)).
    { rewrite <- Htk1.
      rewrite <- (take_take_le (e_ g') (Z.to_nat (tail_ g)) (Z.to_nat (tail_ g1)))
        by lia.
      rewrite Htk'. apply take_take_le. lia. }
    repeat split; try done; try apply Hwf'; try congruence.
    + cbn [length]. lia.
    + rewrite (entries_app (tail_ g) (tail_ g1) (tail_ g')) by lia.
      rewrite (entries_take_eq (tail_ g) (tail_ g1) g1 g') by (done || lia).
      rewrite Hen1, Hen'. reflexivity.
Qed.

Lemma entries_cons (from to : Z) (g : t) (el : TRcuElement) :
  0 <= from < to -> e_ g !! Z.to_nat from = Some el ->
  entries from to g = el :: entries (from + 1) to g.
Proof.
  intros Hr Hl. unfold entries.
  replace (Z.to_nat (to - from)) with (S (Z.to_nat (to - (from + 1)))) by lia.
  rewrite (drop_S _ _ _ Hl). cbn [take].
  now replace (Z.to_nat (from + 1)) with (S (Z.to_nat from)) by lia.
Qed.

(** The destructor's loop calls the actions between [head_] and [tail_] in
    order and stops with [head_ = tail_]. *)
Lemma destroy_loop_spec (n : nat) (g : t) (calls : list call) :
  n = Z.to_nat (tail_ g - head_ g) ->
  0 <= head_ g <= tail_ g -> tail_ g <= Z.of_nat (length (e_ g)) ->
  tail_ g < unsigned_modulus ->
  exists g',
    destroy_loop n g calls
    = Some (g', calls ++ (called <$> filter (fun el => function el <> 0)
                            (entries (head_ g) (tail_ g) g)))
    /\ head_ g' = tail_ g' /\ tail_ g' = tail_ g /\ e_ g' = e_ g.
Proof.
  revert g calls. induction n as [|n IH]; intros g calls Hn Hh Ht Hm.
  - assert (head_ g = tail_ g) as Heq by lia.
    exists g. cbn [destroy_loop]. rewrite Heq, Z.eqb_refl, entries_nil.
    cbn. now rewrite app_nil_r.
  - assert (head_ g < tail_ g) as Hlt by lia.
    cbn [destroy_loop].
    replace (head_ g =? tail_ g) with false by (symmetry; apply Z.eqb_neq; lia).
    unfold load. replace (0 <=? head_ g) with true
      by (symmetry; apply Z.leb_le; lia).
    destruct (lookup_lt_is_Some_2 (e_ g) (Z.to_nat (head_ g)) ltac:(lia))
      as [el Hel].
    rewrite Hel. cbn [mbind option_bind].
    rewrite (uadd_small (head_ g) 1) by lia.
    destruct (IH (set_head (head_ g + 1) g)
                (if function el =? 0 then calls else calls ++ [(function el, u el)]))
      as (g' & Hrun & Hht & Htt & Hee);
      try (cbn [set_head head_ tail_ e_]; lia).
    exists g'. rewrite Hrun. unfold set_head in *. cbn [head_ tail_ e_] in *.
    split; [|done]. f_equal. f_equal.
    rewrite (entries_cons (head_ g) (tail_ g) g el) by (done || lia).
    assert (Hent : entries (head_ g + 1) (tail_ g)
                     (mkGroup (head_ g + 1) (tail_ g) (capacity_ g) (epoch_ g) (e_ g))
                   = entries (head_ g + 1) (tail_ g) g) by reflexivity.
    rewrite Hent. rewrite filter_cons.
    destruct (Z.eqb_spec (function el) 0) as [Hz|Hnz].
    + destruct (decide (function el <> 0)); [contradiction|done].
    + destruct (decide (function el <> 0)); [|contradiction].
      rewrite fmap_cons, <- app_assoc. reflexivity.
Qed.

End GroupFacts.

(** C6.  A deferral writes an epoch marker ([function] null, [u] the epoch)
    exactly when the epoch the group would hand on differs from the one
    being enqueued (a group that holds no entry hands none on), and the
    actions that follow inherit it: [N >= 1] consecutive deferrals with one
    epoch append one marker followed by the [N] actions, or the [N] actions
    alone when the group already stands at that epoch; the entries written
    before stay as they were. *)
Theorem rcu_group_add_epoch_marker (epoch : Z) (acts : list call)
  (g : TRcuGroup.t) :
  TRcuGroup.wf g -> acts <> [] ->
  TRcuGroup.tail_ g + Z.of_nat (length acts) + 2 <= TRcuGroup.capacity_ g ->
  exists g',
    TRcuGroup.add_all epoch acts g = Some g'
    /\ TRcuGroup.entries (TRcuGroup.tail_ g) (TRcuGroup.tail_ g') g'
       = (if decide (TRcuGroup.recent_epoch g = Some epoch) then []
          else [TRcuGroup.marker epoch])
         ++ (TRcuGroup.action <$> acts)
    /\ TRcuGroup.recent_epoch g' = Some epoch
    /\ TRcuGroup.entries (TRcuGroup.head_ g) (TRcuGroup.tail_ g) g'
       = TRcuGroup.entries (TRcuGroup.head_ g) (TRcuGroup.tail_ g) g.
Proof.
  intros Hwf Hne Hroom. destruct acts as [|[fn argument] rest]; [done|].
  cbn [length] in Hroom.
  destruct (add_spec epoch fn argument g Hwf ltac:(lia))
    as (g1 & Hadd & Hwf1 & Hh1 & Hc1 & Ht1 & Hrec1 & Htk1 & Hen1).
  destruct (add_all_inherit epoch rest g1 Hwf1 Hrec1)
    as (g' & Hall & Hwf' & Hh' & Hc' & Ht' & Hrec' & Htk' & Hen').
  { right. destruct (decide _); lia. }
  pose proof Hwf as (Hh & _).
  assert (Hlt : TRcuGroup.tail_ g <= TRcuGroup.tail_ g1)
    by (destruct (decide _); lia).
  assert (Htk : take (Z.to_nat (TRcuGroup.tail_ g)) (TRcuGroup.e_ g')
                = take (Z.to_nat (TRcuGroup.tail_ g)) (TRcuGroup.e_ g)).
  { rewrite <- Htk1.
    rewrite <- (take_take_le (TRcuGroup.e_ g') (Z.to_nat (TRcuGroup.tail_ g))
                  (Z.to_nat (TRcuGroup.tail_ g1))) by lia.
    rewrite Htk'. apply take_take_le. lia. }
  exists g'. cbn [TRcuGroup.add_all]. rewrite Hadd. cbn [mbind option_bind].
  repeat split; try done.
  - rewrite (entries_app (TRcuGroup.tail_ g) (TRcuGroup.tail_ g1)
               (TRcuGroup.tail_ g')) by lia.
    rewrite (entries_take_eq (TRcuGroup.tail_ g) (TRcuGroup.tail_ g1) g1 g')
      by (done || lia).
    rewrite Hen1, Hen'. rewrite fmap_cons, <- app_assoc. reflexivity.
  - apply entries_take_eq; [lia|done].
Qed.

(** C8.  Destroying a group calls every action entry left between [head_]
    and [tail_] (an entry whose [function] is not null), in queue order,
    with the argument stored beside it; neither the epoch markers in
    between nor any safe-epoch bound are consulted, and the loop ends with
    [head_ = tail_]. *)
Theorem rcu_group_destroy_runs_residual_actions (g : TRcuGroup.t)
  (calls : list call) :
  0 <= TRcuGroup.head_ g <= TRcuGroup.tail_ g ->
  TRcuGroup.tail_ g <= Z.of_nat (length (TRcuGroup.e_ g)) ->
  TRcuGroup.tail_ g < unsigned_modulus ->
  exists g',
    TRcuGroup.destroy g calls
    = Some (g', calls ++ ((fun el => (TRcuGroup.function el, TRcuGroup.u el))
                          <$> filter (fun el => TRcuGroup.function el <> 0)
                                (TRcuGroup.entries (TRcuGroup.head_ g)
                                   (TRcuGroup.tail_ g) g)))
    /\ TRcuGroup.head_ g' = TRcuGroup.tail_ g'.
Proof.
  intros Hh Ht Hm. unfold TRcuGroup.destroy.
  rewrite Z.mod_small by lia.
  destruct (destroy_loop_spec _ g calls eq_refl Hh Ht Hm)
    as (g' & Hrun & Hht & _).
  exists g'. split; [exact Hrun|exact Hht].
Qed.

(** ** RCU sets *)

Lemma group_clean_until_empty (fuel : nat) (max_epoch : Z) (g : TRcuGroup.t)
  (calls : list call) :
  TRcuGroup.head_ g = TRcuGroup.tail_ g ->
  TRcuGroup.clean_until (S fuel) max_epoch g calls = (true, g, calls).
Proof. intros H. cbn. now rewrite H, Z.eqb_refl. Qed.

Lemma hard_clean_groups_empty (max_epoch : Z) (gs : list TRcuGroup.t)
  (calls : list call) :
  Forall (fun g => TRcuGroup.head_ g = TRcuGroup.tail_ g) gs ->
  (TRcuSet.hard_clean_groups max_epoch gs calls).2 = calls
  /\ (TRcuSet.hard_clean_groups max_epoch gs calls).1 ⊆ gs.
Proof.
  induction 1 as [|g rest Hg Hrest IH]; [done|].
  cbn [TRcuSet.hard_clean_groups].
  rewrite group_clean_until_empty by done.
  destruct rest as [|g' rest']; [done|].
  destruct IH as [IH1 IH2]. split; [done|].
  etrans; [exact IH2|]. apply list_subseteq_cons. done.
Qed.

(** C7, as the code has it.  Cleaning a set whose queue is empty fires no
    callback and touches no group (the groups that remain are groups of the
    set as it was, so no [epoch_] moves); [clean_epoch_] is set to
    [max_epoch]. *)
Theorem rcu_set_clean_until_empty_queue (max_epoch : Z) (s : TRcuSet.t)
  (calls : list call) :
  TRcuSet.queue_empty s ->
  (TRcuSet.clean_until max_epoch s calls).2 = calls
  /\ TRcuSet.groups (TRcuSet.clean_until max_epoch s calls).1 ⊆ TRcuSet.groups s
  /\ TRcuSet.clean_epoch (TRcuSet.clean_until max_epoch s calls).1 = max_epoch.
Proof.
  intros Hq. unfold TRcuSet.clean_until, TRcuSet.hard_clean_until.
  destruct (negb (TRcuSet.clean_epoch_ s =? max_epoch)); [|done].
  destruct (hard_clean_groups_empty max_epoch (TRcuSet.groups s) calls Hq)
    as [H1 H2].
  destruct (TRcuSet.hard_clean_groups max_epoch (TRcuSet.groups s) calls)
    as [gs calls']. done.
Qed.

(** C7 fails as stated: on a set with one group and no entry, cleaned up to
    epoch 5, [clean_epoch_] moves from 0 to 5. *)
Lemma rcu_set_clean_until_moves_clean_epoch :
  ~ (TRcuSet.queue_empty
       (TRcuSet.mkSet [TRcuGroup.make 4 0 (replicate 4 (TRcuGroup.mkElement 0 0))] 0)
     -> (TRcuSet.clean_until 5
           (TRcuSet.mkSet
              [TRcuGroup.make 4 0 (replicate 4 (TRcuGroup.mkElement 0 0))] 0) []).2
        = []
        /\ TRcuSet.clean_epoch
             (TRcuSet.clean_until 5
                (TRcuSet.mkSet
                   [TRcuGroup.make 4 0 (replicate 4 (TRcuGroup.mkElement 0 0))] 0)
                []).1
           = TRcuSet.clean_epoch
               (TRcuSet.mkSet
                  [TRcuGroup.make 4 0 (replicate 4 (TRcuGroup.mkElement 0 0))] 0)).
Proof.
  intros H. destruct H as [_ H].
  - repeat constructor.
  - vm_compute in H. discriminate.
Qed.

Lemma rcu_set_clean_until_empty_queue_witness :
  (TRcuSet.clean_until 5
     (TRcuSet.mkSet [TRcuGroup.make 4 0 (replicate 4 (TRcuGroup.mkElement 0 0))] 0)
     [(7, 7)]).2 = [(7, 7)]
  /\ TRcuSet.groups
       (TRcuSet.clean_until 5
          (TRcuSet.mkSet
             [TRcuGroup.make 4 0 (replicate 4 (TRcuGroup.mkElement 0 0))] 0)
          [(7, 7)]).1
     ⊆ [TRcuGroup.make 4 0 (replicate 4 (TRcuGroup.mkElement 0 0))]
  /\ TRcuSet.clean_epoch
       (TRcuSet.clean_until 5
          (TRcuSet.mkSet
             [TRcuGroup.make 4 0 (replicate 4 (TRcuGroup.mkElement 0 0))] 0)
          [(7, 7)]).1 = 5.
Proof.
  apply (rcu_set_clean_until_empty_queue 5
           (TRcuSet.mkSet
              [TRcuGroup.make 4 0 (replicate 4 (TRcuGroup.mkElement 0 0))] 0)
           [(7, 7)]).
  repeat constructor.
Defined.

Lemma rcu_group_add_epoch_marker_witness :
  exists g',
    TRcuGroup.add_all 5 [(100, 1); (200, 2)]
      (TRcuGroup.make 8 0 (replicate 8 (TRcuGroup.mkElement 0 0))) = Some g'
    /\ TRcuGroup.entries 0 (TRcuGroup.tail_ g') g'
       = [TRcuGroup.marker 5; TRcuGroup.action (100, 1); TRcuGroup.action (200, 2)]
    /\ TRcuGroup.recent_epoch g' = Some 5
    /\ TRcuGroup.entries 0 0 g'
       = TRcuGroup.entries 0 0
           (TRcuGroup.make 8 0 (replicate 8 (TRcuGroup.mkElement 0 0))).
Proof.
  apply (rcu_group_add_epoch_marker 5 [(100, 1); (200, 2)]
           (TRcuGroup.make 8 0 (replicate 8 (TRcuGroup.mkElement 0 0)))).
  - unfold TRcuGroup.wf, unsigned_modulus. cbn. lia.
  - discriminate.
  - cbn. lia.
Defined.


Lemma rcu_group_destroy_runs_residual_actions_witness :
  exists g',
    TRcuGroup.destroy
      (TRcuGroup.mkGroup 1 5 8 9
         [TRcuGroup.mkElement 0 3; TRcuGroup.mkElement 0 5;
          TRcuGroup.mkElement 100 0; TRcuGroup.mkElement 0 9;
          TRcuGroup.mkElement 200 2; TRcuGroup.mkElement 0 0;
          TRcuGroup.mkElement 0 0; TRcuGroup.mkElement 0 0]) []
    = Some (g', [(100, 0); (200, 2)])
    /\ TRcuGroup.head_ g' = TRcuGroup.tail_ g'.
Proof.
  apply (rcu_group_destroy_runs_residual_actions
           (TRcuGroup.mkGroup 1 5 8 9
              [TRcuGroup.mkElement 0 3; TRcuGroup.mkElement 0 5;
               TRcuGroup.mkElement 100 0; TRcuGroup.mkElement 0 9;
               TRcuGroup.mkElement 200 2; TRcuGroup.mkElement 0 0;
               TRcuGroup.mkElement 0 0; TRcuGroup.mkElement 0 0]) []).
  - cbn. lia.
  - cbn. lia.
  - unfold unsigned_modulus. cbn. lia.
Defined.

(** ** Version words and items *)

Lemma ldiff_lor_cancel (v b : Z) :
  Z.land v b = 0 -> Z.ldiff (Z.lor v b) b = v.
Proof.
  intros H. apply Z.bits_inj'. intros n Hn.
  pose proof (f_equal (fun x => Z.testbit x n) H) as Hb. cbn beta in Hb.
  rewrite Z.land_spec, Z.bits_0 in Hb.
  rewrite Z.ldiff_spec, Z.lor_spec.
  destruct (Z.testbit v n), (Z.testbit b n); done.
Qed.

Lemma land_lor_same (v b : Z) : Z.land (Z.lor v b) b = b.
Proof.
  apply Z.bits_inj'. intros n Hn. rewrite Z.land_spec, Z.lor_spec.
  destruct (Z.testbit v n), (Z.testbit b n); done.
Qed.

Lemma land_ldiff_same (v b : Z) : Z.land (Z.ldiff v b) b = 0.
Proof.
  apply Z.bits_inj'. intros n Hn.
  rewrite Z.land_spec, Z.ldiff_spec, Z.bits_0.
  destruct (Z.testbit v n), (Z.testbit b n); done.
Qed.

Lemma land_ldiff_lor_r (v a b : Z) : Z.land (Z.ldiff v (Z.lor a b)) b = 0.
Proof.
  apply Z.bits_inj'. intros n Hn.
  rewrite Z.land_spec, Z.ldiff_spec, Z.lor_spec, Z.bits_0.
  destruct (Z.testbit v n), (Z.testbit a n), (Z.testbit b n); done.
Qed.

Lemma land_ldiff_lor_l (v a b : Z) : Z.land (Z.ldiff v (Z.lor a b)) a = 0.
Proof. rewrite Z.lor_comm. apply land_ldiff_lor_r. Qed.

Lemma is_locked_lock (v v' : Z) :
  TransactionTid.lock v = Some v' ->
  TransactionTid.is_locked v = false /\ v' = Z.lor v TransactionTid.lock_bit
  /\ TransactionTid.is_locked v' = true /\ TransactionTid.unlock v' = v.
Proof.
  unfold TransactionTid.lock. destruct (TransactionTid.is_locked v) eqn:E; [done|].
  intros [= <-]. repeat split.
  - unfold TransactionTid.is_locked. now rewrite land_lor_same.
  - unfold TransactionTid.unlock. apply ldiff_lor_cancel.
    unfold TransactionTid.is_locked in E.
    now apply negb_false_iff, Z.eqb_eq in E.
Qed.

Lemma lock_free (v : Z) :
  TransactionTid.is_locked v = false ->
  TransactionTid.lock v = Some (Z.lor v TransactionTid.lock_bit).
Proof. intros H. unfold TransactionTid.lock. now rewrite H. Qed.

Lemma is_locked_unlock (v : Z) :
  TransactionTid.is_locked (TransactionTid.unlock v) = false.
Proof.
  unfold TransactionTid.is_locked, TransactionTid.unlock.
  now rewrite land_ldiff_same.
Qed.

(** A bump of the version leaves the flag bits below the counter alone and
    moves the counter by one, around the 54 bits it has. *)
Lemma counter_bump (v : Z) :
  0 <= v < uint64_modulus ->
  TransactionTid.is_locked v = false ->
  TransactionTid.counter
    (TransactionTid.unlock
       (TransactionTid.inc_nonopaque_version (Z.lor v TransactionTid.lock_bit)))
  = (TransactionTid.counter v + 1) mod 2 ^ 54.
Proof.
  intros Hr Hl.
  unfold TransactionTid.counter, TransactionTid.unlock,
    TransactionTid.inc_nonopaque_version, TransactionTid.increment_value,
    TransactionTid.nonopaque_bit, TransactionTid.lock_bit, add64, uint64_modulus in *.
  change 1024 with (2 ^ 10).
  rewrite <- !Z.shiftr_div_pow2 by lia.
  rewrite Z.shiftr_ldiff, Z.shiftr_lor.
  change (Z.shiftr 32 10) with 0. change (Z.shiftr 64 10) with 0.
  rewrite Z.ldiff_0_r, Z.lor_0_r.
  rewrite !Z.shiftr_div_pow2 by lia.
  assert (Hlor : Z.lor v 32 = v + 32).
  { unfold TransactionTid.is_locked, TransactionTid.lock_bit in Hl.
    apply negb_false_iff, Z.eqb_eq in Hl.
    rewrite <- Z.lxor_lor by done. symmetry. now apply Z.add_nocarry_lxor. }
  assert (H32 : (v + 32) / 2 ^ 10 = v / 2 ^ 10).
  { rewrite <- Hlor. rewrite <- !Z.shiftr_div_pow2 by lia.
    rewrite Z.shiftr_lor. change (Z.shiftr 32 10) with 0. apply Z.lor_0_r. }
  rewrite Hlor.
  change (2 ^ 64) with (2 ^ 10 * 2 ^ 54).
  rewrite Z.rem_mul_r by lia.
  rewrite Z.mul_comm, Z.div_add by lia.
  rewrite (Z.div_small ((v + 32 + 2 ^ 10) mod 2 ^ 10)) by (apply Z.mod_pos_bound; lia).
  replace (v + 32 + 2 ^ 10) with (v + 32 + 1 * 2 ^ 10) by lia.
  rewrite Z.div_add by lia. rewrite H32. now rewrite Z.add_0_l.
Qed.

Lemma item_lookup_app (k : TransItem.item_key) (l1 l2 : list TransItem.t) :
  TransItem.lookup k (l1 ++ l2)
  = match TransItem.lookup k l1 with
    | Some it => Some it
    | None => TransItem.lookup k l2
    end.
Proof.
  induction l1 as [|it l1 IH]; [done|]. cbn.
  destruct (decide (TransItem.key it = k)); done.
Qed.

Lemma item_lookup_item (k : TransItem.item_key) (its : list TransItem.t) :
  TransItem.lookup k (TransItem.item k its) = Some (TransItem.get k its).
Proof.
  unfold TransItem.item, TransItem.get.
  destruct (TransItem.lookup k its) eqn:E; [done|].
  rewrite item_lookup_app, E. cbn.
  destruct (decide (k = k)); done.
Qed.

Lemma item_get_item (k : TransItem.item_key) (its : list TransItem.t) :
  TransItem.get k (TransItem.item k its) = TransItem.get k its.
Proof.
  unfold TransItem.get at 1. now rewrite item_lookup_item.
Qed.

Lemma item_get_item_ne (k k' : TransItem.item_key) (its : list TransItem.t) :
  k' <> k -> TransItem.get k' (TransItem.item k its) = TransItem.get k' its.
Proof.
  intros Hne. unfold TransItem.item, TransItem.get.
  destruct (TransItem.lookup k its) eqn:E; [done|].
  rewrite item_lookup_app. destruct (TransItem.lookup k' its); [done|].
  cbn. destruct (decide (k = k')); [congruence|done].
Qed.

Lemma item_lookup_key (k : TransItem.item_key) (its : list TransItem.t)
  (it : TransItem.t) :
  TransItem.lookup k its = Some it -> TransItem.key it = k.
Proof.
  induction its as [|it' its IH]; [done|]. cbn.
  destruct (decide (TransItem.key it' = k)); [|done]. now intros [= <-].
Qed.

Lemma item_lookup_put (it : TransItem.t) (its : list TransItem.t) :
  is_Some (TransItem.lookup (TransItem.key it) its) ->
  TransItem.lookup (TransItem.key it) (TransItem.put it its) = Some it.
Proof.
  induction its as [|it' its IH]; cbn.
  - intros [? [=]].
  - destruct (decide (TransItem.key it' = TransItem.key it)) as [Heq|Hne]; cbn.
    + intros _. destruct (decide (TransItem.key it = TransItem.key it)); done.
    + intros H. destruct (decide (TransItem.key it' = TransItem.key it)); [done|].
      now apply IH.
Qed.

Lemma item_lookup_put_ne (k : TransItem.item_key) (it : TransItem.t)
  (its : list TransItem.t) :
  k <> TransItem.key it ->
  TransItem.lookup k (TransItem.put it its) = TransItem.lookup k its.
Proof.
  intros Hne. induction its as [|it' its IH]; [done|]. cbn.
  destruct (decide (TransItem.key it' = TransItem.key it)) as [Heq|Hne']; cbn.
  - destruct (decide (TransItem.key it = k)); [congruence|].
    destruct (decide (TransItem.key it' = k)); [congruence|done].
  - destruct (decide (TransItem.key it' = k)); [done|]. apply IH.
Qed.

(** Writing an item through the proxy that [Sto::item] returned. *)
Lemma item_get_put (k : TransItem.item_key) (it : TransItem.t)
  (its : list TransItem.t) :
  TransItem.key it = k ->
  TransItem.get k (TransItem.put it (TransItem.item k its)) = it.
Proof.
  intros <-. unfold TransItem.get. rewrite item_lookup_put; [done|].
  rewrite item_lookup_item. eauto.
Qed.

Lemma item_get_put_ne (k : TransItem.item_key) (it : TransItem.t)
  (its : list TransItem.t) :
  k <> TransItem.key it ->
  TransItem.get k (TransItem.put it its) = TransItem.get k its.
Proof. intros H. unfold TransItem.get. now rewrite item_lookup_put_ne. Qed.

Lemma item_get_key (k : TransItem.item_key) (its : list TransItem.t) :
  TransItem.key (TransItem.get k its) = k.
Proof.
  unfold TransItem.get. destruct (TransItem.lookup k its) eqn:E; [|done].
  now apply item_lookup_key in E.
Qed.

Lemma observe_spec (opaque : bool) (v : Z) (it : TransItem.t) :
  TransItem.observe opaque v it
  = if opaque && TransactionTid.is_locked v then None
    else Some (TransItem.mkItem (TransItem.key it) (TransItem.flags it) true
                 (if TransItem.has_read it then TransItem.rdata it else v)
                 (TransItem.has_write it) (TransItem.wdata it)).
Proof.
  unfold TransItem.observe. destruct (opaque && _); [done|].
  destruct it as [k f [] r w d]; done.
Qed.

(** ** The unordered index *)

Section IndexFacts.
Import unordered_index.
Context {P : params}.

Lemma set_bucket_same (idx : nat) (b : bucket_entry.t) (st : state) :
  map_ st !! idx = Some b -> set_bucket idx b st = st.
Proof.
  intros H. destruct st as [m h vs its r]. unfold set_bucket, set_map. cbn in *.
  now rewrite list_insert_id.
Qed.

Lemma set_bucket_lookup (idx : nat) (b b0 : bucket_entry.t) (st : state) :
  map_ st !! idx = Some b0 -> map_ (set_bucket idx b st) !! idx = Some b.
Proof.
  intros H. unfold set_bucket, set_map. cbn.
  apply list_lookup_insert_eq. now apply lookup_lt_Some in H.
Qed.

Lemma elems_set_bucket (idx : nat) (b : bucket_entry.t) (st : state) :
  elems (set_bucket idx b st) = elems st.
Proof. reflexivity. Qed.

Lemma set_bucket_twice (idx : nat) (b b' : bucket_entry.t) (st : state) :
  set_bucket idx b (set_bucket idx b' st) = set_bucket idx b st.
Proof.
  unfold set_bucket, set_map. cbn. now rewrite list_insert_insert_eq.
Qed.

Lemma lock_spec (idx : nat) (buck : bucket_entry.t) (st : state) :
  map_ st !! idx = Some buck ->
  TransactionTid.is_locked (bucket_entry.version buck) = false ->
  lock idx st
  = Some (set_bucket idx
            (bucket_entry.mk (bucket_entry.chain buck)
               (Z.lor (bucket_entry.version buck) TransactionTid.lock_bit)) st).
Proof.
  intros Hb Hl. unfold lock. rewrite Hb. cbn. now rewrite lock_free.
Qed.

Lemma unlock_spec (idx : nat) (buck : bucket_entry.t) (st : state) :
  map_ st !! idx = Some buck ->
  unlock idx st
  = Some (set_bucket idx
            (bucket_entry.mk (bucket_entry.chain buck)
               (TransactionTid.unlock (bucket_entry.version buck))) st).
Proof. intros Hb. unfold unlock. now rewrite Hb. Qed.

(** Taking and releasing a free bucket lock leaves the table as it was. *)
Lemma lock_unlock (idx : nat) (buck : bucket_entry.t) (st : state) :
  map_ st !! idx = Some buck ->
  TransactionTid.is_locked (bucket_entry.version buck) = false ->
  exists st1,
    lock idx st = Some st1
    /\ map_ st1 !! idx
       = Some (bucket_entry.mk (bucket_entry.chain buck)
                 (Z.lor (bucket_entry.version buck) TransactionTid.lock_bit))
    /\ elems st1 = elems st /\ values st1 = values st
    /\ items st1 = items st /\ rcu st1 = rcu st
    /\ unlock idx st1 = Some st.
Proof.
  intros Hb Hl. eexists. split; [exact (lock_spec idx buck st Hb Hl)|].
  split; [exact (set_bucket_lookup idx _ buck st Hb)|].
  repeat split.
  erewrite unlock_spec by exact (set_bucket_lookup idx _ buck st Hb).
  rewrite set_bucket_twice. cbn [bucket_entry.chain bucket_entry.version].
  f_equal. apply set_bucket_same. rewrite Hb. f_equal.
  destruct buck as [c v]. cbn in *. f_equal.
  unfold TransactionTid.unlock. symmetry. apply ldiff_lor_cancel.
  unfold TransactionTid.is_locked in Hl. now apply negb_false_iff, Z.eqb_eq in Hl.
Qed.

Lemma valid_not_phantom (el : internal_elem.t K V) (item : TransItem.t) :
  valid el = true -> is_phantom el item = false.
Proof. intros H. unfold is_phantom. now rewrite H. Qed.

End IndexFacts.

(** C10.  With read-my-writes off, [insert_row] without [overwrite] on a
    key whose node is valid leaves the table, the nodes, the values and the
    deferred deletions as they were, stages no write (no item gains a write
    or a flag), and only records the node's version as an observation when
    the item has none yet; it returns (true, true) when the observation can
    be made and aborts otherwise. *)
Theorem insert_row_present_only_observes
  {P : unordered_index.params} (k : unordered_index.K) (vptr new_elem : Z)
  (idx : nat) (buck : bucket_entry.t) (e : Z)
  (el : internal_elem.t unordered_index.K unordered_index.V)
  (st : unordered_index.state) :
  unordered_index.ReadMyWrite = false ->
  unordered_index.find_bucket_idx k st = Some idx ->
  unordered_index.map_ st !! idx = Some buck ->
  TransactionTid.is_locked (bucket_entry.version buck) = false ->
  unordered_index.find_in_bucket st buck k = Some e ->
  e <> nullptr ->
  unordered_index.elems st !! e = Some el ->
  unordered_index.valid el = true ->
  let ok := negb (unordered_index.Opacity
                  && TransactionTid.is_locked (internal_elem.version el)) in
  exists st',
    unordered_index.insert_row k vptr false new_elem st = Some ((ok, ok), st')
    /\ unordered_index.map_ st' = unordered_index.map_ st
    /\ unordered_index.elems st' = unordered_index.elems st
    /\ unordered_index.values st' = unordered_index.values st
    /\ unordered_index.rcu st' = unordered_index.rcu st
    /\ (forall key,
          let it' := TransItem.get key (unordered_index.items st') in
          let it := TransItem.get key (unordered_index.items st) in
          TransItem.has_write it' = TransItem.has_write it
          /\ TransItem.wdata it' = TransItem.wdata it
          /\ TransItem.flags it' = TransItem.flags it
          /\ (key <> TransItem.RecordKey e -> it' = it))
    /\ (ok = true ->
        let it' := TransItem.get (TransItem.RecordKey e) (unordered_index.items st') in
        let it := TransItem.get (TransItem.RecordKey e) (unordered_index.items st) in
        TransItem.has_read it' = true
        /\ TransItem.rdata it'
           = if TransItem.has_read it then TransItem.rdata it
             else internal_elem.version el).
Proof.
  intros Hrmw Hidx Hbuck Hfree Hfind Hne Hel Hvalid ok.
  destruct (lock_unlock idx buck st Hbuck Hfree)
    as (st1 & Hlock & Hb1 & He1 & Hv1 & Hi1 & Hr1 & Hunlock).
  unfold unordered_index.insert_row.
  rewrite Hidx. cbn [mbind option_bind]. rewrite Hlock. cbn [mbind option_bind].
  rewrite Hb1. cbn [mbind option_bind].
  unfold unordered_index.find_in_bucket in *. cbn [bucket_entry.chain].
  rewrite He1, Hfind. cbn [mbind option_bind].
  replace (e =? nullptr) with false by (symmetry; now apply Z.eqb_neq).
  cbn [negb]. rewrite Hunlock. cbn [mbind option_bind]. rewrite Hel.
  cbn [mbind option_bind].
  rewrite valid_not_phantom by done. rewrite Hrmw. cbn [andb].
  unfold unordered_index.get_item, unordered_index.sto_item,
    unordered_index.put_item, unordered_index.set_items.
  cbn [unordered_index.items unordered_index.map_ unordered_index.elems
       unordered_index.values unordered_index.rcu].
  rewrite item_get_item, observe_spec. fold ok.
  destruct (unordered_index.Opacity
            && TransactionTid.is_locked (internal_elem.version el)) eqn:Hobs;
    subst ok; cbn [negb].
  - eexists. split; [reflexivity|]. cbn [unordered_index.items unordered_index.map_ unordered_index.elems
         unordered_index.values unordered_index.rcu]; cbv zeta.
    repeat split; try done.
    + destruct (decide (key = TransItem.RecordKey e)) as [->|Hk].
      * now rewrite item_get_item.
      * now rewrite item_get_item_ne.
    + destruct (decide (key = TransItem.RecordKey e)) as [->|Hk].
      * now rewrite item_get_item.
      * now rewrite item_get_item_ne.
    + destruct (decide (key = TransItem.RecordKey e)) as [->|Hk].
      * now rewrite item_get_item.
      * now rewrite item_get_item_ne.
    + intros Hk. now rewrite item_get_item_ne.
  - eexists. split; [reflexivity|]. cbn [unordered_index.items unordered_index.map_ unordered_index.elems
         unordered_index.values unordered_index.rcu]; cbv zeta.
    assert (Hkey : TransItem.key
                     (TransItem.get (TransItem.RecordKey e) (unordered_index.items st))
                   = TransItem.RecordKey e) by apply item_get_key.
    split; [done|]. split; [done|]. split; [done|]. split; [done|]. split.
    + intros key. destruct (decide (key = TransItem.RecordKey e)) as [->|Hk].
      * rewrite item_get_put by (cbn; exact Hkey). cbn. repeat split; done.
      * rewrite item_get_put_ne by (cbn; rewrite Hkey; done).
        rewrite item_get_item_ne by done. repeat split; done.
    + intros _. rewrite item_get_put by (cbn; exact Hkey). cbn. done.
Qed.

(** C4.  A node whose version carries the invalid bit and whose item in the
    running transaction has no insert flag is a phantom: [select_row],
    [delete_row] and [insert_row] on its key all return [ok = false]
    ([insert_row] once it holds the bucket lock, which it takes first). *)
Theorem phantom_record_aborts
  {P : unordered_index.params} (k : unordered_index.K)
  (for_update overwrite : bool) (vptr new_elem : Z)
  (idx : nat) (buck : bucket_entry.t) (e : Z)
  (el : internal_elem.t unordered_index.K unordered_index.V)
  (st : unordered_index.state) :
  unordered_index.find_bucket_idx k st = Some idx ->
  unordered_index.map_ st !! idx = Some buck ->
  unordered_index.find_in_bucket st buck k = Some e ->
  e <> nullptr ->
  unordered_index.elems st !! e = Some el ->
  unordered_index.valid el = false ->
  unordered_index.has_insert
    (TransItem.get (TransItem.RecordKey e) (unordered_index.items st)) = false ->
  fst <$> unordered_index.select_row k for_update st
  = Some (false, false, 0, nullptr)
  /\ fst <$> unordered_index.delete_row k st = Some (false, false)
  /\ (TransactionTid.is_locked (bucket_entry.version buck) = false ->
      fst <$> unordered_index.insert_row k vptr overwrite new_elem st
      = Some (false, false)).
Proof.
  intros Hidx Hbuck Hfind Hne Hel Hinv Hins.
  assert (Hph : forall its,
             its = unordered_index.items st ->
             unordered_index.is_phantom el
               (TransItem.get (TransItem.RecordKey e)
                  (TransItem.item (TransItem.RecordKey e) its)) = true).
  { intros its ->. rewrite item_get_item. unfold unordered_index.is_phantom.
    now rewrite Hinv, Hins. }
  assert (He0 : negb (e =? nullptr) = true)
    by (apply negb_true_iff; now apply Z.eqb_neq).
  repeat split.
  - unfold unordered_index.select_row.
    rewrite Hidx. cbn [mbind option_bind]. rewrite Hbuck. cbn [mbind option_bind].
    rewrite Hfind. cbn [mbind option_bind]. rewrite He0, Hel.
    cbn [mbind option_bind].
    unfold unordered_index.get_item, unordered_index.sto_item,
      unordered_index.set_items. cbn [unordered_index.items].
    now rewrite Hph.
  - unfold unordered_index.delete_row.
    rewrite Hidx. cbn [mbind option_bind]. rewrite Hbuck. cbn [mbind option_bind].
    rewrite Hfind. cbn [mbind option_bind]. rewrite He0, Hel.
    cbn [mbind option_bind].
    unfold unordered_index.get_item, unordered_index.sto_item,
      unordered_index.set_items. cbn [unordered_index.items].
    now rewrite Hph.
  - intros Hfree.
    destruct (lock_unlock idx buck st Hbuck Hfree)
      as (st1 & Hlock & Hb1 & He1 & Hv1 & Hi1 & Hr1 & Hunlock).
    unfold unordered_index.insert_row.
    rewrite Hidx. cbn [mbind option_bind]. rewrite Hlock. cbn [mbind option_bind].
    rewrite Hb1. cbn [mbind option_bind].
    unfold unordered_index.find_in_bucket in *. cbn [bucket_entry.chain].
    rewrite He1, Hfind. cbn [mbind option_bind].
    rewrite He0, Hunlock. cbn [mbind option_bind]. rewrite Hel.
    cbn [mbind option_bind].
    unfold unordered_index.get_item, unordered_index.sto_item,
      unordered_index.set_items. cbn [unordered_index.items].
    now rewrite Hph.
Qed.

Section InsertFacts.
Import unordered_index.
Context {P : params}.

Lemma new_elem_invalid (k : K) (v : V) :
  valid (internal_elem.mk k (Z.lor initialized_tid invalid_bit) v false) = false.
Proof.
  unfold valid. cbn [internal_elem.version]. now rewrite land_lor_same.
Qed.

Lemma has_insert_add_flags (it : TransItem.t) :
  has_insert (TransItem.add_flags insert_bit it) = true.
Proof.
  unfold has_insert, TransItem.add_flags. cbn [TransItem.flags].
  now rewrite land_lor_same.
Qed.

(** The absent branch of [insert_row], up to the release of the bucket. *)
Lemma insert_absent_table (k : K) (vptr new_elem : Z) (idx : nat)
  (buck : bucket_entry.t) (v : V) (st : state) :
  map_ st !! idx = Some buck ->
  TransactionTid.is_locked (bucket_entry.version buck) = false ->
  new_elem <> nullptr -> elems st !! new_elem = None ->
  deref_or_default st vptr = Some v ->
  let locked := Z.lor (bucket_entry.version buck) TransactionTid.lock_bit in
  let st1 := set_bucket idx (bucket_entry.mk (bucket_entry.chain buck) locked) st in
  let st2 :=
    set_bucket idx
      (bucket_entry.mk (new_elem :: bucket_entry.chain buck)
         (TransactionTid.inc_nonopaque_version locked))
      (set_elems (<[new_elem := internal_elem.mk k
                                  (Z.lor initialized_tid invalid_bit) v false]>
                    (elems st)) st) in
  lock idx st = Some st1
  /\ insert_in_bucket idx k vptr false new_elem st1 = Some st2
  /\ map_ st2 !! idx
     = Some (bucket_entry.mk (new_elem :: bucket_entry.chain buck)
               (TransactionTid.inc_nonopaque_version locked))
  /\ unlock idx st2
     = Some (set_bucket idx
               (bucket_entry.mk (new_elem :: bucket_entry.chain buck)
                  (TransactionTid.unlock
                     (TransactionTid.inc_nonopaque_version locked)))
               (set_elems (<[new_elem := internal_elem.mk k
                                  (Z.lor initialized_tid invalid_bit) v false]>
                             (elems st)) st)).
Proof.
  intros Hb Hfree Hnz Hfresh Hv locked st1 st2.
  assert (Hlt : (idx < length (map_ st))%nat) by now apply lookup_lt_Some in Hb.
  split; [exact (lock_spec idx buck st Hb Hfree)|].
  assert (Hb1 : map_ st1 !! idx
                = Some (bucket_entry.mk (bucket_entry.chain buck) locked))
    by exact (set_bucket_lookup idx _ buck st Hb).
  assert (Hb2 : map_ st2 !! idx
                = Some (bucket_entry.mk (new_elem :: bucket_entry.chain buck)
                          (TransactionTid.inc_nonopaque_version locked))).
  { subst st2. unfold set_bucket, set_map, set_elems. cbn [map_].
    now apply list_lookup_insert_eq. }
  split; [|split; [exact Hb2|]].
  - unfold insert_in_bucket. rewrite Hb1. cbn [mbind option_bind bucket_entry.version].
    assert (Hl : TransactionTid.is_locked locked = true).
    { unfold TransactionTid.is_locked, locked. now rewrite land_lor_same. }
    rewrite Hl. cbn [negb].
    replace (new_elem =? nullptr) with false by (symmetry; now apply Z.eqb_neq).
    cbn [orb]. subst st1. unfold set_bucket, set_map. cbn [elems].
    rewrite bool_decide_eq_false_2 by (rewrite Hfresh; now intros [? [=]]).
    unfold deref_or_default in *. cbn [values]. rewrite Hv.
    cbn [mbind option_bind bucket_entry.chain]. f_equal.
    subst st2. unfold set_bucket, set_map, set_elems. cbn [map_ elems values items rcu].
    now rewrite list_insert_insert_eq.
  - unfold unlock. rewrite Hb2. cbn [mbind option_bind]. f_equal.
    subst st2. cbn [bucket_entry.chain bucket_entry.version].
    now rewrite set_bucket_twice.
Qed.



(** The items after the absent branch of [insert_row]: the bucket's item
    with its observation replaced, the new node's item with the staged
    value and the insert flag. *)
Lemma insert_row_absent_result (k : K) (vptr new_elem : Z) (overwrite : bool)
  (idx : nat) (buck : bucket_entry.t) (v : V) (st : state) :
  find_bucket_idx k st = Some idx ->
  map_ st !! idx = Some buck ->
  find_in_bucket st buck k = Some nullptr ->
  TransactionTid.is_locked (bucket_entry.version buck) = false ->
  new_elem <> nullptr -> elems st !! new_elem = None ->
  deref_or_default st vptr = Some v ->
  let v1 :=
    TransactionTid.unlock
      (TransactionTid.inc_nonopaque_version
         (Z.lor (bucket_entry.version buck) TransactionTid.lock_bit)) in
  let b := TransItem.get (TransItem.TaggedKey idx) (items st) in
  let its1 := TransItem.item (TransItem.TaggedKey idx) (items st) in
  let its2 :=
    if TransItem.has_read b
    then TransItem.put (TransItem.update_read (bucket_entry.version buck) v1 b) its1
    else its1 in
  insert_row k vptr overwrite new_elem st
  = Some ((true, false),
          mkState
            (<[idx := bucket_entry.mk (new_elem :: bucket_entry.chain buck) v1]>
               (map_ st))
            (<[new_elem := internal_elem.mk k (Z.lor initialized_tid invalid_bit)
                             v false]> (elems st))
            (values st)
            (TransItem.put
               (TransItem.add_flags insert_bit
                  (TransItem.add_write vptr
                     (TransItem.get (TransItem.RecordKey new_elem) its2)))
               (TransItem.item (TransItem.RecordKey new_elem) its2))
            (rcu st)).
Proof.
  intros Hidx Hbuck Hfind Hfree Hnz Hfresh Hv v1 b its1 its2.
  destruct (insert_absent_table k vptr new_elem idx buck v st
              Hbuck Hfree Hnz Hfresh Hv) as (Hlock & Hins & Hb2 & Hunlock).
  assert (Hun0 : TransactionTid.unlocked
                   (Z.lor (bucket_entry.version buck) TransactionTid.lock_bit)
                 = bucket_entry.version buck).
  { unfold TransactionTid.unlocked. apply ldiff_lor_cancel.
    unfold TransactionTid.is_locked in Hfree.
    now apply negb_false_iff, Z.eqb_eq in Hfree. }
  unfold insert_row.
  rewrite Hidx. cbn [mbind option_bind]. rewrite Hlock. cbn [mbind option_bind].
  rewrite (set_bucket_lookup idx _ buck st Hbuck). cbn [mbind option_bind].
  unfold find_in_bucket in *.
  cbn [bucket_entry.chain bucket_entry.version].
  rewrite elems_set_bucket, Hfind. cbn [mbind option_bind].
  change (nullptr =? nullptr) with true. cbn [negb].
  rewrite Hins. cbn [mbind option_bind]. rewrite Hb2. cbn [mbind option_bind].
  cbn [bucket_entry.chain bucket_entry.version head].
  cbn [mbind option_bind]. rewrite Hunlock. cbn [mbind option_bind].
  rewrite Hun0.
  change (TransactionTid.unlocked
            (TransactionTid.inc_nonopaque_version
               (Z.lor (bucket_entry.version buck) TransactionTid.lock_bit)))
    with v1.
  fold v1.
  unfold get_item, sto_item, put_item, set_items, set_bucket, set_map, set_elems,
    make_bucket_key.
  cbn [items map_ elems values rcu].
  rewrite item_get_item. fold b. fold its1. subst its2.
  destruct (TransItem.has_read b); cbn [items]; rewrite item_get_item; reflexivity.
Qed.

End InsertFacts.


Section ReadMyWriteFacts.
Import unordered_index.
Context {P : params}.

Lemma find_bucket_idx_length (k : K) (st st' : state) :
  length (map_ st') = length (map_ st) ->
  find_bucket_idx k st' = find_bucket_idx k st.
Proof. intros H. unfold find_bucket_idx. now rewrite H. Qed.

(** A walk that ends never meets an address no node occupies. *)
Lemma find_in_chain_fresh (h : gmap Z (internal_elem.t K V)) (c : list Z) (k : K)
  (r new_elem : Z) (el : internal_elem.t K V) :
  h !! new_elem = None ->
  find_in_chain h c k = Some r ->
  find_in_chain (<[new_elem := el]> h) c k = Some r.
Proof.
  intros Hfresh. induction c as [|curr rest IH]; [done|]. cbn.
  destruct (h !! curr) as [el'|] eqn:E; [|done]. cbn.
  rewrite lookup_insert_ne by congruence. rewrite E. cbn.
  destruct (bool_decide (internal_elem.key el' = k)); [done|]. apply IH.
Qed.

Lemma find_in_chain_none_allocated (h : gmap Z (internal_elem.t K V))
  (c : list Z) (k : K) :
  h !! nullptr = None ->
  find_in_chain h c k = Some nullptr ->
  forall e, e ∈ c -> is_Some (h !! e).
Proof.
  intros Hnull. induction c as [|curr rest IH]; cbn.
  - intros _ e He. now apply elem_of_nil in He.
  - destruct (h !! curr) as [el'|] eqn:E; [|done]. cbn.
    destruct (bool_decide (internal_elem.key el' = k)).
    + intros [= ->]. congruence.
    + intros Hrest e He. apply elem_of_cons in He as [->|He]; [eauto|].
      now apply IH.
Qed.

Lemma select_row_absent (k : K) (for_update : bool) (idx : nat)
  (buck : bucket_entry.t) (st : state) :
  find_bucket_idx k st = Some idx ->
  map_ st !! idx = Some buck ->
  find_in_bucket st buck k = Some nullptr ->
  Opacity && TransactionTid.is_locked (bucket_entry.version buck) = false ->
  exists item',
    select_row k for_update st
    = Some ((true, false, 0, nullptr),
            set_items (TransItem.put item'
                         (TransItem.item (TransItem.TaggedKey idx) (items st))) st)
    /\ TransItem.key item' = TransItem.TaggedKey idx.
Proof.
  intros Hidx Hbuck Hfind Hobs. unfold select_row.
  rewrite Hidx. cbn [mbind option_bind]. rewrite Hbuck. cbn [mbind option_bind].
  rewrite Hfind. cbn [mbind option_bind].
  change (nullptr =? nullptr) with true. cbn [negb].
  unfold get_item, sto_item, put_item, set_items, make_bucket_key.
  cbn [items map_ elems values rcu].
  rewrite observe_spec, Hobs. eexists. split; [reflexivity|].
  cbn. rewrite item_get_item. apply item_get_key.
Qed.

(** In read-my-writes mode a select of a key the transaction wrote is
    answered from the staged write: the pointer returned is [&w->value] for
    the staged pointer [w] taken as the address of a node. *)
Lemma select_row_own_write (k : K) (for_update : bool) (idx : nat)
  (buck : bucket_entry.t) (e : Z) (el : internal_elem.t K V) (st : state) :
  ReadMyWrite = true ->
  find_bucket_idx k st = Some idx ->
  map_ st !! idx = Some buck ->
  find_in_bucket st buck k = Some e -> e <> nullptr ->
  elems st !! e = Some el ->
  let item := TransItem.get (TransItem.RecordKey e) (items st) in
  is_phantom el item = false -> has_delete item = false ->
  TransItem.has_write item = true ->
  select_row k for_update st
  = Some ((true, true, e, value_ptr (TransItem.wdata item)),
          sto_item (TransItem.RecordKey e) st).
Proof.
  intros Hrmw Hidx Hbuck Hfind Hne Hel item Hph Hdel Hw. unfold select_row.
  rewrite Hidx. cbn [mbind option_bind]. rewrite Hbuck. cbn [mbind option_bind].
  rewrite Hfind. cbn [mbind option_bind].
  replace (e =? nullptr) with false by (symmetry; now apply Z.eqb_neq).
  cbn [negb]. rewrite Hel. cbn [mbind option_bind].
  unfold get_item, sto_item, set_items. cbn [items].
  rewrite item_get_item. fold item. rewrite Hph, Hrmw, Hdel, Hw. reflexivity.
Qed.

Lemma has_flags_cleared (it : TransItem.t) :
  let it' := TransItem.clear_flags (Z.lor insert_bit delete_bit) it in
  has_insert it' = false /\ has_delete it' = false.
Proof.
  cbv zeta. unfold has_insert, has_delete, TransItem.clear_flags.
  cbn [TransItem.flags]. now rewrite land_ldiff_lor_l, land_ldiff_lor_r.
Qed.

(** Deleting, in read-my-writes mode, the node this transaction inserted:
    the node at the head of its chain is unlinked at once and handed to the
    deferred deletion, its item loses its observation, its write and both
    flags, and the bucket's version is observed. *)
Lemma delete_row_own_insert (k : K) (idx : nat) (e : Z) (c : list Z) (vb : Z)
  (el : internal_elem.t K V) (st : state) :
  ReadMyWrite = true ->
  find_bucket_idx k st = Some idx ->
  map_ st !! idx = Some (bucket_entry.mk (e :: c) vb) ->
  e <> nullptr -> elems st !! e = Some el -> internal_elem.key el = k ->
  valid el = false ->
  has_insert (TransItem.get (TransItem.RecordKey e) (items st)) = true ->
  TransactionTid.is_locked vb = false ->
  exists its',
    delete_row k st
    = Some ((true, true),
            mkState (<[idx := bucket_entry.mk c vb]> (map_ st)) (elems st)
              (values st) its' (rcu st ++ [e]))
    /\ (let it := TransItem.get (TransItem.RecordKey e) its' in
        has_insert it = false /\ has_delete it = false
        /\ TransItem.has_write it = false).
Proof.
  intros Hrmw Hidx Hbuck Hne Hel Hkey Hinv Hins Hfree.
  set (buck := bucket_entry.mk (e :: c) vb) in *.
  destruct (lock_unlock idx buck st Hbuck Hfree)
    as (st1 & Hlock & Hb1 & He1 & Hv1 & Hi1 & Hr1 & Hunlock).
  assert (Hrem : forall its,
             _remove e (set_items its st)
             = Some (mkState (<[idx := bucket_entry.mk c vb]> (map_ st))
                       (elems st) (values st) its (rcu st ++ [e]))).
  { intros its. unfold _remove. cbn [elems set_items]. rewrite Hel.
    cbn [mbind option_bind]. rewrite Hkey.
    rewrite (find_bucket_idx_length k st (set_items its st)) by reflexivity.
    rewrite Hidx. cbn [mbind option_bind].
    rewrite (lock_spec idx buck (set_items its st)) by done.
    cbn [mbind option_bind].
    rewrite (set_bucket_lookup idx _ buck) by done. cbn [mbind option_bind].
    cbn [bucket_entry.chain bucket_entry.version buck unlink].
    rewrite Z.eqb_refl. cbn [mbind option_bind].
    rewrite set_bucket_twice.
    erewrite unlock_spec by (apply (set_bucket_lookup idx _ buck); done).
    cbn [mbind option_bind bucket_entry.chain bucket_entry.version].
    rewrite set_bucket_twice. f_equal.
    unfold set_bucket, set_map, set_rcu, set_items. cbn [map_ elems values items rcu].
    f_equal. f_equal. f_equal. unfold TransactionTid.unlock.
    apply ldiff_lor_cancel. unfold TransactionTid.is_locked in Hfree.
    now apply negb_false_iff, Z.eqb_eq in Hfree. }
  unfold delete_row.
  rewrite Hidx. cbn [mbind option_bind]. rewrite Hbuck. cbn [mbind option_bind].
  unfold find_in_bucket. cbn [bucket_entry.chain buck find_in_chain].
  rewrite Hel. cbn [mbind option_bind].
  rewrite bool_decide_eq_true_2 by done. cbn [mbind option_bind].
  replace (e =? nullptr) with false by (symmetry; now apply Z.eqb_neq).
  cbn [negb]. rewrite Hel. cbn [mbind option_bind].
  unfold get_item, sto_item. cbn [items set_items].
  rewrite item_get_item.
  unfold is_phantom. rewrite Hinv, Hins, Hrmw. cbn [negb andb].
  rewrite Hrem. cbn [mbind option_bind].
  unfold put_item, set_items, make_bucket_key. cbn [items map_ elems values rcu].
  rewrite observe_spec. cbn [bucket_entry.version buck]. rewrite Hfree, andb_false_r.
  eexists. split; [reflexivity|].
  cbv zeta.
  rewrite item_get_put_ne.
  2:{ cbn. rewrite item_get_key. discriminate. }
  rewrite item_get_item_ne by discriminate.
  rewrite item_get_put.
  2:{ cbn. apply item_get_key. }
  pose proof (has_flags_cleared
                (TransItem.remove_write
                   (TransItem.remove_read
                      (TransItem.get (TransItem.RecordKey e) (items st)))))
    as [H1 H2].
  done.
Qed.

End ReadMyWriteFacts.

(** C2.  In read-my-writes mode, inserting a key its bucket does not hold
    and deleting it in the same transaction makes a later select of the key
    report it absent.  The speculative node is unlinked from its chain by
    the delete itself and handed to the deferred deletion, so that at commit
    the chain is the one from before the insert, and the cleanup of the
    node's item, committed or not, has nothing left to remove. *)
Theorem insert_then_delete_leaves_key_absent
  {P : unordered_index.params} (k : unordered_index.K)
  (vptr new_elem : Z) (overwrite for_update : bool)
  (idx : nat) (buck : bucket_entry.t) (v : unordered_index.V)
  (st : unordered_index.state) :
  unordered_index.ReadMyWrite = true ->
  unordered_index.find_bucket_idx k st = Some idx ->
  unordered_index.map_ st !! idx = Some buck ->
  unordered_index.find_in_bucket st buck k = Some nullptr ->
  TransactionTid.is_locked (bucket_entry.version buck) = false ->
  new_elem <> nullptr ->
  unordered_index.elems st !! new_elem = None ->
  unordered_index.elems st !! nullptr = None ->
  unordered_index.deref_or_default st vptr = Some v ->
  exists st1 st2 st3,
    unordered_index.insert_row k vptr overwrite new_elem st
    = Some ((true, false), st1)
    /\ unordered_index.delete_row k st1 = Some ((true, true), st2)
    /\ unordered_index.select_row k for_update st2
       = Some ((true, false, 0, nullptr), st3)
    /\ bucket_entry.chain <$> (unordered_index.map_ st2 !! idx)
       = Some (bucket_entry.chain buck)
    /\ (new_elem ∉ bucket_entry.chain buck)
    /\ unordered_index.rcu st2 = unordered_index.rcu st ++ [new_elem]
    /\ unordered_index.map_ st3 = unordered_index.map_ st2
    /\ forall committed,
         unordered_index.cleanup
           (unordered_index.get_item (TransItem.RecordKey new_elem) st3)
           committed st3
         = Some st3.
Proof.
  intros Hrmw Hidx Hbuck Hfind Hfree Hnz Hfresh Hnull Hv.
  pose proof (insert_row_absent_result k vptr new_elem overwrite idx buck v st
                Hidx Hbuck Hfind Hfree Hnz Hfresh Hv) as Hins.
  cbv zeta in Hins.
  set (v1 := TransactionTid.unlock
               (TransactionTid.inc_nonopaque_version
                  (Z.lor (bucket_entry.version buck) TransactionTid.lock_bit))) in *.
  set (nh := internal_elem.mk k
               (Z.lor unordered_index.initialized_tid unordered_index.invalid_bit)
               v false) in *.
  match type of Hins with _ = Some (_, ?s) => set (st1 := s) in * end.
  assert (Hlt : (idx < length (unordered_index.map_ st))%nat)
    by now apply lookup_lt_Some in Hbuck.
  assert (Hidx1 : unordered_index.find_bucket_idx k st1 = Some idx).
  { rewrite <- Hidx. apply find_bucket_idx_length. subst st1. cbn.
    apply length_insert. }
  assert (Hb1 : unordered_index.map_ st1 !! idx
                = Some (bucket_entry.mk (new_elem :: bucket_entry.chain buck) v1)).
  { subst st1. cbn. now apply list_lookup_insert_eq. }
  assert (Hel1 : unordered_index.elems st1 !! new_elem = Some nh).
  { subst st1. cbn. apply lookup_insert_eq. }
  assert (Hins1 : unordered_index.has_insert
                    (TransItem.get (TransItem.RecordKey new_elem)
                       (unordered_index.items st1)) = true).
  { subst st1. cbn [unordered_index.items].
    rewrite item_get_put by (cbn; apply item_get_key).
    apply has_insert_add_flags. }
  destruct (delete_row_own_insert k idx new_elem (bucket_entry.chain buck) v1 nh st1
              Hrmw Hidx1 Hb1 Hnz Hel1 eq_refl (new_elem_invalid k v) Hins1
              (is_locked_unlock _))
    as (its2 & Hdel & Hf1 & Hf2 & Hf3).
  match type of Hdel with _ = Some (_, ?s) => set (st2 := s) in * end.
  assert (Hb2 : unordered_index.map_ st2 !! idx
                = Some (bucket_entry.mk (bucket_entry.chain buck) v1)).
  { subst st2 st1. cbn. apply list_lookup_insert_eq.
    rewrite length_insert. done. }
  assert (Hidx2 : unordered_index.find_bucket_idx k st2 = Some idx).
  { rewrite <- Hidx. apply find_bucket_idx_length. subst st2 st1. cbn.
    now rewrite !length_insert. }
  assert (Hfind2 : unordered_index.find_in_bucket st2
                     (bucket_entry.mk (bucket_entry.chain buck) v1) k
                   = Some nullptr).
  { unfold unordered_index.find_in_bucket in *. subst st2 st1. cbn.
    now apply find_in_chain_fresh. }
  destruct (select_row_absent k for_update idx _ st2 Hidx2 Hb2 Hfind2)
    as (item' & Hsel & Hkey').
  { cbn. unfold v1. now rewrite is_locked_unlock, andb_false_r. }
  eexists _, _, _. split; [exact Hins|]. split; [exact Hdel|].
  split; [exact Hsel|]. split; [now rewrite Hb2|]. split.
  { intros Hin.
    destruct (find_in_chain_none_allocated _ _ _ Hnull Hfind _ Hin) as [x Hx].
    congruence. }
  split; [reflexivity|]. split; [reflexivity|].
  intros committed. unfold unordered_index.cleanup, unordered_index.get_item.
  cbn [unordered_index.items unordered_index.set_items].
  rewrite item_get_put_ne by (rewrite Hkey'; discriminate).
  rewrite item_get_item_ne by discriminate.
  subst st2. cbn [unordered_index.items].
  cbv zeta in Hf1, Hf2. rewrite Hf1, Hf2. now destruct committed.
Qed.

Section SelectAfterInsert.
Import unordered_index.
Context {P : params}.

Lemma has_delete_add_insert (it : TransItem.t) :
  has_delete (TransItem.add_flags insert_bit it) = has_delete it.
Proof.
  unfold has_delete, TransItem.add_flags. cbn [TransItem.flags].
  f_equal. f_equal. apply Z.bits_inj'. intros n Hn.
  rewrite !Z.land_spec, Z.lor_spec.
  assert (Hd : Z.testbit insert_bit n && Z.testbit delete_bit n = false).
  { rewrite <- Z.land_spec. change (Z.land insert_bit delete_bit) with 0.
    apply Z.bits_0. }
  destruct (Z.testbit (TransItem.flags it) n), (Z.testbit insert_bit n),
    (Z.testbit delete_bit n); done.
Qed.

(** In read-my-writes mode, the select that follows the insert of a key is
    answered from the staged write: it finds the key, and the value pointer
    it returns is the staged pointer moved by the offset of [value] in a
    node, while the inserted value sits in the new node. *)
Lemma select_after_insert_pointer (k : K) (vptr new_elem : Z)
  (overwrite for_update : bool) (idx : nat) (buck : bucket_entry.t) (v : V)
  (st : state) :
  ReadMyWrite = true ->
  find_bucket_idx k st = Some idx ->
  map_ st !! idx = Some buck ->
  find_in_bucket st buck k = Some nullptr ->
  TransactionTid.is_locked (bucket_entry.version buck) = false ->
  new_elem <> nullptr -> elems st !! new_elem = None ->
  deref_or_default st vptr = Some v ->
  has_delete (TransItem.get (TransItem.RecordKey new_elem) (items st)) = false ->
  exists st1 st2,
    insert_row k vptr overwrite new_elem st = Some ((true, false), st1)
    /\ select_row k for_update st1
       = Some ((true, true, new_elem, vptr + value_offset), st2)
    /\ internal_elem.value <$> (elems st2 !! new_elem) = Some v.
Proof.
  intros Hrmw Hidx Hbuck Hfind Hfree Hnz Hfresh Hv Hnd.
  pose proof (insert_row_absent_result k vptr new_elem overwrite idx buck v st
                Hidx Hbuck Hfind Hfree Hnz Hfresh Hv) as Hins.
  cbv zeta in Hins.
  set (v1 := TransactionTid.unlock
               (TransactionTid.inc_nonopaque_version
                  (Z.lor (bucket_entry.version buck) TransactionTid.lock_bit))) in *.
  set (nh := internal_elem.mk k (Z.lor initialized_tid invalid_bit) v false) in *.
  match type of Hins with _ = Some (_, ?s) => set (st1 := s) in * end.
  assert (Hlt : (idx < length (map_ st))%nat) by now apply lookup_lt_Some in Hbuck.
  assert (Hidx1 : find_bucket_idx k st1 = Some idx).
  { rewrite <- Hidx. apply find_bucket_idx_length. subst st1. cbn.
    apply length_insert. }
  assert (Hb1 : map_ st1 !! idx
                = Some (bucket_entry.mk (new_elem :: bucket_entry.chain buck) v1)).
  { subst st1. cbn. now apply list_lookup_insert_eq. }
  assert (Hel1 : elems st1 !! new_elem = Some nh).
  { subst st1. cbn. apply lookup_insert_eq. }
  assert (Hfind1 : find_in_bucket st1
                     (bucket_entry.mk (new_elem :: bucket_entry.chain buck) v1) k
                   = Some new_elem).
  { unfold find_in_bucket. cbn [bucket_entry.chain find_in_chain].
    rewrite Hel1. cbn. now rewrite bool_decide_eq_true_2. }
  set (b := TransItem.get (TransItem.TaggedKey idx) (items st)) in *.
  assert (Hitem : exists it0,
             TransItem.get (TransItem.RecordKey new_elem) (items st1)
             = TransItem.add_flags insert_bit (TransItem.add_write vptr it0)
             /\ has_delete it0 = false).
  { subst st1. cbn [items]. eexists. split.
    - apply item_get_put. cbn. apply item_get_key.
    - destruct (TransItem.has_read b).
      + rewrite item_get_put_ne.
        2:{ unfold TransItem.update_read.
            destruct (_ && _); cbn; subst b; rewrite item_get_key; discriminate. }
        now rewrite item_get_item_ne.
      + now rewrite item_get_item_ne. }
  destruct Hitem as (it0 & Hit & Hd0).
  exists st1. eexists. split; [exact Hins|]. split.
  - rewrite (select_row_own_write k for_update idx _ new_elem nh st1
               Hrmw Hidx1 Hb1 Hfind1 Hnz Hel1).
    + rewrite Hit. reflexivity.
    + rewrite Hit. unfold is_phantom. now rewrite has_insert_add_flags, andb_false_r.
    + rewrite Hit. now rewrite has_delete_add_insert.
    + now rewrite Hit.
  - unfold sto_item, set_items. cbn [elems]. now rewrite Hel1.
Qed.

End SelectAfterInsert.

(** C1, on the code.  Read-my-writes index, empty table, the caller's value
    77 at address 1000: [insert_row(5, 1000)] stores a node at 4096, and the
    [select_row(5)] that follows returns ok and found with the value pointer
    1024, the staged pointer taken for a node and moved to its member
    [value].  No value lives there; the value inserted is read at 1000 and
    in the node, at 4096 + 24. *)
Theorem select_after_insert_returns_shifted_pointer :
  exists st1 st2,
    unordered_index.insert_row (P := uint_index true true) 5 1000 false 4096
      (empty_table true true) = Some ((true, false), st1)
    /\ unordered_index.select_row (P := uint_index true true) 5 false st1
       = Some ((true, true, 4096, 1024), st2)
    /\ unordered_index.read_value (P := uint_index true true) st2 1024 = None
    /\ unordered_index.read_value (P := uint_index true true) st2 1000 = Some 77
    /\ unordered_index.read_value (P := uint_index true true) st2
         (unordered_index.value_ptr (P := uint_index true true) 4096) = Some 77.
Proof.
  destruct (select_after_insert_pointer (P := uint_index true true) 5 1000 4096
              false false 1%nat (bucket_entry.mk [] 0) 77 (empty_table true true))
    as (st1 & st2 & Hins & Hsel & Hval); try done.
  exists st1, st2. split; [exact Hins|]. split; [exact Hsel|].
  vm_compute in Hins. injection Hins as <-.
  vm_compute in Hsel. injection Hsel as <-.
  repeat split; vm_compute; reflexivity.
Qed.

Lemma has_delete_add_flags (it : TransItem.t) :
  unordered_index.has_delete
    (TransItem.add_flags unordered_index.delete_bit it) = true.
Proof.
  unfold unordered_index.has_delete, TransItem.add_flags. cbn [TransItem.flags].
  now rewrite land_lor_same.
Qed.




Lemma insert_row_present_only_observes_witness :
  exists st',
    unordered_index.insert_row (P := uint_index true false) 5 1000 false 8192
      (one_row_table true false 1024 []) = Some ((true, true), st')
    /\ unordered_index.map_ st' = unordered_index.map_ (one_row_table true false 1024 [])
    /\ unordered_index.elems st' = unordered_index.elems (one_row_table true false 1024 []).
Proof.
  destruct (insert_row_present_only_observes (P := uint_index true false) 5 1000 8192
              1%nat (bucket_entry.mk [4096] 0) 4096
              (internal_elem.mk 5 1024 77 false) (one_row_table true false 1024 []))
    as (st' & Hins & Hmap & Hel & _);
    [reflexivity | reflexivity | reflexivity | reflexivity | reflexivity
    | discriminate | reflexivity | reflexivity |].
  exists st'. split; [exact Hins|]. split; [exact Hmap|exact Hel].
Defined.

Lemma phantom_record_aborts_witness :
  fst <$> unordered_index.select_row (P := uint_index true true) 5 false
            (one_row_table true true 1152 [])
  = Some (false, false, 0, nullptr)
  /\ fst <$> unordered_index.delete_row (P := uint_index true true) 5
               (one_row_table true true 1152 [])
     = Some (false, false)
  /\ fst <$> unordered_index.insert_row (P := uint_index true true) 5 1000 true 8192
               (one_row_table true true 1152 [])
     = Some (false, false).
Proof.
  destruct (phantom_record_aborts (P := uint_index true true) 5 false true 1000 8192
              1%nat (bucket_entry.mk [4096] 0) 4096
              (internal_elem.mk 5 1152 77 false) (one_row_table true true 1152 []))
    as (Hsel & Hdel & Hins);
    [reflexivity | reflexivity | reflexivity | discriminate | reflexivity
    | reflexivity | reflexivity |].
  split; [exact Hsel|]. split; [exact Hdel|]. apply Hins. reflexivity.
Defined.


Lemma insert_then_delete_leaves_key_absent_witness :
  exists st1 st2 st3,
    unordered_index.insert_row (P := uint_index true true) 5 1000 false 4096
      (empty_table true true) = Some ((true, false), st1)
    /\ unordered_index.delete_row (P := uint_index true true) 5 st1
       = Some ((true, true), st2)
    /\ unordered_index.select_row (P := uint_index true true) 5 false st2
       = Some ((true, false, 0, nullptr), st3)
    /\ bucket_entry.chain <$> (unordered_index.map_ st2 !! 1%nat) = Some []
    /\ unordered_index.rcu st2 = [4096].
Proof.
  destruct (insert_then_delete_leaves_key_absent (P := uint_index true true) 5 1000
              4096 false false 1%nat (bucket_entry.mk [] 0) 77 (empty_table true true))
    as (st1 & st2 & st3 & Hins & Hdel & Hsel & Hchain & _ & Hrcu & _);
    [reflexivity | reflexivity | reflexivity | reflexivity | reflexivity
    | discriminate | reflexivity | reflexivity | reflexivity |].
  exists st1, st2, st3. repeat split; assumption.
Defined.

(** ** The order on keys *)

Section KeyOrder.
Import ordered_index.

Lemma byte_val_bound (b : byte) : 0 <= byte_val b < 256.
Proof.
  unfold byte_val. pose proof (Byte.to_N_bounded b). lia.
Qed.

Lemma byte_val_inj (x y : byte) : byte_val x = byte_val y -> x = y.
Proof.
  unfold byte_val. intros H. apply N2Z.inj in H.
  pose proof (Byte.of_to_N x) as Hx. rewrite H, Byte.of_to_N in Hx.
  now injection Hx.
Qed.

Lemma compare_cons (x y : byte) (a b : Str) :
  compare (x :: a) (y :: b)
  = if byte_val x <? byte_val y then -1
    else if byte_val y <? byte_val x then 1
    else compare a b.
Proof.
  unfold compare. cbn [length Nat.min memcmp].
  destruct (byte_val x <? byte_val y); [done|].
  destruct (byte_val y <? byte_val x); [done|].
  destruct (memcmp a b _ =? 0); [lia|done].
Qed.

Lemma lex_range (a b : Str) : lex a b = -1 \/ lex a b = 0 \/ lex a b = 1.
Proof.
  revert b. induction a as [|x a IH]; intros [|y b]; cbn; auto.
  destruct (byte_val x <? byte_val y); auto.
  destruct (byte_val y <? byte_val x); auto.
Qed.

(** [compare] and [lex] have the same sign. *)
Lemma compare_lex (a b : Str) :
  (compare a b < 0 <-> lex a b < 0) /\ (compare a b = 0 <-> lex a b = 0).
Proof.
  revert b. induction a as [|x a IH]; intros [|y b].
  - cbn. lia.
  - unfold compare. cbn. lia.
  - unfold compare. cbn. lia.
  - rewrite compare_cons. cbn [lex].
    destruct (byte_val x <? byte_val y); [lia|].
    destruct (byte_val y <? byte_val x); [lia|]. apply IH.
Qed.

Lemma str_lt_lex (a b : Str) : str_lt a b = true <-> lex a b < 0.
Proof.
  unfold str_lt. rewrite Z.ltb_lt. apply compare_lex.
Qed.

Lemma str_le_lex (a b : Str) : str_le a b = true <-> lex a b <= 0.
Proof.
  unfold str_le. rewrite Z.leb_le.
  destruct (compare_lex a b) as [H1 H2]. lia.
Qed.

Lemma lex_antisym (a b : Str) : lex b a = - lex a b.
Proof.
  revert b. induction a as [|x a IH]; intros [|y b]; cbn; try done.
  destruct (Z.ltb_spec (byte_val x) (byte_val y)),
    (Z.ltb_spec (byte_val y) (byte_val x)); try lia. apply IH.
Qed.

Lemma lex_eq (a b : Str) : lex a b = 0 -> a = b.
Proof.
  revert b. induction a as [|x a IH]; intros [|y b]; cbn; try done.
  destruct (Z.ltb_spec (byte_val x) (byte_val y)); [done|].
  destruct (Z.ltb_spec (byte_val y) (byte_val x)); [done|].
  intros Hz. f_equal; [apply byte_val_inj; lia|now apply IH].
Qed.

Lemma lex_refl (a : Str) : lex a a = 0.
Proof.
  induction a as [|x a IH]; [done|]. cbn. now rewrite Z.ltb_irrefl.
Qed.

Lemma lex_trans (a b c : Str) : lex a b < 0 -> lex b c < 0 -> lex a c < 0.
Proof.
  revert b c. induction a as [|x a IH]; intros [|y b] [|z c]; cbn; try lia.
  destruct (Z.ltb_spec (byte_val x) (byte_val y)),
    (Z.ltb_spec (byte_val y) (byte_val z)),
    (Z.ltb_spec (byte_val x) (byte_val z)); try lia;
    destruct (Z.ltb_spec (byte_val y) (byte_val x)),
      (Z.ltb_spec (byte_val z) (byte_val y)),
      (Z.ltb_spec (byte_val z) (byte_val x)); try lia.
  apply IH.
Qed.

Lemma lex_le_lt_trans (a b c : Str) :
  lex a b <= 0 -> lex b c < 0 -> lex a c < 0.
Proof.
  intros H1 H2. destruct (lex_range a b) as [H|[H|H]]; try lia.
  - apply (lex_trans a b c); lia.
  - apply lex_eq in H. now subst.
Qed.

Lemma lex_lt_le_trans (a b c : Str) :
  lex a b < 0 -> lex b c <= 0 -> lex a c < 0.
Proof.
  intros H1 H2. destruct (lex_range b c) as [H|[H|H]]; try lia.
  - apply (lex_trans a b c); lia.
  - apply lex_eq in H. now subst.
Qed.

Lemma lex_app (p a b : Str) : lex (p ++ a) (p ++ b) = lex a b.
Proof.
  induction p as [|x p IH]; [done|]. cbn. now rewrite Z.ltb_irrefl.
Qed.

Lemma be_value_bound (n : nat) (s : Str) :
  0 <= be_value n s < 256 ^ Z.of_nat n.
Proof.
  revert s. induction n as [|n IH]; intros s; [cbn; lia|].
  cbn [be_value]. rewrite Nat2Z.inj_succ, Z.pow_succ_r by lia.
  destruct s as [|x s]; [lia|].
  pose proof (byte_val_bound x). pose proof (IH s). nia.
Qed.

(** Slices compare as the strings they are cut from. *)
Lemma be_value_lt_lex (n : nat) (r s : Str) :
  be_value n r < be_value n s -> lex r s < 0.
Proof.
  revert r s. induction n as [|n IH]; intros r s; [cbn; lia|].
  cbn [be_value]. destruct r as [|x r], s as [|y s]; cbn [lex]; try lia.
  - pose proof (byte_val_bound x). pose proof (be_value_bound n r). nia.
  - pose proof (be_value_bound n r). pose proof (be_value_bound n s).
    pose proof (byte_val_bound x). pose proof (byte_val_bound y).
    intros Hlt.
    destruct (Z.ltb_spec (byte_val x) (byte_val y)); [lia|].
    destruct (Z.ltb_spec (byte_val y) (byte_val x)); [nia|].
    apply IH. assert (byte_val x = byte_val y) as Heq by lia.
    rewrite Heq in Hlt. lia.
Qed.

Lemma lex_le_be_value (n : nat) (r s : Str) :
  lex r s <= 0 -> be_value n r <= be_value n s.
Proof.
  intros Hle. destruct (Z.le_gt_cases (be_value n r) (be_value n s)) as [|Hgt];
    [done|].
  apply be_value_lt_lex in Hgt. rewrite (lex_antisym s r) in Hle. lia.
Qed.

Lemma be_value_take (n : nat) (s : Str) : be_value n (take n s) = be_value n s.
Proof.
  revert s. induction n as [|n IH]; intros s; [done|].
  destruct s as [|x s]; [done|]. cbn. now rewrite IH.
Qed.

Lemma make_comparable_slice (s : Str) :
  make_comparable s (Nat.min (length s) 8) = be_value 8 s.
Proof.
  unfold make_comparable.
  destruct (decide (length s <= 8)%nat) as [Hle|Hgt].
  - rewrite Nat.min_l by done. now rewrite firstn_all.
  - rewrite Nat.min_r by lia. apply be_value_take.
Qed.

Lemma memcmp_zero_take (a b : Str) (n : nat) :
  memcmp a b n = 0 -> (n <= length a)%nat -> (n <= length b)%nat ->
  take n a = take n b.
Proof.
  revert a b. induction n as [|n IH]; intros a b; [done|].
  destruct a as [|x a], b as [|y b]; cbn [memcmp length take]; try lia.
  destruct (Z.ltb_spec (byte_val x) (byte_val y)); [done|].
  destruct (Z.ltb_spec (byte_val y) (byte_val x)); [done|].
  intros Hz Ha Hb. f_equal; [apply byte_val_inj; lia|].
  apply IH; [done|lia|lia].
Qed.

(** A key that starts as [b] does, where [a] is larger within the first
    [n] bytes, lies before [a]. *)
Lemma memcmp_pos_lex (a b k : Str) (n : nat) :
  0 < memcmp a b n -> take n k = take n b -> (n <= length b)%nat ->
  lex k a < 0.
Proof.
  revert a b k. induction n as [|n IH]; intros a b k; [cbn; intros; lia|].
  destruct a as [|x a], b as [|y b]; cbn [memcmp length]; try (intros; lia).
  destruct k as [|z k]; [cbn; discriminate|].
  cbn [take lex]. intros Hpos [= -> Htk] Hlen.
  destruct (Z.ltb_spec (byte_val x) (byte_val y)); [lia|].
  destruct (Z.ltb_spec (byte_val y) (byte_val x)); [lia|].
  apply (IH a b k); [done|done|lia].
Qed.

End KeyOrder.

(** ** The range scanner *)

Section ScannerFacts.
Import ordered_index.
Import range_scanner.

Lemma sorted_below_last {A : Type} (R : relation A) (l : list A) (z : A) :
  StronglySorted R l -> last l = Some z ->
  forall x, x ∈ l -> x = z \/ R x z.
Proof.
  induction 1 as [|a l Hs IH Hall]; [done|].
  intros Hlast x Hx. destruct l as [|b l].
  - cbn in Hlast. injection Hlast as <-. apply list_elem_of_singleton in Hx. auto.
  - change (last (a :: b :: l)) with (last (b :: l)) in Hlast.
    apply elem_of_cons in Hx as [->|Hx].
    + right. rewrite Forall_forall in Hall. apply Hall.
      now apply last_Some_elem_of in Hlast.
    + now apply IH.
Qed.

(** The test made on entering a leaf is sound: when it leaves the
    comparisons off, every key of the leaf lies before the boundary. *)
Lemma check_forward_sound (l : leaf) (sc : t) :
  leaf_wf l -> StronglySorted key_lt (entries l) ->
  exists sc',
    check false l (entry_key l) sc = Some sc'
    /\ boundary_ sc' = boundary_ sc
    /\ scan_succeeded_ sc' = scan_succeeded_ sc
    /\ (boundary_compar_ sc' = false ->
        Forall (fun en : Z * Str * Z => lex en.1.2 (boundary_ sc) < 0) (entries l)).
Proof.
  intros (Hne & Hpl & Hents) Hsorted. unfold check. cbn [negb].
  set (b := boundary_ sc) in *. set (pl := prefix_length (entry_key l)) in *.
  set (full := full_string (entry_key l)) in *.
  set (n := Nat.min (length b) pl) in *.
  set (cmp := memcmp b full n) in *.
  destruct ((cmp <? 0) || ((cmp =? 0) && (length b <=? pl)%nat)) eqn:Hfirst.
  { eexists. split; [reflexivity|]. cbn. repeat split. done. }
  apply orb_false_iff in Hfirst as [Hnlt Hsecond].
  apply Z.ltb_ge in Hnlt.
  destruct (Z.eqb_spec cmp 0) as [Hz|Hnz].
  - (* the boundary continues the leaf's prefix *)
    cbn [andb] in Hsecond. apply Nat.leb_gt in Hsecond.
    assert (Hn : n = pl) by (subst n; lia).
    destruct (last (entries l)) as [enl|] eqn:Hlast.
    2:{ apply last_None in Hlast. done. }
    unfold last_ikey. rewrite Hlast. cbn [fmap option_fmap option_map].
    eexists. split; [reflexivity|]. cbn [boundary_ scan_succeeded_ boundary_compar_
      set_compar]. split; [done|]. split; [done|].
    intros Hoff. apply Z.leb_gt in Hoff.
    assert (Hb : b = leaf_prefix l ++ drop pl b).
    { unfold leaf_prefix. fold pl full.
      rewrite <- (memcmp_zero_take b full pl); [now rewrite take_drop| |lia|done].
      now rewrite <- Hn. }
    replace (Nat.min (length b - pl) 8) with (Nat.min (length (drop pl b)) 8) in Hoff
      by now rewrite length_drop.
    rewrite make_comparable_slice in Hoff.
    rewrite Forall_forall in Hents |- *.
    intros en Hen.
    destruct (Hents _ Hen) as (r & Hk & Hik).
    destruct (Hents enl) as (rl & Hkl & Hikl).
    { now apply last_Some_elem_of in Hlast. }
    rewrite make_comparable_slice in Hik, Hikl.
    assert (Hle : lex r rl <= 0).
    { destruct (sorted_below_last key_lt (entries l) enl Hsorted Hlast en)
        as [->|Hlt]; [exact Hen| |].
      - rewrite Hk in Hkl. apply app_inv_head in Hkl. subst. now rewrite lex_refl.
      - unfold key_lt in Hlt. rewrite Hk, Hkl, lex_app in Hlt. lia. }
    apply (lex_le_be_value 8) in Hle.
    rewrite Hk, Hb, lex_app. apply (be_value_lt_lex 8). lia.
  - (* the boundary lies beyond every key with the leaf's prefix *)
    eexists. split; [reflexivity|]. split; [done|]. split; [done|].
    intros _. rewrite Forall_forall in Hents |- *.
    intros en Hen. destruct (Hents _ Hen) as (r & Hk & _).
    apply (memcmp_pos_lex b full en.1.2 n); [fold cmp; lia| |subst n; lia].
    rewrite Hk. unfold leaf_prefix. fold pl full.
    rewrite take_app_le by (rewrite length_take; subst n; lia).
    rewrite take_take. f_equal. subst n. lia.
Qed.

End ScannerFacts.

(** A forward scan over callbacks that accept every record: what the value
    callback adds to a log [m] of the state, the scan adds for the entries
    in range, in order. *)
Section ForwardScan.
Import ordered_index.
Import range_scanner.

Context {S X : Type}.
Variable node_callback_ : nat -> Z -> S -> bool * S.
Variable value_callback_ : Str -> Z -> S -> option (bool * bool * S).
Variable Inv : S -> Prop.
Variable m : S -> list X.
Variable d : Z * Str * Z -> X.
Variable ents : list (Z * Str * Z).
Variables begin end_ : Str.

Hypothesis node_ok :
  forall n v s, Inv s ->
    exists s', node_callback_ n v s = (true, s') /\ Inv s' /\ m s' = m s.
Hypothesis value_ok :
  forall en s, en ∈ ents -> Inv s ->
    exists s', value_callback_ en.1.2 en.2 s = Some (true, true, s')
               /\ Inv s' /\ m s' = m s ++ [d en].

Let ranged (ens : list (Z * Str * Z)) : list X :=
  d <$> filter (fun en => in_range begin end_ en = true) ens.

Lemma none_in_range_after (en : Z * Str * Z) (ens : list (Z * Str * Z)) :
  str_le end_ en.1.2 = true -> Forall (key_lt en) ens ->
  filter (fun en' => in_range begin end_ en' = true) ens = [].
Proof.
  intros Hend Hall. apply str_le_lex in Hend.
  induction Hall as [|en' ens Hlt Hall IH]; [done|].
  rewrite filter_cons_False; [exact IH|].
  unfold in_range. intros Hin. apply andb_true_iff in Hin as [_ Hin].
  apply str_lt_lex in Hin. unfold key_lt in Hlt.
  pose proof (lex_le_lt_trans _ _ _ Hend Hlt) as H1.
  pose proof (lex_trans _ _ _ H1 Hin) as H2. rewrite lex_refl in H2. lia.
Qed.

Lemma scan_values_spec (ens : list (Z * Str * Z)) (sc : t) (s : S) :
  ens ⊆ ents -> StronglySorted key_lt ens ->
  boundary_ sc = end_ ->
  (boundary_compar_ sc = false ->
   Forall (fun en : Z * Str * Z => lex en.1.2 end_ < 0) ens) ->
  Inv s ->
  exists go s',
    scan_values value_callback_ false begin ens sc s = Some (go, sc, s')
    /\ Inv s' /\ m s' = m s ++ ranged ens
    /\ (go = false -> exists en, en ∈ ens /\ str_le end_ en.1.2 = true).
Proof.
  intros Hsub Hsorted Hb. revert s.
  induction Hsorted as [|en ens Hs IH Hall]; intros s Hoff Hinv.
  - exists true, s. cbn. rewrite app_nil_r. repeat split; done.
  - destruct en as [[ik k] e] eqn:Een. cbn [scan_values].
    assert (Hsub' : ens ⊆ ents) by (intros x Hx; apply Hsub; now right).
    assert (Hoff' : boundary_compar_ sc = false ->
                    Forall (fun en : Z * Str * Z => lex en.1.2 end_ < 0) ens).
    { intros Hf. specialize (Hoff Hf). now apply Forall_inv_tail in Hoff. }
    unfold ranged. destruct (str_le begin k) eqn:Hbk.
    + unfold visit_value. rewrite Hb. cbn [negb andb orb].
      destruct (boundary_compar_ sc && str_le end_ k) eqn:Hstop.
      * (* the scan stops at the first key that reaches the boundary *)
        apply andb_true_iff in Hstop as [_ Hstop].
        exists false, s. split; [reflexivity|]. split; [done|]. split.
        -- rewrite filter_cons_False.
           ++ rewrite (none_in_range_after (ik, k, e) ens Hstop Hall).
              cbn. now rewrite app_nil_r.
           ++ unfold in_range. cbn. intros Hin.
              apply andb_true_iff in Hin as [_ Hin].
              apply str_lt_lex in Hin. apply str_le_lex in Hstop.
              rewrite (lex_antisym end_ k) in Hin. lia.
        -- intros _. exists (ik, k, e). split; [left|done].
      * (* the record is delivered and the scan goes on *)
        destruct (value_ok (ik, k, e) s) as (s1 & Hcb & Hinv1 & Hm1);
          [apply Hsub; left|done|].
        cbn in Hcb. rewrite Hcb. cbn [negb].
        destruct (IH Hsub' s1 Hoff' Hinv1) as (go & s' & Hscan & Hinv' & Hm' & Hgo).
        exists go, s'. split; [exact Hscan|]. split; [done|]. split.
        -- rewrite filter_cons_True.
           ++ rewrite fmap_cons, Hm'. fold (ranged ens). rewrite Hm1.
              now rewrite <- app_assoc.
           ++ unfold in_range. cbn. rewrite Hbk. cbn. apply str_lt_lex.
              apply andb_false_iff in Hstop as [Hf|Hnle].
              ** specialize (Hoff Hf). now apply Forall_inv in Hoff.
              ** assert (~ lex end_ k <= 0) as Hn.
                 { intros Hle. apply str_le_lex in Hle. congruence. }
                 rewrite (lex_antisym end_ k). lia.
        -- intros Hf. destruct (Hgo Hf) as (en' & Hin & Hle).
           exists en'. split; [now right|done].
    + (* a key before [begin] is passed by *)
      destruct (IH Hsub' s Hoff' Hinv) as (go & s' & Hscan & Hinv' & Hm' & Hgo).
      exists go, s'. split; [exact Hscan|]. split; [done|]. split.
      * rewrite filter_cons_False; [exact Hm'|].
        unfold in_range. cbn. now rewrite Hbk.
      * intros Hf. destruct (Hgo Hf) as (en' & Hin & Hle).
        exists en'. split; [now right|done].
Qed.

Lemma all_entries_cons (l : leaf) (ls : list leaf) :
  all_entries (l :: ls) = entries l ++ all_entries ls.
Proof. reflexivity. Qed.

Lemma scan_leaves_spec (ls : list leaf) (sc : t) (s : S) :
  table_wf ls -> all_entries ls ⊆ ents ->
  boundary_ sc = end_ -> end_ <> [] -> scan_succeeded_ sc = true ->
  Inv s ->
  exists sc' s',
    scan_leaves node_callback_ value_callback_ false begin ls sc s
    = Some (sc', s')
    /\ scan_succeeded_ sc' = true /\ Inv s'
    /\ m s' = m s ++ ranged (all_entries ls).
Proof.
  intros [Hwf Hsorted]. revert sc s.
  induction Hwf as [|l ls Hl Hwf IH]; intros sc s Hsub Hb Hne Hok Hinv.
  - exists sc, s. cbn. rewrite app_nil_r. repeat split; done.
  - rewrite all_entries_cons in Hsorted, Hsub.
    apply StronglySorted_app in Hsorted as (Hcross & Hs1 & Hs2).
    cbn [scan_leaves]. unfold visit_leaf.
    destruct (node_ok (node l) (full_version_value l) s Hinv)
      as (s1 & Hnode & Hinv1 & Hm1).
    rewrite Hnode, Hb.
    rewrite bool_decide_eq_false_2 by done. cbn [negb].
    destruct (check_forward_sound l sc Hl Hs1) as (sc1 & Hcheck & Hb1 & Hok1 & Hoff).
    rewrite Hcheck. cbn [fmap option_fmap option_map].
    rewrite Hb in Hb1, Hoff.
    destruct (scan_values_spec (entries l) sc1 s1)
      as (go & s2 & Hscan & Hinv2 & Hm2 & Hgo); try done.
    { intros x Hx. apply Hsub. apply elem_of_app. now left. }
    rewrite Hscan. unfold ranged in *. rewrite all_entries_cons, filter_app, fmap_app.
    destruct go.
    + destruct (IH Hs2 sc1 s2) as (sc' & s' & Hrest & Hok' & Hinv' & Hm');
        try done; try congruence.
      { intros x Hx. apply Hsub. apply elem_of_app. now right. }
      exists sc', s'. split; [exact Hrest|]. split; [done|]. split; [done|].
      rewrite Hm', Hm2, Hm1. now rewrite app_assoc.
    + destruct (Hgo eq_refl) as (en & Hin & Hle).
      exists sc1, s2. split; [reflexivity|]. split; [congruence|].
      split; [done|].
      rewrite (none_in_range_after en (all_entries ls) Hle).
      * cbn. rewrite app_nil_r. now rewrite Hm2, Hm1.
      * apply Forall_forall. intros x Hx. now apply Hcross.
Qed.

Lemma none_in_range_before (k : Str) (ens : list (Z * Str * Z)) :
  str_le k begin = true ->
  Forall (fun en : Z * Str * Z => lex en.1.2 k < 0) ens ->
  filter (fun en => in_range begin end_ en = true) ens = [].
Proof.
  intros Hk Hall. apply str_le_lex in Hk.
  induction Hall as [|en ens Hlt Hall IH]; [done|].
  rewrite filter_cons_False; [exact IH|].
  unfold in_range. intros Hin. apply andb_true_iff in Hin as [Hin _].
  apply str_le_lex in Hin.
  pose proof (lex_lt_le_trans _ _ _ Hlt Hk) as H1.
  rewrite (lex_antisym begin en.1.2) in H1. lia.
Qed.

(** The leaves passed by on the way down hold no key from [begin] on. *)
Lemma descend_spec (ls : list leaf) :
  table_wf ls ->
  table_wf (descend begin ls)
  /\ all_entries (descend begin ls) ⊆ all_entries ls
  /\ ranged (all_entries (descend begin ls)) = ranged (all_entries ls).
Proof.
  induction ls as [|l ls IH]; intros Hwf; [done|].
  cbn [descend]. destruct ls as [|l' ls']; [done|].
  destruct (head (entries l')) as [[[ik k] e]|] eqn:Hhead; [|done].
  destruct (str_le k begin) eqn:Hk; [|done].
  destruct Hwf as [Hall Hsorted]. rewrite all_entries_cons in Hsorted.
  apply StronglySorted_app in Hsorted as (Hcross & Hs1 & Hs2).
  destruct IH as (IH1 & IH2 & IH3).
  { split; [now apply Forall_inv_tail in Hall|done]. }
  split; [exact IH1|]. split.
  - intros x Hx. rewrite all_entries_cons. apply elem_of_app. right. now apply IH2.
  - rewrite IH3. rewrite (all_entries_cons l). unfold ranged.
    rewrite filter_app, fmap_app.
    rewrite (none_in_range_before k (entries l) Hk); [done|].
    apply Forall_forall. intros x Hx.
    apply (Hcross x (ik, k, e) Hx).
    rewrite all_entries_cons. apply elem_of_app. left.
    destruct (entries l') as [|en' ens']; [done|].
    cbn in Hhead. injection Hhead as ->. left.
Qed.

(** The scan as a whole. *)
Lemma scan_spec (ls : list leaf) (s : S) :
  table_wf ls -> all_entries ls ⊆ ents -> end_ <> [] -> Inv s ->
  exists sc' s',
    scan node_callback_ value_callback_ false begin ls (make end_) s
    = Some (sc', s')
    /\ scan_succeeded_ sc' = true /\ Inv s'
    /\ m s' = m s ++ ranged (all_entries ls).
Proof.
  intros Hwf Hsub Hne Hinv. unfold scan.
  destruct (descend_spec ls Hwf) as (Hwf' & Hsub' & Hr).
  rewrite <- Hr. apply scan_leaves_spec; try done.
  intros x Hx. apply Hsub. now apply Hsub'.
Qed.

End ForwardScan.

Section RangeScanFacts.
Import ordered_index.
Context {P : params}.

Lemma no_writes_get (k : TransItem.item_key) (its : list TransItem.t) :
  no_writes its ->
  TransItem.has_write (TransItem.get k its) = false
  /\ has_delete (TransItem.get k its) = false.
Proof.
  intros Hn. unfold TransItem.get.
  destruct (TransItem.lookup k its) as [it|] eqn:E; [|done].
  induction its as [|it' its IH]; [done|]. cbn in E.
  apply Forall_cons in Hn as [Hit Hn].
  destruct (decide (TransItem.key it' = k)); [|now apply IH].
  now injection E as <-.
Qed.

Lemma no_writes_item (k : TransItem.item_key) (its : list TransItem.t) :
  no_writes its -> no_writes (TransItem.item k its).
Proof.
  intros Hn. unfold TransItem.item. destruct (TransItem.lookup k its); [done|].
  apply Forall_app. split; [done|]. now repeat constructor.
Qed.

Lemma no_writes_put (it : TransItem.t) (its : list TransItem.t) :
  no_writes its ->
  TransItem.has_write it = false -> has_delete it = false ->
  no_writes (TransItem.put it its).
Proof.
  intros Hn Hw Hd. induction its as [|it' its IH]; [done|]. cbn.
  apply Forall_cons in Hn as [Hit Hn].
  destruct (decide (TransItem.key it' = TransItem.key it)).
  - now constructor.
  - constructor; [done|now apply IH].
Qed.

Lemma node_callback_ok (st0 : state) (n : nat) (v : Z) (st : state) :
  (forall its, Opacity && negb (check_opacity its) = false) ->
  scan_inv st0 st ->
  exists st',
    node_callback n v st = (true, st') /\ scan_inv st0 st'
    /\ Some <$> delivered st' = Some <$> delivered st.
Proof.
  intros Hop (Ht & He & Hv & Hw). unfold node_callback, register_internode_version.
  rewrite Hop. eexists. split; [reflexivity|]. split; [|done].
  repeat split; try done. destruct Hw as [Hw|Hw]; [now left|right].
  cbn [items set_items].
  pose proof (no_writes_item (get_internode_key n) _ Hw) as Hw'.
  destruct (no_writes_get (get_internode_key n) _ Hw') as [H1 H2].
  apply no_writes_put; [done| |].
  - unfold add_read. now destruct (TransItem.has_read _).
  - unfold add_read. now destruct (TransItem.has_read _).
Qed.

Lemma value_callback_ok (callback : Str -> V -> bool) (st0 : state)
  (en : Z * Str * Z) (st : state) :
  (forall k v, callback k v = true) ->
  observable st0 en ->
  scan_inv st0 st ->
  exists st',
    value_callback callback en.1.2 en.2 st = Some (true, true, st')
    /\ scan_inv st0 st'
    /\ Some <$> delivered st' = (Some <$> delivered st) ++ [delivery st0 en].
Proof.
  intros Hcb (el & Hel & Hvalid & Hobs) (Ht & He & Hv & Hw).
  unfold value_callback. rewrite He, Hel. cbn [mbind option_bind].
  set (its := TransItem.item (TransItem.RecordKey en.2) (items st)).
  set (item := TransItem.get (TransItem.RecordKey en.2) its).
  assert (Hclean : ReadMyWrite = false
                   \/ (TransItem.has_write item = false /\ has_delete item = false)).
  { destruct Hw as [Hw|Hw]; [now left|right].
    apply no_writes_get. now apply no_writes_item. }
  assert (Hrd : ReadMyWrite && has_delete item = false).
  { destruct Hclean as [->|[_ ->]]; [done|apply andb_false_r]. }
  assert (Hrw : ReadMyWrite && TransItem.has_write item = false).
  { destruct Hclean as [->|[-> _]]; [done|apply andb_false_r]. }
  rewrite Hrd, Hrw, observe_spec, Hobs, Hvalid, Hcb. cbn [negb].
  eexists. split; [reflexivity|]. split.
  - repeat split; try done. destruct Hw as [Hw|Hw]; [now left|right].
    cbn [items deliver set_items].
    destruct (no_writes_get (TransItem.RecordKey en.2) its
                (no_writes_item _ _ Hw)) as [H1 H2].
    apply no_writes_put; [now apply no_writes_item|exact H1|exact H2].

  - cbn [delivered deliver set_items]. rewrite fmap_app. cbn.
    unfold delivery. now rewrite Hel.
Qed.

Lemma omap_some_app {A B : Type} (f : A -> option B) (l l' : list B)
  (xs : list A) :
  Some <$> l' = (Some <$> l) ++ (f <$> xs) -> l' = l ++ omap f xs.
Proof.
  intros H. apply (f_equal (omap id)) in H.
  assert (Hid : forall k : list B, omap id (Some <$> k) = k).
  { induction k as [|y k IH]; [done|]. cbn. now rewrite IH. }
  rewrite omap_app, !Hid in H. rewrite H. f_equal. clear H.
  induction xs as [|x xs IH]; [done|]. simpl.
  destruct (f x); simpl; [f_equal|]; exact IH.
Qed.

Lemma sorted_filter {A : Type} (R : relation A) (Q : A -> Prop)
  `{forall x, Decision (Q x)} (l : list A) :
  StronglySorted R l -> StronglySorted R (filter Q l).
Proof.
  induction 1 as [|x l Hs IH Hall]; [constructor|].
  rewrite filter_cons. destruct (decide (Q x)); [|exact IH].
  constructor; [exact IH|].
  rewrite Forall_forall in Hall |- *. intros y Hy. apply Hall.
  now apply list_elem_of_filter in Hy as [_ Hy].
Qed.

End RangeScanFacts.




(** * Further properties of the code *)

(** ** RCU groups and sets *)

Section GroupQueueFacts.
Import TRcuGroup.

(** A row of deferrals that fits: the queue grows by their calls, in
    order, markers apart. *)
Lemma add_seq_spec (adds : list (Z * Z * Z)) (g : t) :
  wf g -> tail_ g + 2 * Z.of_nat (length adds) <= capacity_ g ->
  exists g',
    add_seq adds g = Some g' /\ wf g' /\ head_ g' = head_ g
    /\ live_calls g'
       = live_calls g
         ++ ((fun a : Z * Z * Z => (a.1.2, a.2))
             <$> filter (fun a : Z * Z * Z => a.1.2 <> 0) adds).
Proof.
  revert g. induction adds as [|[[epoch fn] argument] rest IH]; intros g Hwf Hroom.
  - exists g. cbn. now rewrite app_nil_r.
  - cbn [length] in Hroom.
    destruct (add_spec epoch fn argument g Hwf ltac:(lia))
      as (g1 & Hadd & Hwf1 & Hh1 & Hc1 & Ht1 & Hrec1 & Htk1 & Hen1).
    assert (Hlt : tail_ g < tail_ g1 <= tail_ g + 2) by (destruct (decide _); lia).
    destruct (IH g1 Hwf1 ltac:(lia)) as (g' & Hseq & Hwf' & Hh' & Hlive).
    exists g'. cbn [add_seq]. rewrite Hadd. cbn [mbind option_bind].
    split; [exact Hseq|]. split; [exact Hwf'|]. split; [congruence|].
    rewrite Hlive. unfold live_calls. rewrite Hh1.
    pose proof Hwf as (Hh & _).
    rewrite (entries_app (head_ g) (tail_ g) (tail_ g1) g1) by lia.
    rewrite (entries_take_eq (head_ g) (tail_ g) g g1) by (done || lia).
    rewrite Hen1, !filter_app, !fmap_app, <- !app_assoc. f_equal.
    assert (Hm : called <$> filter (fun el => function el <> 0)
                   (if decide (recent_epoch g = Some epoch) then []
                    else [marker epoch]) = []).
    { destruct (decide (recent_epoch g = Some epoch)); [done|].
      rewrite filter_cons_False; [done|]. cbn. lia. }
    rewrite Hm. cbn [app].
    destruct (decide (fn = 0)) as [Hfn|Hfn].
    + rewrite (filter_cons_False _ (action (fn, argument))) by (cbn; lia).
      rewrite (filter_cons_False _ (epoch, fn, argument)) by (cbn; lia).
      reflexivity.
    + rewrite (filter_cons_True _ (action (fn, argument))) by (cbn; lia).
      rewrite (filter_cons_True _ (epoch, fn, argument)) by (cbn; lia).
      reflexivity.
Qed.

End GroupQueueFacts.

(** X1.  [TRcuGroup::add] asks for two free slots whether or not it writes a
    marker: with fewer its assertion fails, even when the action alone
    would fit.  When it succeeds the group keeps its invariant, [head_] and
    [capacity_] stay, [tail_] moves by one or two, and the entries queued
    before are untouched. *)
Theorem rcu_group_add_needs_two_slots (epoch fn argument : Z)
  (g : TRcuGroup.t) :
  TRcuGroup.wf g -> TRcuGroup.capacity_ g + 2 < unsigned_modulus ->
  (is_Some (TRcuGroup.add epoch fn argument g)
   <-> TRcuGroup.tail_ g + 2 <= TRcuGroup.capacity_ g)
  /\ forall g',
       TRcuGroup.add epoch fn argument g = Some g' ->
       TRcuGroup.wf g'
       /\ TRcuGroup.head_ g' = TRcuGroup.head_ g
       /\ TRcuGroup.capacity_ g' = TRcuGroup.capacity_ g
       /\ TRcuGroup.tail_ g < TRcuGroup.tail_ g' <= TRcuGroup.tail_ g + 2
       /\ TRcuGroup.entries (TRcuGroup.head_ g) (TRcuGroup.tail_ g) g'
          = TRcuGroup.entries (TRcuGroup.head_ g) (TRcuGroup.tail_ g) g.
Proof.
  intros Hwf Hcap.
  destruct (Z_le_gt_dec (TRcuGroup.tail_ g + 2) (TRcuGroup.capacity_ g))
    as [Hroom|Hfull].
  - destruct (add_spec epoch fn argument g Hwf Hroom)
      as (g1 & Hadd & Hwf1 & Hh1 & Hc1 & Ht1 & Hrec1 & Htk1 & Hen1).
    split; [split; [done|eauto]|].
    intros g' Hg'. rewrite Hadd in Hg'. injection Hg' as <-.
    split; [done|]. split; [done|]. split; [done|].
    split; [destruct (decide _); lia|].
    apply entries_take_eq; [|done]. destruct Hwf as (? & _). lia.
  - assert (Hnone : TRcuGroup.add epoch fn argument g = None).
    { unfold TRcuGroup.add. destruct Hwf as (Hh & Ht & _).
      rewrite uadd_small by lia.
      replace (TRcuGroup.tail_ g + 2 <=? TRcuGroup.capacity_ g) with false
        by (symmetry; apply Z.leb_gt; lia).
      reflexivity. }
    rewrite Hnone. split; [|done]. split; [intros [? [=]]|lia].
Qed.

(** X2.  From [make] to [free]: every action deferred to a fresh group with
    room for it is called by the destructor exactly once, in the order of
    the deferrals and whatever their epochs; a deferral whose function is
    null is never called. *)
Theorem rcu_group_free_runs_what_was_added (capacity raw_epoch : Z)
  (raw : list TRcuGroup.TRcuElement) (adds : list (Z * Z * Z))
  (calls : list call) :
  Z.of_nat (length raw) = capacity -> capacity < unsigned_modulus ->
  2 * Z.of_nat (length adds) <= capacity ->
  exists g g',
    TRcuGroup.add_seq adds (TRcuGroup.make capacity raw_epoch raw) = Some g
    /\ TRcuGroup.destroy g calls
       = Some (g', calls ++ ((fun a : Z * Z * Z => (a.1.2, a.2))
                             <$> filter (fun a : Z * Z * Z => a.1.2 <> 0) adds))
    /\ TRcuGroup.head_ g' = TRcuGroup.tail_ g'.
Proof.
  intros Hlen Hcap Hroom.
  assert (Hwf : TRcuGroup.wf (TRcuGroup.make capacity raw_epoch raw)).
  { unfold TRcuGroup.wf, TRcuGroup.make. cbn. lia. }
  destruct (add_seq_spec adds _ Hwf) as (g & Hseq & Hwfg & Hh & Hlive).
  { cbn. lia. }
  destruct Hwfg as (Hhg & Htg & Hcg & Hmg).
  destruct (destroy_loop_spec _ g calls eq_refl Hhg ltac:(lia) ltac:(lia))
    as (g' & Hrun & Hht & _).
  exists g, g'. split; [exact Hseq|]. split; [|exact Hht].
  unfold TRcuGroup.destroy. rewrite Z.mod_small by lia.
  rewrite Hrun. f_equal. f_equal. f_equal.
  unfold TRcuGroup.live_calls in Hlive. rewrite Hlive.
  cbn [TRcuGroup.make TRcuGroup.head_ TRcuGroup.tail_].
  now rewrite entries_nil.
Qed.

(** X3.  [TRcuSet::clean_until] looks at the queue only when [max_epoch]
    differs from the epoch of the last cleaning.  So an action deferred
    after [clean_until(max_epoch)] is not run by a second
    [clean_until(max_epoch)], not even when its own epoch is no later than
    [max_epoch]: the second call fires nothing and leaves the set as the
    deferral left it. *)
Theorem rcu_set_clean_until_same_epoch_skips (grow : TRcuSet.t -> TRcuSet.t)
  (max_epoch epoch fn argument : Z) (s s2 : TRcuSet.t) (calls : list call) :
  (forall s', TRcuSet.clean_epoch_ (grow s') = TRcuSet.clean_epoch_ s') ->
  TRcuSet.add grow epoch fn argument
    (TRcuSet.clean_until max_epoch s calls).1 = Some s2 ->
  forall calls', TRcuSet.clean_until max_epoch s2 calls' = (s2, calls').
Proof.
  intros Hgrow Hadd calls'.
  assert (Hce : TRcuSet.clean_epoch_ s2 = max_epoch).
  { unfold TRcuSet.add in Hadd.
    destruct (last _) as [current|]; [|done]. cbn [mbind option_bind] in Hadd.
    match type of Hadd with context [last (TRcuSet.groups ?x)] => set (s1 := x) in * end.
    assert (H1 : TRcuSet.clean_epoch_ s1 = max_epoch).
    { subst s1. unfold TRcuSet.clean_until.
      destruct (negb _); [|destruct (_ <? _); [rewrite Hgrow|]; reflexivity].
      destruct (TRcuSet.hard_clean_until max_epoch s calls).
      destruct (_ <? _); [rewrite Hgrow|]; reflexivity. }
    destruct (last (TRcuSet.groups s1)) as [cur|]; [|done].
    cbn [mbind option_bind] in Hadd.
    destruct (TRcuGroup.add epoch fn argument cur); [|done].
    cbn [mbind option_bind] in Hadd. injection Hadd as <-. exact H1. }
  unfold TRcuSet.clean_until. rewrite Hce, Z.eqb_refl. cbn [negb].
  destruct s2 as [gs ce]. cbn in *. now subst.
Qed.

(** ** The unordered index: chains *)

Section ChainFacts.
Import unordered_index.
Context {P : params}.

Lemma find_in_chain_total (h : gmap Z (internal_elem.t K V)) (c : list Z) (k : K) :
  (forall e, e ∈ c -> is_Some (h !! e)) -> is_Some (find_in_chain h c k).
Proof.
  induction c as [|curr rest IH]; intros Hall; [cbn; eauto|].
  cbn. destruct (Hall curr) as [el Hel]; [left|]. rewrite Hel. cbn.
  destruct (bool_decide (internal_elem.key el = k)); [eauto|].
  apply IH. intros e He. apply Hall. now right.
Qed.

Lemma find_in_chain_first (h : gmap Z (internal_elem.t K V)) (c : list Z) (k : K)
  (r : Z) :
  nullptr ∉ c -> find_in_chain h c k = Some r ->
  (r = nullptr
   /\ forall e el, e ∈ c -> h !! e = Some el -> internal_elem.key el <> k)
  \/ (r <> nullptr
      /\ exists pre post el,
           c = pre ++ r :: post /\ h !! r = Some el /\ internal_elem.key el = k
           /\ forall e el', e ∈ pre -> h !! e = Some el' ->
                            internal_elem.key el' <> k).
Proof.
  induction c as [|curr rest IH]; intros Hnull Hfind.
  - cbn in Hfind. injection Hfind as <-. left. split; [done|].
    intros e el He. now apply elem_of_nil in He.
  - cbn in Hfind. destruct (h !! curr) as [el|] eqn:Hel; [|done].
    cbn in Hfind. apply not_elem_of_cons in Hnull as [Hne Hnull].
    destruct (bool_decide_reflect (internal_elem.key el = k)) as [Hk|Hk].
    + injection Hfind as <-. right. split; [done|].
      exists [], rest, el. repeat split; try done.
      intros e el' He. now apply elem_of_nil in He.
    + destruct (IH Hnull Hfind) as [[-> Hno]|(Hr & pre & post & el' & -> & Hl & Hk' & Hpre)].
      * left. split; [done|]. intros e el' He Hel'.
        apply elem_of_cons in He as [->|He]; [congruence|now apply (Hno e)].
      * right. split; [done|].
        exists (curr :: pre), post, el'. repeat split; try done.
        intros e el'' He Hel''.
        apply elem_of_cons in He as [->|He]; [congruence|now apply (Hpre e)].
Qed.

Lemma unlink_middle (e : Z) (pre post : list Z) :
  e ∉ pre -> unlink e (pre ++ e :: post) = Some (pre ++ post).
Proof.
  induction pre as [|x pre IH]; intros Hnin; cbn.
  - now rewrite Z.eqb_refl.
  - apply not_elem_of_cons in Hnin as [Hne Hnin].
    replace (x =? e) with false by (symmetry; apply Z.eqb_neq; congruence).
    now rewrite IH.
Qed.

Lemma unlink_absent (e : Z) (c : list Z) : e ∉ c -> unlink e c = None.
Proof.
  induction c as [|x c IH]; intros Hnin; [done|]. cbn.
  apply not_elem_of_cons in Hnin as [Hne Hnin].
  replace (x =? e) with false by (symmetry; apply Z.eqb_neq; congruence).
  now rewrite IH.
Qed.

(** [_remove] on a bucket whose lock is free. *)
Lemma remove_result (e : Z) (el : internal_elem.t K V) (idx : nat)
  (buck : bucket_entry.t) (st : state) :
  elems st !! e = Some el ->
  find_bucket_idx (internal_elem.key el) st = Some idx ->
  map_ st !! idx = Some buck ->
  TransactionTid.is_locked (bucket_entry.version buck) = false ->
  _remove e st
  = (fun c => mkState (<[idx := bucket_entry.mk c (bucket_entry.version buck)]>
                         (map_ st))
                (elems st) (values st) (items st) (rcu st ++ [e]))
    <$> unlink e (bucket_entry.chain buck).
Proof.
  intros Hel Hidx Hbuck Hfree. unfold _remove.
  rewrite Hel. cbn [mbind option_bind]. rewrite Hidx. cbn [mbind option_bind].
  rewrite (lock_spec idx buck st) by done. cbn [mbind option_bind].
  rewrite (set_bucket_lookup idx _ buck) by done. cbn [mbind option_bind].
  cbn [bucket_entry.chain bucket_entry.version].
  destruct (unlink e (bucket_entry.chain buck)) as [c|]; [|done].
  cbn [mbind option_bind fmap option_fmap option_map].
  rewrite set_bucket_twice.
  erewrite unlock_spec by (apply (set_bucket_lookup idx _ buck); done).
  cbn [mbind option_bind bucket_entry.chain bucket_entry.version].
  rewrite set_bucket_twice. f_equal.
  unfold set_bucket, set_map, set_rcu. cbn [map_ elems values items rcu].
  f_equal. f_equal. f_equal. unfold TransactionTid.unlock.
  apply ldiff_lor_cancel. unfold TransactionTid.is_locked in Hfree.
  now apply negb_false_iff, Z.eqb_eq in Hfree.
Qed.

End ChainFacts.

(** X4.  [find_in_bucket] on a chain whose nodes are all there returns the first
    node of the chain that holds the key, and the null pointer exactly when
    no node of the chain holds it. *)
Theorem find_in_bucket_returns_first_match
  {P : unordered_index.params} (st : unordered_index.state)
  (buck : bucket_entry.t) (k : unordered_index.K) :
  (forall e, e ∈ bucket_entry.chain buck ->
             e <> nullptr /\ is_Some (unordered_index.elems st !! e)) ->
  exists r,
    unordered_index.find_in_bucket st buck k = Some r
    /\ ((r = nullptr
         /\ forall e el, e ∈ bucket_entry.chain buck ->
              unordered_index.elems st !! e = Some el ->
              internal_elem.key el <> k)
        \/ (r <> nullptr
            /\ exists pre post el,
                 bucket_entry.chain buck = pre ++ r :: post
                 /\ unordered_index.elems st !! r = Some el
                 /\ internal_elem.key el = k
                 /\ forall e el', e ∈ pre ->
                      unordered_index.elems st !! e = Some el' ->
                      internal_elem.key el' <> k)).
Proof.
  intros Hall. unfold unordered_index.find_in_bucket.
  destruct (find_in_chain_total (unordered_index.elems st)
              (bucket_entry.chain buck) k) as [r Hr].
  { intros e He. now apply Hall. }
  exists r. split; [exact Hr|].
  apply (find_in_chain_first _ _ _ _ (fun Hin => proj1 (Hall _ Hin) eq_refl) Hr).
Qed.

(** X5.  [_remove] takes the node out of the chain of its key's bucket, where
    it may stand anywhere, keeps the other nodes in their order and the
    bucket's version as it was, leaves the node itself allocated and hands
    it to the deferred deletion; a node that is not on that chain fails the
    assertion. *)
Theorem remove_unlinks_the_node
  {P : unordered_index.params} (e : Z)
  (el : internal_elem.t unordered_index.K unordered_index.V) (idx : nat)
  (buck : bucket_entry.t) (st : unordered_index.state) :
  unordered_index.elems st !! e = Some el ->
  unordered_index.find_bucket_idx (internal_elem.key el) st = Some idx ->
  unordered_index.map_ st !! idx = Some buck ->
  TransactionTid.is_locked (bucket_entry.version buck) = false ->
  (forall pre post,
     bucket_entry.chain buck = pre ++ e :: post -> e ∉ pre ->
     unordered_index._remove e st
     = Some (unordered_index.mkState
               (<[idx := bucket_entry.mk (pre ++ post) (bucket_entry.version buck)]>
                  (unordered_index.map_ st))
               (unordered_index.elems st) (unordered_index.values st)
               (unordered_index.items st) (unordered_index.rcu st ++ [e])))
  /\ (e ∉ bucket_entry.chain buck -> unordered_index._remove e st = None).
Proof.
  intros Hel Hidx Hbuck Hfree.
  rewrite (remove_result e el idx buck st Hel Hidx Hbuck Hfree). split.
  - intros pre post -> Hnin. now rewrite unlink_middle.
  - intros Hnin. now rewrite unlink_absent.
Qed.

(** ** The unordered index: rows that are there *)

Section PresentFacts.
Import unordered_index.
Context {P : params}.

Lemma select_row_present (k : K) (for_update : bool) (idx : nat)
  (buck : bucket_entry.t) (e : Z) (el : internal_elem.t K V) (st : state) :
  find_bucket_idx k st = Some idx ->
  map_ st !! idx = Some buck ->
  find_in_bucket st buck k = Some e -> e <> nullptr ->
  elems st !! e = Some el ->
  let item := TransItem.get (TransItem.RecordKey e) (items st) in
  is_phantom el item = false ->
  ReadMyWrite && (has_delete item || TransItem.has_write item) = false ->
  select_row k for_update st
  = Some (if Opacity && TransactionTid.is_locked (internal_elem.version el)
          then (sel_abort, sto_item (TransItem.RecordKey e) st)
          else ((true, true, e, value_ptr e),
                set_items
                  (TransItem.put (TransItem.observed for_update (internal_elem.version el) item)
                     (TransItem.item (TransItem.RecordKey e) (items st))) st)).
Proof.
  intros Hidx Hbuck Hfind Hne Hel item Hph Hrmw. unfold select_row.
  rewrite Hidx. cbn [mbind option_bind]. rewrite Hbuck. cbn [mbind option_bind].
  rewrite Hfind. cbn [mbind option_bind].
  replace (e =? nullptr) with false by (symmetry; now apply Z.eqb_neq).
  cbn [negb]. rewrite Hel. cbn [mbind option_bind].
  unfold get_item, sto_item, put_item, set_items, select_for_update.
  cbn [items map_ elems values rcu].
  rewrite item_get_item. fold item. rewrite Hph.
  assert (H1 : ReadMyWrite && has_delete item = false).
  { destruct ReadMyWrite; [|done]. cbn in *. now apply orb_false_iff in Hrmw. }
  assert (H2 : ReadMyWrite && TransItem.has_write item = false).
  { destruct ReadMyWrite; [|done]. cbn in *. now apply orb_false_iff in Hrmw. }
  rewrite H1, H2, observe_spec.
  destruct (Opacity && TransactionTid.is_locked (internal_elem.version el));
    destruct for_update; reflexivity.
Qed.

Lemma item_get_put_put (k : TransItem.item_key) (it2 it1 : TransItem.t)
  (its : list TransItem.t) :
  TransItem.key it2 = k -> TransItem.key it1 = k ->
  TransItem.get k (TransItem.put it2 (TransItem.put it1 (TransItem.item k its)))
  = it2.
Proof.
  intros Hk2 Hk1. unfold TransItem.get.
  rewrite <- Hk2. rewrite item_lookup_put; [done|].
  rewrite Hk2, <- Hk1. rewrite item_lookup_put; [eauto|].
  rewrite Hk1, item_lookup_item. eauto.
Qed.

Lemma read_value_member (e : Z) (el : internal_elem.t K V) (st : state) :
  values st !! value_ptr e = None -> elems st !! e = Some el ->
  read_value st (value_ptr e) = Some (internal_elem.value el).
Proof.
  intros Hv Hel. unfold read_value. rewrite Hv. unfold value_ptr.
  replace (e + value_offset - value_offset) with e by lia. now rewrite Hel.
Qed.

Lemma update_row_result (rid new_row : Z) (st : state) :
  let item := TransItem.get (TransItem.RecordKey rid) (items st) in
  update_row rid new_row st
  = if TransItem.has_write item && negb (has_insert item)
    then Some (set_items
                 (TransItem.put (TransItem.add_write new_row item)
                    (TransItem.item (TransItem.RecordKey rid) (items st))) st)
    else None.
Proof.
  cbv zeta. unfold update_row, get_item, sto_item, put_item, set_items.
  cbn [items]. now rewrite item_get_item.
Qed.

End PresentFacts.

(** X6.  [select_row] on a key whose node can be read (valid, or inserted by
    this transaction) and that no staged write or delete answers first:
    the table, the nodes and the values stay as they are; unless the index
    is opaque and the node's version is locked, in which case the call
    aborts, it returns the node and the address of its member [value],
    where the node's value is read, and the item holds an observation (its
    first one is kept) and, with [for_update], the write mark. *)
Theorem select_row_present_reads_record
  {P : unordered_index.params} (k : unordered_index.K) (for_update : bool)
  (idx : nat) (buck : bucket_entry.t) (e : Z)
  (el : internal_elem.t unordered_index.K unordered_index.V)
  (st : unordered_index.state) :
  unordered_index.find_bucket_idx k st = Some idx ->
  unordered_index.map_ st !! idx = Some buck ->
  unordered_index.find_in_bucket st buck k = Some e -> e <> nullptr ->
  unordered_index.elems st !! e = Some el ->
  unordered_index.values st !! unordered_index.value_ptr e = None ->
  let item := TransItem.get (TransItem.RecordKey e) (unordered_index.items st) in
  unordered_index.is_phantom el item = false ->
  unordered_index.ReadMyWrite
  && (unordered_index.has_delete item || TransItem.has_write item) = false ->
  let ok := negb (unordered_index.Opacity
                  && TransactionTid.is_locked (internal_elem.version el)) in
  exists st',
    unordered_index.select_row k for_update st
    = Some ((ok, ok, if ok then e else 0,
             if ok then unordered_index.value_ptr e else nullptr), st')
    /\ unordered_index.map_ st' = unordered_index.map_ st
    /\ unordered_index.elems st' = unordered_index.elems st
    /\ unordered_index.values st' = unordered_index.values st
    /\ unordered_index.rcu st' = unordered_index.rcu st
    /\ (ok = true ->
        unordered_index.read_value st' (unordered_index.value_ptr e)
        = Some (internal_elem.value el)
        /\ TransItem.get (TransItem.RecordKey e) (unordered_index.items st')
           = TransItem.observed for_update (internal_elem.version el) item).
Proof.
  intros Hidx Hbuck Hfind Hne Hel Hval item Hph Hrmw ok.
  rewrite (select_row_present k for_update idx buck e el st) by done.
  fold item. subst ok.
  destruct (unordered_index.Opacity
            && TransactionTid.is_locked (internal_elem.version el)); cbn [negb].
  - eexists. split; [reflexivity|]. repeat split; done.
  - eexists. split; [reflexivity|].
    cbn [unordered_index.set_items unordered_index.map_ unordered_index.elems
         unordered_index.values unordered_index.rcu unordered_index.items].
    repeat split.
    + now apply read_value_member.
    + apply item_get_put. cbn. apply item_get_key.
Qed.

(** X7.  The pattern of the TPC-C transactions: [select_row(k, true)] on a
    committed row, then [update_row(row, new_row)] with the row it
    returned.  The assertion of [update_row] holds, the item ends with the
    observation of the node's version and the staged pointer [new_row], and
    the node keeps its value: the table changes at commit only. *)
Theorem select_for_update_then_update_row
  {P : unordered_index.params} (k : unordered_index.K) (new_row : Z)
  (idx : nat) (buck : bucket_entry.t) (e : Z)
  (el : internal_elem.t unordered_index.K unordered_index.V)
  (st : unordered_index.state) :
  unordered_index.find_bucket_idx k st = Some idx ->
  unordered_index.map_ st !! idx = Some buck ->
  unordered_index.find_in_bucket st buck k = Some e -> e <> nullptr ->
  unordered_index.elems st !! e = Some el ->
  unordered_index.valid el = true ->
  unordered_index.Opacity
  && TransactionTid.is_locked (internal_elem.version el) = false ->
  let item := TransItem.get (TransItem.RecordKey e) (unordered_index.items st) in
  unordered_index.has_insert item = false ->
  unordered_index.ReadMyWrite
  && (unordered_index.has_delete item || TransItem.has_write item) = false ->
  exists st1 st2,
    unordered_index.select_row k true st
    = Some ((true, true, e, unordered_index.value_ptr e), st1)
    /\ unordered_index.update_row e new_row st1 = Some st2
    /\ TransItem.get (TransItem.RecordKey e) (unordered_index.items st2)
       = TransItem.add_write new_row
           (TransItem.observed true (internal_elem.version el) item)
    /\ unordered_index.map_ st2 = unordered_index.map_ st
    /\ unordered_index.elems st2 = unordered_index.elems st.
Proof.
  intros Hidx Hbuck Hfind Hne Hel Hvalid Hobs item Hins Hrmw.
  pose proof (select_row_present k true idx buck e el st Hidx Hbuck Hfind Hne Hel
                (valid_not_phantom el _ Hvalid) Hrmw) as Hsel.
  rewrite Hobs in Hsel. fold item in Hsel.
  eexists _, _. split; [exact Hsel|].
  assert (Hkey : TransItem.key item = TransItem.RecordKey e) by apply item_get_key.
  rewrite update_row_result.
  cbn [unordered_index.items unordered_index.set_items].
  rewrite item_get_put by (cbn; exact Hkey).
  cbn [TransItem.observed TransItem.has_write orb].
  replace (unordered_index.has_insert
             (TransItem.observed true (internal_elem.version el) item))
    with (unordered_index.has_insert item) by reflexivity.
  rewrite Hins. cbn [negb andb]. split; [reflexivity|].
  cbn [unordered_index.items unordered_index.set_items unordered_index.map_
       unordered_index.elems].
  split; [|done].
  apply item_get_put. exact Hkey.
Qed.

(** X8.  [update_row] asserts that the row was selected for update: after a
    plain [select_row] of a row the transaction has not written, the
    assertion fails. *)
Theorem update_row_after_plain_select_fails
  {P : unordered_index.params} (k : unordered_index.K) (new_row : Z)
  (idx : nat) (buck : bucket_entry.t) (e : Z)
  (el : internal_elem.t unordered_index.K unordered_index.V)
  (st : unordered_index.state) :
  unordered_index.find_bucket_idx k st = Some idx ->
  unordered_index.map_ st !! idx = Some buck ->
  unordered_index.find_in_bucket st buck k = Some e -> e <> nullptr ->
  unordered_index.elems st !! e = Some el ->
  unordered_index.valid el = true ->
  unordered_index.Opacity
  && TransactionTid.is_locked (internal_elem.version el) = false ->
  let item := TransItem.get (TransItem.RecordKey e) (unordered_index.items st) in
  TransItem.has_write item = false ->
  unordered_index.ReadMyWrite && unordered_index.has_delete item = false ->
  exists st1,
    unordered_index.select_row k false st
    = Some ((true, true, e, unordered_index.value_ptr e), st1)
    /\ unordered_index.update_row e new_row st1 = None.
Proof.
  intros Hidx Hbuck Hfind Hne Hel Hvalid Hobs item Hw Hd.
  pose proof (select_row_present k false idx buck e el st Hidx Hbuck Hfind Hne Hel
                (valid_not_phantom el _ Hvalid)) as Hsel.
  fold item in Hsel. rewrite Hobs in Hsel.
  eexists. split.
  { apply Hsel. rewrite Hw, orb_false_r. exact Hd. }
  rewrite update_row_result.
  cbn [unordered_index.items unordered_index.set_items].
  rewrite item_get_put by (cbn; apply item_get_key).
  cbn [TransItem.observed TransItem.has_write orb]. now rewrite Hw.
Qed.

(** X9.  [update_row] also refuses a row the transaction inserted itself: after
    [insert_row] of a key its bucket did not hold, [update_row] on the new
    node fails its assertion. *)
Theorem update_row_after_own_insert_fails
  {P : unordered_index.params} (k : unordered_index.K)
  (vptr new_elem new_row : Z) (overwrite : bool)
  (idx : nat) (buck : bucket_entry.t) (v : unordered_index.V)
  (st : unordered_index.state) :
  unordered_index.find_bucket_idx k st = Some idx ->
  unordered_index.map_ st !! idx = Some buck ->
  unordered_index.find_in_bucket st buck k = Some nullptr ->
  TransactionTid.is_locked (bucket_entry.version buck) = false ->
  new_elem <> nullptr ->
  unordered_index.elems st !! new_elem = None ->
  unordered_index.deref_or_default st vptr = Some v ->
  exists st1,
    unordered_index.insert_row k vptr overwrite new_elem st
    = Some ((true, false), st1)
    /\ unordered_index.update_row new_elem new_row st1 = None.
Proof.
  intros Hidx Hbuck Hfind Hfree Hnz Hfresh Hv.
  eexists. split.
  { exact (insert_row_absent_result k vptr new_elem overwrite idx buck v st
             Hidx Hbuck Hfind Hfree Hnz Hfresh Hv). }
  rewrite update_row_result. cbn [unordered_index.items].
  rewrite item_get_put by (cbn; apply item_get_key).
  rewrite has_insert_add_flags. cbn [TransItem.add_flags TransItem.add_write
    TransItem.has_write]. reflexivity.
Qed.

(** X10.  With read-my-writes off, a transaction does not read its own update
    back: after [select_row(k, true)] and [update_row], a further
    [select_row(k)] still returns the address of the node's member [value],
    where the committed value is read. *)
Theorem select_after_update_reads_committed_value
  {P : unordered_index.params} (k : unordered_index.K) (new_row : Z)
  (for_update : bool) (idx : nat) (buck : bucket_entry.t) (e : Z)
  (el : internal_elem.t unordered_index.K unordered_index.V)
  (st : unordered_index.state) :
  unordered_index.ReadMyWrite = false ->
  unordered_index.find_bucket_idx k st = Some idx ->
  unordered_index.map_ st !! idx = Some buck ->
  unordered_index.find_in_bucket st buck k = Some e -> e <> nullptr ->
  unordered_index.elems st !! e = Some el ->
  unordered_index.values st !! unordered_index.value_ptr e = None ->
  unordered_index.valid el = true ->
  unordered_index.Opacity
  && TransactionTid.is_locked (internal_elem.version el) = false ->
  unordered_index.has_insert
    (TransItem.get (TransItem.RecordKey e) (unordered_index.items st)) = false ->
  exists st1 st2 st3,
    unordered_index.select_row k true st
    = Some ((true, true, e, unordered_index.value_ptr e), st1)
    /\ unordered_index.update_row e new_row st1 = Some st2
    /\ unordered_index.select_row k for_update st2
       = Some ((true, true, e, unordered_index.value_ptr e), st3)
    /\ unordered_index.read_value st3 (unordered_index.value_ptr e)
       = Some (internal_elem.value el).
Proof.
  intros Hrmw Hidx Hbuck Hfind Hne Hel Hval Hvalid Hobs Hins.
  set (item := TransItem.get (TransItem.RecordKey e) (unordered_index.items st)) in *.
  pose proof (select_row_present k true idx buck e el st Hidx Hbuck Hfind Hne Hel
                (valid_not_phantom el _ Hvalid)) as Hsel.
  rewrite Hobs, Hrmw in Hsel. specialize (Hsel eq_refl). fold item in Hsel.
  match type of Hsel with _ = Some (_, ?s) => set (st1 := s) in * end.
  pose proof (update_row_result e new_row st1) as Hupd. cbv zeta in Hupd.
  assert (Hit1 : TransItem.get (TransItem.RecordKey e) (unordered_index.items st1)
                 = TransItem.observed true (internal_elem.version el) item).
  { subst st1. cbn [unordered_index.items unordered_index.set_items].
    apply item_get_put. cbn. apply item_get_key. }
  rewrite Hit1 in Hupd.
  replace (unordered_index.has_insert
             (TransItem.observed true (internal_elem.version el) item))
    with (unordered_index.has_insert item) in Hupd by reflexivity.
  rewrite Hins in Hupd. cbn [TransItem.observed TransItem.has_write orb andb negb]
    in Hupd.
  match type of Hupd with _ = Some ?s => set (st2 := s) in * end.
  pose proof (select_row_present k for_update idx buck e el st2) as Hsel2.
  rewrite Hobs, Hrmw in Hsel2.
  exists st1, st2. eexists. split; [exact Hsel|]. split; [exact Hupd|].
  split; [apply Hsel2; try done; now apply valid_not_phantom|].
  now apply read_value_member.
Qed.

(** ** The unordered index: non-transactional writes *)

Section NontransFacts.
Import unordered_index.
Context {P : params}.

Lemma nontrans_put_absent (k : K) (v : V) (new_elem : Z) (idx : nat)
  (buck : bucket_entry.t) (st : state) :
  find_bucket_idx k st = Some idx ->
  map_ st !! idx = Some buck ->
  TransactionTid.is_locked (bucket_entry.version buck) = false ->
  find_in_bucket st buck k = Some nullptr ->
  new_elem <> nullptr -> elems st !! new_elem = None ->
  nontrans_put k v new_elem st
  = Some (mkState
            (<[idx := bucket_entry.mk (new_elem :: bucket_entry.chain buck)
                        (bucket_entry.version buck)]> (map_ st))
            (<[new_elem := internal_elem.mk k (Z.lor initialized_tid 0) v false]>
               (elems st))
            (values st) (items st) (rcu st)).
Proof.
  intros Hidx Hbuck Hfree Hfind Hnz Hfresh. unfold nontrans_put.
  rewrite Hidx. cbn [mbind option_bind].
  rewrite (lock_spec idx buck st) by done. cbn [mbind option_bind].
  rewrite (set_bucket_lookup idx _ buck) by done. cbn [mbind option_bind].
  unfold find_in_bucket in *. cbn [bucket_entry.chain bucket_entry.version].
  rewrite elems_set_bucket, Hfind. cbn [mbind option_bind].
  change (nullptr =? nullptr) with true. cbn iota.
  replace (new_elem =? nullptr) with false by (symmetry; now apply Z.eqb_neq).
  cbn [orb]. rewrite bool_decide_eq_false_2 by (rewrite Hfresh; now intros [? [=]]).
  cbn [mbind option_bind].
  erewrite unlock_spec.
  2:{ unfold set_bucket, set_map, set_elems. cbn [map_].
      rewrite list_insert_insert_eq. apply list_lookup_insert_eq.
      now apply lookup_lt_Some in Hbuck. }
  f_equal. unfold set_bucket, set_map, set_elems.
  cbn [map_ elems values items rcu bucket_entry.chain bucket_entry.version].
  rewrite !list_insert_insert_eq. f_equal. f_equal. f_equal.
  unfold TransactionTid.unlock. apply ldiff_lor_cancel.
  unfold TransactionTid.is_locked in Hfree.
  now apply negb_false_iff, Z.eqb_eq in Hfree.
Qed.

Lemma nontrans_put_present (k : K) (v : V) (new_elem : Z) (idx : nat)
  (buck : bucket_entry.t) (e : Z) (el : internal_elem.t K V) (st : state) :
  find_bucket_idx k st = Some idx ->
  map_ st !! idx = Some buck ->
  TransactionTid.is_locked (bucket_entry.version buck) = false ->
  find_in_bucket st buck k = Some e -> e <> nullptr ->
  elems st !! e = Some el ->
  nontrans_put k v new_elem st
  = Some (set_elems
            (<[e := internal_elem.mk (internal_elem.key el)
                      (internal_elem.version el) v (internal_elem.deleted el)]>
               (elems st)) st).
Proof.
  intros Hidx Hbuck Hfree Hfind Hne Hel. unfold nontrans_put.
  rewrite Hidx. cbn [mbind option_bind].
  rewrite (lock_spec idx buck st) by done. cbn [mbind option_bind].
  rewrite (set_bucket_lookup idx _ buck) by done. cbn [mbind option_bind].
  unfold find_in_bucket in *. cbn [bucket_entry.chain bucket_entry.version].
  rewrite elems_set_bucket, Hfind. cbn [mbind option_bind].
  replace (e =? nullptr) with false by (symmetry; now apply Z.eqb_neq).
  unfold store_value. rewrite elems_set_bucket, Hel. cbn [mbind option_bind].
  erewrite unlock_spec.
  2:{ unfold set_bucket, set_map, set_elems. cbn [map_].
      apply list_lookup_insert_eq. now apply lookup_lt_Some in Hbuck. }
  f_equal. unfold set_bucket, set_map, set_elems.
  cbn [map_ elems values items rcu bucket_entry.chain bucket_entry.version].
  rewrite list_insert_insert_eq. f_equal.
  apply list_insert_id. rewrite Hbuck. f_equal.
  destruct buck as [c vb]. cbn in *. f_equal.
  unfold TransactionTid.unlock. symmetry. apply ldiff_lor_cancel.
  unfold TransactionTid.is_locked in Hfree.
  now apply negb_false_iff, Z.eqb_eq in Hfree.
Qed.

End NontransFacts.

(** X11.  [nontrans_put] of a key its bucket does not hold puts it in a valid
    node at the head of the chain and leaves the bucket's version as it
    was; a transaction that has not touched the node then finds the key
    with [select_row] and reads the value that was put. *)
Theorem nontrans_put_then_select_row
  {P : unordered_index.params} (k : unordered_index.K) (v : unordered_index.V)
  (new_elem : Z) (for_update : bool) (idx : nat) (buck : bucket_entry.t)
  (st : unordered_index.state) :
  unordered_index.find_bucket_idx k st = Some idx ->
  unordered_index.map_ st !! idx = Some buck ->
  TransactionTid.is_locked (bucket_entry.version buck) = false ->
  unordered_index.find_in_bucket st buck k = Some nullptr ->
  new_elem <> nullptr ->
  unordered_index.elems st !! new_elem = None ->
  unordered_index.values st !! unordered_index.value_ptr new_elem = None ->
  TransItem.lookup (TransItem.RecordKey new_elem) (unordered_index.items st) = None ->
  Z.land unordered_index.initialized_tid unordered_index.invalid_bit = 0 ->
  TransactionTid.is_locked unordered_index.initialized_tid = false ->
  exists st1 st2,
    unordered_index.nontrans_put k v new_elem st = Some st1
    /\ unordered_index.map_ st1 !! idx
       = Some (bucket_entry.mk (new_elem :: bucket_entry.chain buck)
                 (bucket_entry.version buck))
    /\ unordered_index.select_row k for_update st1
       = Some ((true, true, new_elem, unordered_index.value_ptr new_elem), st2)
    /\ unordered_index.read_value st2 (unordered_index.value_ptr new_elem)
       = Some v.
Proof.
  intros Hidx Hbuck Hfree Hfind Hnz Hfresh Hval Hitem Hinit Hlock.
  pose proof (nontrans_put_absent k v new_elem idx buck st
                Hidx Hbuck Hfree Hfind Hnz Hfresh) as Hput.
  match type of Hput with _ = Some ?s => set (st1 := s) in * end.
  assert (Hlt : (idx < length (unordered_index.map_ st))%nat)
    by now apply lookup_lt_Some in Hbuck.
  assert (Hb1 : unordered_index.map_ st1 !! idx
                = Some (bucket_entry.mk (new_elem :: bucket_entry.chain buck)
                          (bucket_entry.version buck))).
  { subst st1. cbn. now apply list_lookup_insert_eq. }
  set (nh := internal_elem.mk k (Z.lor unordered_index.initialized_tid 0) v false).
  assert (Hel1 : unordered_index.elems st1 !! new_elem = Some nh).
  { subst st1. cbn. apply lookup_insert_eq. }
  assert (Hidx1 : unordered_index.find_bucket_idx k st1 = Some idx).
  { rewrite <- Hidx. apply find_bucket_idx_length. subst st1. cbn.
    apply length_insert. }
  assert (Hfind1 : unordered_index.find_in_bucket st1
                     (bucket_entry.mk (new_elem :: bucket_entry.chain buck)
                        (bucket_entry.version buck)) k = Some new_elem).
  { unfold unordered_index.find_in_bucket.
    cbn [bucket_entry.chain unordered_index.find_in_chain].
    rewrite Hel1. cbn. now rewrite bool_decide_eq_true_2. }
  assert (Hitem1 : TransItem.get (TransItem.RecordKey new_elem)
                     (unordered_index.items st1)
                   = TransItem.fresh (TransItem.RecordKey new_elem)).
  { subst st1. cbn. unfold TransItem.get. now rewrite Hitem. }
  assert (Hv : unordered_index.valid nh = true).
  { unfold unordered_index.valid. cbn. rewrite Z.lor_0_r, Hinit. reflexivity. }
  assert (Hsel : unordered_index.select_row k for_update st1
                 = Some ((true, true, new_elem, unordered_index.value_ptr new_elem),
                         unordered_index.set_items
                           (TransItem.put
                              (TransItem.observed for_update
                                 (internal_elem.version nh)
                                 (TransItem.fresh (TransItem.RecordKey new_elem)))
                              (TransItem.item (TransItem.RecordKey new_elem)
                                 (unordered_index.items st1))) st1)).
  { rewrite (select_row_present k for_update idx _ new_elem nh st1
               Hidx1 Hb1 Hfind1 Hnz Hel1).
    - rewrite Hitem1. cbn [internal_elem.version nh].
      now rewrite Z.lor_0_r, Hlock, andb_false_r.
    - now apply valid_not_phantom.
    - rewrite Hitem1. cbn. now rewrite andb_false_r. }
  exists st1. eexists. split; [exact Hput|]. split; [exact Hb1|].
  split; [exact Hsel|].
  apply (read_value_member new_elem nh); [exact Hval|exact Hel1].
Qed.

(** X12.  [nontrans_put] of a key its bucket holds writes the value into the
    node in place: no node is allocated, the chains and the versions of the
    bucket and of the node stay as they were, so that nothing a transaction
    has observed tells it of the change. *)
Theorem nontrans_put_present_overwrites_in_place
  {P : unordered_index.params} (k : unordered_index.K) (v : unordered_index.V)
  (new_elem : Z) (idx : nat) (buck : bucket_entry.t) (e : Z)
  (el : internal_elem.t unordered_index.K unordered_index.V)
  (st : unordered_index.state) :
  unordered_index.find_bucket_idx k st = Some idx ->
  unordered_index.map_ st !! idx = Some buck ->
  TransactionTid.is_locked (bucket_entry.version buck) = false ->
  unordered_index.find_in_bucket st buck k = Some e -> e <> nullptr ->
  unordered_index.elems st !! e = Some el ->
  exists st',
    unordered_index.nontrans_put k v new_elem st = Some st'
    /\ unordered_index.map_ st' = unordered_index.map_ st
    /\ unordered_index.elems st'
       = <[e := internal_elem.mk (internal_elem.key el)
                  (internal_elem.version el) v (internal_elem.deleted el)]>
           (unordered_index.elems st)
    /\ unordered_index.values st' = unordered_index.values st
    /\ unordered_index.items st' = unordered_index.items st
    /\ unordered_index.rcu st' = unordered_index.rcu st.
Proof.
  intros Hidx Hbuck Hfree Hfind Hne Hel. eexists. split.
  { exact (nontrans_put_present k v new_elem idx buck e el st
             Hidx Hbuck Hfree Hfind Hne Hel). }
  repeat split.
Qed.

(** ** The unordered index: deletes and misses *)

Section DeleteFacts.
Import unordered_index.
Context {P : params}.

(** [delete_row] on a valid node that is not deleted and can be
    observed. *)
Lemma delete_row_present (k : K) (idx : nat) (buck : bucket_entry.t) (e : Z)
  (el : internal_elem.t K V) (st : state) :
  find_bucket_idx k st = Some idx ->
  map_ st !! idx = Some buck ->
  find_in_bucket st buck k = Some e -> e <> nullptr ->
  elems st !! e = Some el ->
  valid el = true -> internal_elem.deleted el = false ->
  Opacity && TransactionTid.is_locked (internal_elem.version el) = false ->
  let item := TransItem.get (TransItem.RecordKey e) (items st) in
  ReadMyWrite && has_delete item = false ->
  exists its',
    delete_row k st = Some ((true, true), set_items its' st)
    /\ TransItem.get (TransItem.RecordKey e) its'
       = TransItem.add_flags delete_bit
           (TransItem.observed true (internal_elem.version el) item)
    /\ forall key, key <> TransItem.RecordKey e ->
         TransItem.get key its' = TransItem.get key (items st).
Proof.
  intros Hidx Hbuck Hfind Hne Hel Hvalid Hdel Hobs item Hrmw.
  unfold delete_row.
  rewrite Hidx. cbn [mbind option_bind]. rewrite Hbuck. cbn [mbind option_bind].
  rewrite Hfind. cbn [mbind option_bind].
  replace (e =? nullptr) with false by (symmetry; now apply Z.eqb_neq).
  cbn [negb]. rewrite Hel. cbn [mbind option_bind].
  unfold get_item, sto_item, put_item, set_items.
  cbn [items map_ elems values rcu].
  rewrite item_get_item. fold item.
  rewrite valid_not_phantom by done. rewrite Hvalid.
  cbn [negb andb]. rewrite !andb_false_r, Hrmw.
  unfold select_for_update. rewrite observe_spec, Hobs.
  cbn [fmap option_fmap option_map]. rewrite Hel. cbn [mbind option_bind].
  rewrite Hdel.
  assert (Hkey : TransItem.key item = TransItem.RecordKey e) by apply item_get_key.
  eexists. split; [reflexivity|]. split.
  - apply item_get_put_put; exact Hkey.
  - intros key Hk.
    rewrite !item_get_put_ne by (cbn; rewrite Hkey; done).
    now apply item_get_item_ne.
Qed.

Lemma has_delete_flagged (it : TransItem.t) :
  has_delete (TransItem.add_flags delete_bit it) = true.
Proof.
  unfold has_delete, TransItem.add_flags. cbn [TransItem.flags].
  now rewrite land_lor_same.
Qed.

Lemma has_delete_cleared (it : TransItem.t) :
  has_delete (TransItem.clear_flags delete_bit it) = false.
Proof.
  unfold has_delete, TransItem.clear_flags. cbn [TransItem.flags].
  now rewrite land_ldiff_same.
Qed.

(** The answer of [select_row] and [delete_row] to a key the bucket does
    not hold. *)
Lemma miss_result (k : K) (idx : nat) (buck : bucket_entry.t) (st : state) :
  find_bucket_idx k st = Some idx ->
  map_ st !! idx = Some buck ->
  find_in_bucket st buck k = Some nullptr ->
  let b := TransItem.get (TransItem.TaggedKey idx) (items st) in
  let st' :=
    if Opacity && TransactionTid.is_locked (bucket_entry.version buck)
    then sto_item (TransItem.TaggedKey idx) st
    else set_items
           (TransItem.put (TransItem.observed false (bucket_entry.version buck) b)
              (TransItem.item (TransItem.TaggedKey idx) (items st))) st in
  let ok := negb (Opacity && TransactionTid.is_locked (bucket_entry.version buck)) in
  (forall for_update,
     select_row k for_update st = Some ((ok, false, 0, nullptr), st'))
  /\ delete_row k st = Some ((ok, false), st').
Proof.
  intros Hidx Hbuck Hfind b st' ok. subst st' ok. split; [intros for_update|].
  - unfold select_row.
    rewrite Hidx. cbn [mbind option_bind]. rewrite Hbuck. cbn [mbind option_bind].
    rewrite Hfind. cbn [mbind option_bind].
    change (nullptr =? nullptr) with true. cbn [negb].
    unfold get_item, sto_item, put_item, set_items, make_bucket_key.
    cbn [items map_ elems values rcu].
    rewrite item_get_item, observe_spec. fold b.
    destruct (Opacity && TransactionTid.is_locked (bucket_entry.version buck));
      reflexivity.
  - unfold delete_row.
    rewrite Hidx. cbn [mbind option_bind]. rewrite Hbuck. cbn [mbind option_bind].
    rewrite Hfind. cbn [mbind option_bind].
    change (nullptr =? nullptr) with true. cbn [negb].
    unfold get_item, sto_item, put_item, set_items, make_bucket_key.
    cbn [items map_ elems values rcu].
    rewrite item_get_item, observe_spec. fold b.
    destruct (Opacity && TransactionTid.is_locked (bucket_entry.version buck));
      reflexivity.
Qed.

End DeleteFacts.

(** X13.  A miss observes the bucket.  On a key its bucket does not hold,
    [select_row] and [delete_row] both report the key absent and leave the
    same state: the table untouched, and the bucket's item holding an
    observation of the bucket's version (an earlier observation is kept);
    on an opaque index whose bucket version is locked both abort. *)
Theorem miss_observes_bucket_version
  {P : unordered_index.params} (k : unordered_index.K) (for_update : bool)
  (idx : nat) (buck : bucket_entry.t) (st : unordered_index.state) :
  unordered_index.find_bucket_idx k st = Some idx ->
  unordered_index.map_ st !! idx = Some buck ->
  unordered_index.find_in_bucket st buck k = Some nullptr ->
  let ok := negb (unordered_index.Opacity
                  && TransactionTid.is_locked (bucket_entry.version buck)) in
  exists st',
    unordered_index.select_row k for_update st
    = Some ((ok, false, 0, nullptr), st')
    /\ unordered_index.delete_row k st = Some ((ok, false), st')
    /\ unordered_index.map_ st' = unordered_index.map_ st
    /\ unordered_index.elems st' = unordered_index.elems st
    /\ unordered_index.rcu st' = unordered_index.rcu st
    /\ (ok = true ->
        TransItem.get (TransItem.TaggedKey idx) (unordered_index.items st')
        = TransItem.observed false (bucket_entry.version buck)
            (TransItem.get (TransItem.TaggedKey idx) (unordered_index.items st))).
Proof.
  intros Hidx Hbuck Hfind ok.
  destruct (miss_result k idx buck st Hidx Hbuck Hfind) as [Hsel Hdel].
  eexists. split; [apply Hsel|]. split; [apply Hdel|].
  subst ok.
  destruct (unordered_index.Opacity
            && TransactionTid.is_locked (bucket_entry.version buck)); cbn [negb].
  - repeat split; done.
  - repeat split. intros _.
    cbn [unordered_index.items unordered_index.set_items].
    apply item_get_put. cbn. apply item_get_key.
Qed.

(** X14.  What a transaction sees of its own delete.  After [delete_row] of a
    committed row, [select_row] of the same key reports it absent in
    read-my-writes mode, and still returns the row otherwise; either way
    the node stays on its chain, the delete being left to the commit. *)
Theorem select_after_delete_row
  {P : unordered_index.params} (k : unordered_index.K) (for_update : bool)
  (idx : nat) (buck : bucket_entry.t) (e : Z)
  (el : internal_elem.t unordered_index.K unordered_index.V)
  (st : unordered_index.state) :
  unordered_index.find_bucket_idx k st = Some idx ->
  unordered_index.map_ st !! idx = Some buck ->
  unordered_index.find_in_bucket st buck k = Some e -> e <> nullptr ->
  unordered_index.elems st !! e = Some el ->
  unordered_index.valid el = true -> internal_elem.deleted el = false ->
  unordered_index.Opacity
  && TransactionTid.is_locked (internal_elem.version el) = false ->
  unordered_index.ReadMyWrite
  && unordered_index.has_delete
       (TransItem.get (TransItem.RecordKey e) (unordered_index.items st)) = false ->
  exists st1 st2,
    unordered_index.delete_row k st = Some ((true, true), st1)
    /\ unordered_index.select_row k for_update st1
       = Some ((if unordered_index.ReadMyWrite then (true, false, 0, nullptr)
                else (true, true, e, unordered_index.value_ptr e)), st2)
    /\ unordered_index.map_ st2 = unordered_index.map_ st
    /\ unordered_index.elems st2 = unordered_index.elems st.
Proof.
  intros Hidx Hbuck Hfind Hne Hel Hvalid Hdel Hobs Hrmw.
  destruct (delete_row_present k idx buck e el st Hidx Hbuck Hfind Hne Hel
              Hvalid Hdel Hobs Hrmw) as (its' & Hd & Hit & _).
  set (st1 := unordered_index.set_items its' st) in *.
  destruct unordered_index.ReadMyWrite eqn:Hmode.
  - (* the delete flag answers *)
    exists st1. eexists. split; [exact Hd|]. split.
    { unfold unordered_index.select_row.
      change (unordered_index.find_bucket_idx k st1)
        with (unordered_index.find_bucket_idx k st).
      rewrite Hidx. cbn [mbind option_bind].
      change (unordered_index.map_ st1) with (unordered_index.map_ st).
      rewrite Hbuck. cbn [mbind option_bind].
      change (unordered_index.find_in_bucket st1 buck k)
        with (unordered_index.find_in_bucket st buck k).
      rewrite Hfind. cbn [mbind option_bind].
      replace (e =? nullptr) with false by (symmetry; now apply Z.eqb_neq).
      cbn [negb]. change (unordered_index.elems st1) with (unordered_index.elems st).
      rewrite Hel. cbn [mbind option_bind].
      unfold unordered_index.get_item, unordered_index.sto_item,
        unordered_index.set_items. unfold st1, unordered_index.set_items.
      cbn [unordered_index.items].
      rewrite item_get_item, Hit, Hmode.
      rewrite valid_not_phantom by done. rewrite has_delete_flagged.
      cbn [andb]. reflexivity. }
    split; reflexivity.
  - exists st1. eexists. split; [exact Hd|]. split.
    { rewrite (select_row_present k for_update idx buck e el st1); try done.
      + now rewrite Hobs.
      + now apply valid_not_phantom.
      + now rewrite Hmode. }
    split; reflexivity.
Qed.

(** X15.  In read-my-writes mode an insert after the transaction's own delete
    of a committed row takes the row back: [insert_row] reports the key as
    not found, allocates nothing, and leaves the item without the delete
    flag, with the new value staged and the observation of the node's
    version that the delete made. *)
Theorem insert_after_delete_row_restages
  {P : unordered_index.params} (k : unordered_index.K)
  (vptr new_elem : Z) (overwrite : bool)
  (idx : nat) (buck : bucket_entry.t) (e : Z)
  (el : internal_elem.t unordered_index.K unordered_index.V)
  (st : unordered_index.state) :
  unordered_index.ReadMyWrite = true ->
  unordered_index.find_bucket_idx k st = Some idx ->
  unordered_index.map_ st !! idx = Some buck ->
  TransactionTid.is_locked (bucket_entry.version buck) = false ->
  unordered_index.find_in_bucket st buck k = Some e -> e <> nullptr ->
  unordered_index.elems st !! e = Some el ->
  unordered_index.valid el = true -> internal_elem.deleted el = false ->
  unordered_index.Opacity
  && TransactionTid.is_locked (internal_elem.version el) = false ->
  let item := TransItem.get (TransItem.RecordKey e) (unordered_index.items st) in
  unordered_index.has_delete item = false ->
  exists st1 st2,
    unordered_index.delete_row k st = Some ((true, true), st1)
    /\ unordered_index.insert_row k vptr overwrite new_elem st1
       = Some ((true, false), st2)
    /\ unordered_index.map_ st2 = unordered_index.map_ st
    /\ unordered_index.elems st2 = unordered_index.elems st
    /\ (let item2 := TransItem.get (TransItem.RecordKey e)
                       (unordered_index.items st2) in
        unordered_index.has_delete item2 = false
        /\ TransItem.has_write item2 = true /\ TransItem.wdata item2 = vptr
        /\ TransItem.has_read item2 = true
        /\ TransItem.rdata item2
           = if TransItem.has_read item then TransItem.rdata item
             else internal_elem.version el).
Proof.
  intros Hmode Hidx Hbuck Hfree Hfind Hne Hel Hvalid Hdel Hobs item Hnd.
  destruct (delete_row_present k idx buck e el st Hidx Hbuck Hfind Hne Hel
              Hvalid Hdel Hobs) as (its' & Hd & Hit & _).
  { fold item. now rewrite Hnd, andb_false_r. }
  fold item in Hit.
  set (st1 := unordered_index.set_items its' st) in *.
  destruct (lock_unlock idx buck st1 Hbuck Hfree)
    as (st1l & Hlock & Hb1 & He1 & Hv1 & Hi1 & Hr1 & Hunlock).
  exists st1. eexists. split; [exact Hd|]. split.
  - unfold unordered_index.insert_row.
    change (unordered_index.find_bucket_idx k st1)
      with (unordered_index.find_bucket_idx k st).
    rewrite Hidx. cbn [mbind option_bind]. rewrite Hlock. cbn [mbind option_bind].
    rewrite Hb1. cbn [mbind option_bind].
    unfold unordered_index.find_in_bucket in *. cbn [bucket_entry.chain].
    rewrite He1. change (unordered_index.elems st1) with (unordered_index.elems st).
    rewrite Hfind. cbn [mbind option_bind].
    replace (e =? nullptr) with false by (symmetry; now apply Z.eqb_neq).
    cbn [negb]. rewrite Hunlock. cbn [mbind option_bind].
    change (unordered_index.elems st1) with (unordered_index.elems st).
    rewrite Hel. cbn [mbind option_bind].
    unfold unordered_index.get_item, unordered_index.sto_item,
      unordered_index.set_items. unfold st1, unordered_index.set_items.
    cbn [unordered_index.items].
    rewrite item_get_item, Hit. rewrite valid_not_phantom by done.
    rewrite Hmode, has_delete_flagged. cbn [andb]. reflexivity.
  - unfold unordered_index.put_item, unordered_index.set_items.
    cbn [unordered_index.items unordered_index.map_ unordered_index.elems st1].
    split; [done|]. split; [done|]. cbv zeta.
    rewrite item_get_put by (cbn; apply item_get_key).
    split; [apply has_delete_cleared|]. repeat split.
Qed.

(** ** The unordered index: inserts over rows that are there, and commit *)

Section InsertPresentFacts.
Import unordered_index.
Context {P : params}.

Lemma find_in_chain_found (h : gmap Z (internal_elem.t K V)) (c : list Z) (k : K)
  (e : Z) :
  find_in_chain h c k = Some e -> e <> nullptr ->
  e ∈ c /\ exists el, h !! e = Some el /\ internal_elem.key el = k.
Proof.
  induction c as [|curr rest IH]; cbn.
  - intros [= <-] Hne. done.
  - destruct (h !! curr) as [el|] eqn:Hel; [|done]. cbn.
    destruct (bool_decide_reflect (internal_elem.key el = k)) as [Hk|Hk].
    + intros [= <-] _. split; [left|eauto].
    + intros Hf Hne. destruct (IH Hf Hne) as [Hin Hex]. split; [now right|done].
Qed.

(** [insert_row] on a key whose node is there, can be read, and is not
    flagged deleted by a read-my-writes transaction. *)
Lemma insert_row_present (k : K) (vptr new_elem : Z) (overwrite : bool)
  (idx : nat) (buck : bucket_entry.t) (e : Z) (el : internal_elem.t K V)
  (st : state) :
  find_bucket_idx k st = Some idx ->
  map_ st !! idx = Some buck ->
  TransactionTid.is_locked (bucket_entry.version buck) = false ->
  find_in_bucket st buck k = Some e -> e <> nullptr ->
  elems st !! e = Some el ->
  let item := TransItem.get (TransItem.RecordKey e) (items st) in
  is_phantom el item = false ->
  ReadMyWrite && has_delete item = false ->
  insert_row k vptr overwrite new_elem st
  = if overwrite then
      let st1 :=
        set_items (TransItem.put (TransItem.add_write vptr item)
                     (TransItem.item (TransItem.RecordKey e) (items st))) st in
      if ReadMyWrite && has_insert item
      then (fun s => ((true, true), s)) <$> copy_row e vptr st1
      else Some ((true, true), st1)
    else if Opacity && TransactionTid.is_locked (internal_elem.version el)
    then Some (ins_abort, sto_item (TransItem.RecordKey e) st)
    else Some ((true, true),
               set_items
                 (TransItem.put
                    (TransItem.observed false (internal_elem.version el) item)
                    (TransItem.item (TransItem.RecordKey e) (items st))) st).
Proof.
  intros Hidx Hbuck Hfree Hfind Hne Hel item Hph Hrmw.
  destruct (lock_unlock idx buck st Hbuck Hfree)
    as (st1 & Hlock & Hb1 & He1 & Hv1 & Hi1 & Hr1 & Hunlock).
  unfold insert_row.
  rewrite Hidx. cbn [mbind option_bind]. rewrite Hlock. cbn [mbind option_bind].
  rewrite Hb1. cbn [mbind option_bind].
  unfold find_in_bucket in *. cbn [bucket_entry.chain].
  rewrite He1, Hfind. cbn [mbind option_bind].
  replace (e =? nullptr) with false by (symmetry; now apply Z.eqb_neq).
  cbn [negb]. rewrite Hunlock. cbn [mbind option_bind]. rewrite Hel.
  cbn [mbind option_bind].
  unfold get_item, sto_item, put_item, set_items, select_for_overwrite.
  cbn [items map_ elems values rcu].
  rewrite item_get_item. fold item. rewrite Hph, Hrmw.
  destruct overwrite.
  - replace (has_insert (TransItem.add_write vptr item)) with (has_insert item)
      by reflexivity.
    destruct (ReadMyWrite && has_insert item); [|reflexivity].
    destruct (copy_row e vptr _); reflexivity.
  - rewrite observe_spec.
    destruct (Opacity && TransactionTid.is_locked (internal_elem.version el));
      reflexivity.
Qed.

Lemma is_locked_invalid (v : Z) :
  TransactionTid.is_locked (Z.lor v invalid_bit) = TransactionTid.is_locked v.
Proof.
  unfold TransactionTid.is_locked. f_equal. f_equal.
  apply Z.bits_inj'. intros n Hn. rewrite !Z.land_spec, Z.lor_spec.
  assert (Hd : Z.testbit invalid_bit n && Z.testbit TransactionTid.lock_bit n = false).
  { rewrite <- Z.land_spec.
    change (Z.land invalid_bit TransactionTid.lock_bit) with 0. apply Z.bits_0. }
  destruct (Z.testbit v n), (Z.testbit invalid_bit n),
    (Z.testbit TransactionTid.lock_bit n); done.
Qed.

(** The state an [insert_row] of an absent key leaves, as the later calls
    of the transaction find it. *)
Lemma insert_row_absent_view (k : K) (vptr new_elem : Z) (overwrite : bool)
  (idx : nat) (buck : bucket_entry.t) (v : V) (st : state) :
  find_bucket_idx k st = Some idx ->
  map_ st !! idx = Some buck ->
  find_in_bucket st buck k = Some nullptr ->
  TransactionTid.is_locked (bucket_entry.version buck) = false ->
  new_elem <> nullptr -> elems st !! new_elem = None ->
  deref_or_default st vptr = Some v ->
  let v1 :=
    TransactionTid.unlock
      (TransactionTid.inc_nonopaque_version
         (Z.lor (bucket_entry.version buck) TransactionTid.lock_bit)) in
  let nh := internal_elem.mk k (Z.lor initialized_tid invalid_bit) v false in
  let buck1 := bucket_entry.mk (new_elem :: bucket_entry.chain buck) v1 in
  exists st1,
    insert_row k vptr overwrite new_elem st = Some ((true, false), st1)
    /\ find_bucket_idx k st1 = Some idx
    /\ map_ st1 = <[idx := buck1]> (map_ st)
    /\ map_ st1 !! idx = Some buck1
    /\ elems st1 = <[new_elem := nh]> (elems st)
    /\ find_in_bucket st1 buck1 k = Some new_elem
    /\ values st1 = values st /\ rcu st1 = rcu st
    /\ (exists it0,
          TransItem.get (TransItem.RecordKey new_elem) (items st1)
          = TransItem.add_flags insert_bit (TransItem.add_write vptr it0)
          /\ it0 = TransItem.get (TransItem.RecordKey new_elem) (items st))
    /\ TransItem.get (TransItem.TaggedKey idx) (items st1)
       = (let b := TransItem.get (TransItem.TaggedKey idx) (items st) in
          if TransItem.has_read b
          then TransItem.update_read (bucket_entry.version buck) v1 b
          else b).
Proof.
  intros Hidx Hbuck Hfind Hfree Hnz Hfresh Hv v1 nh buck1.
  pose proof (insert_row_absent_result k vptr new_elem overwrite idx buck v st
                Hidx Hbuck Hfind Hfree Hnz Hfresh Hv) as Hins.
  cbv zeta in Hins. fold v1 nh in Hins.
  match type of Hins with _ = Some (_, ?s) => set (st1 := s) in * end.
  assert (Hlt : (idx < length (map_ st))%nat) by now apply lookup_lt_Some in Hbuck.
  set (b := TransItem.get (TransItem.TaggedKey idx) (items st)) in *.
  assert (Hkb : TransItem.key b = TransItem.TaggedKey idx) by apply item_get_key.
  assert (Hkb' : TransItem.key (TransItem.update_read (bucket_entry.version buck) v1 b)
                 = TransItem.TaggedKey idx).
  { unfold TransItem.update_read. now destruct (_ && _). }
  exists st1. split; [exact Hins|].
  split. { rewrite <- Hidx. apply find_bucket_idx_length. subst st1. cbn.
           apply length_insert. }
  split; [reflexivity|].
  split. { subst st1. cbn. now apply list_lookup_insert_eq. }
  split; [reflexivity|].
  split. { unfold find_in_bucket. subst st1 buck1.
           cbn [bucket_entry.chain find_in_chain elems].
           rewrite lookup_insert_eq. cbn. now rewrite bool_decide_eq_true_2. }
  split; [reflexivity|]. split; [reflexivity|].
  split.
  - eexists. split.
    + subst st1. cbn [items]. apply item_get_put. cbn. apply item_get_key.
    + destruct (TransItem.has_read b).
      * rewrite item_get_put_ne by (rewrite Hkb'; discriminate).
        now rewrite item_get_item_ne.
      * now rewrite item_get_item_ne.
  - subst st1. cbn [items]. cbv zeta.
    rewrite item_get_put_ne by (cbn; rewrite item_get_key; discriminate).
    rewrite item_get_item_ne by discriminate.
    destruct (TransItem.has_read b) eqn:Hr.
    + apply item_get_put. exact Hkb'.
    + apply item_get_item.
Qed.

End InsertPresentFacts.

(** X16.  A second [insert_row] of a key the transaction has just inserted finds
    the node of the first: it returns (true, true) and allocates nothing,
    so the chain holds the key once. *)
Theorem insert_row_twice_allocates_once
  {P : unordered_index.params} (k : unordered_index.K)
  (vptr new_elem vptr2 new_elem2 : Z) (overwrite : bool)
  (idx : nat) (buck : bucket_entry.t) (v : unordered_index.V)
  (st : unordered_index.state) :
  unordered_index.find_bucket_idx k st = Some idx ->
  unordered_index.map_ st !! idx = Some buck ->
  unordered_index.find_in_bucket st buck k = Some nullptr ->
  TransactionTid.is_locked (bucket_entry.version buck) = false ->
  new_elem <> nullptr ->
  unordered_index.elems st !! new_elem = None ->
  unordered_index.deref_or_default st vptr = Some v ->
  unordered_index.ReadMyWrite
  && unordered_index.has_delete
       (TransItem.get (TransItem.RecordKey new_elem) (unordered_index.items st))
  = false ->
  unordered_index.Opacity
  && TransactionTid.is_locked unordered_index.initialized_tid = false ->
  exists st1 st2,
    unordered_index.insert_row k vptr overwrite new_elem st
    = Some ((true, false), st1)
    /\ unordered_index.insert_row k vptr2 false new_elem2 st1
       = Some ((true, true), st2)
    /\ unordered_index.map_ st2 = unordered_index.map_ st1
    /\ unordered_index.elems st2 = unordered_index.elems st1
    /\ bucket_entry.chain <$> (unordered_index.map_ st2 !! idx)
       = Some (new_elem :: bucket_entry.chain buck).
Proof.
  intros Hidx Hbuck Hfind Hfree Hnz Hfresh Hv Hnd Hinit.
  destruct (insert_row_absent_view k vptr new_elem overwrite idx buck v st
              Hidx Hbuck Hfind Hfree Hnz Hfresh Hv)
    as (st1 & Hins & Hidx1 & Hmap1 & Hb1 & Hel1 & Hfind1 & _ & _
        & (it0 & Hit1 & Hit0) & _).
  set (nh := internal_elem.mk k
               (Z.lor unordered_index.initialized_tid unordered_index.invalid_bit)
               v false) in *.
  assert (Hnh : unordered_index.elems st1 !! new_elem = Some nh)
    by (rewrite Hel1; apply lookup_insert_eq).
  pose proof (insert_row_present k vptr2 new_elem2 false idx _ new_elem nh st1
                Hidx1 Hb1 (is_locked_unlock _) Hfind1 Hnz Hnh) as Hsec.
  cbv zeta in Hsec. rewrite Hit1 in Hsec.
  cbn [internal_elem.version nh] in Hsec.
  rewrite is_locked_invalid, Hinit in Hsec.
  exists st1. eexists. split; [exact Hins|]. split.
  - apply Hsec.
    + unfold unordered_index.is_phantom.
      now rewrite has_insert_add_flags, andb_false_r.
    + rewrite has_delete_add_insert. subst it0. exact Hnd.
  - cbn [unordered_index.set_items unordered_index.map_ unordered_index.elems].
    split; [done|]. split; [done|]. now rewrite Hb1.
Qed.

(** X17.  [insert_row] with [overwrite] on a committed row is a blind write: it
    stages the value on the row's item and returns (true, true) without
    observing the row's version, whatever that version is, and leaves the
    table as it was. *)
Theorem insert_row_overwrite_is_blind_write
  {P : unordered_index.params} (k : unordered_index.K) (vptr new_elem : Z)
  (idx : nat) (buck : bucket_entry.t) (e : Z)
  (el : internal_elem.t unordered_index.K unordered_index.V)
  (st : unordered_index.state) :
  unordered_index.find_bucket_idx k st = Some idx ->
  unordered_index.map_ st !! idx = Some buck ->
  TransactionTid.is_locked (bucket_entry.version buck) = false ->
  unordered_index.find_in_bucket st buck k = Some e -> e <> nullptr ->
  unordered_index.elems st !! e = Some el ->
  unordered_index.valid el = true ->
  let item := TransItem.get (TransItem.RecordKey e) (unordered_index.items st) in
  unordered_index.has_insert item = false ->
  unordered_index.ReadMyWrite && unordered_index.has_delete item = false ->
  exists st',
    unordered_index.insert_row k vptr true new_elem st = Some ((true, true), st')
    /\ unordered_index.map_ st' = unordered_index.map_ st
    /\ unordered_index.elems st' = unordered_index.elems st
    /\ TransItem.get (TransItem.RecordKey e) (unordered_index.items st')
       = TransItem.add_write vptr item
    /\ TransItem.has_read
         (TransItem.get (TransItem.RecordKey e) (unordered_index.items st'))
       = TransItem.has_read item.
Proof.
  intros Hidx Hbuck Hfree Hfind Hne Hel Hvalid item Hins Hrmw.
  pose proof (insert_row_present k vptr new_elem true idx buck e el st
                Hidx Hbuck Hfree Hfind Hne Hel (valid_not_phantom el _ Hvalid) Hrmw)
    as Hrow.
  cbv zeta in Hrow. fold item in Hrow. rewrite Hins, andb_false_r in Hrow.
  eexists. split; [exact Hrow|].
  cbn [unordered_index.set_items unordered_index.map_ unordered_index.elems
       unordered_index.items].
  rewrite item_get_put by (cbn; apply item_get_key). repeat split.
Qed.

(** X18.  A transaction's own insert does not spoil its earlier miss.  After a
    [select_row] that found the key absent and observed the bucket,
    [insert_row] of a key of that bucket moves the observation along with
    the bucket's version: the item ends holding the version the bucket has
    after the insert. *)
Theorem miss_then_insert_keeps_observation_current
  {P : unordered_index.params} (k : unordered_index.K)
  (vptr new_elem : Z) (overwrite for_update : bool)
  (idx : nat) (buck : bucket_entry.t) (v : unordered_index.V)
  (st : unordered_index.state) :
  unordered_index.find_bucket_idx k st = Some idx ->
  unordered_index.map_ st !! idx = Some buck ->
  unordered_index.find_in_bucket st buck k = Some nullptr ->
  TransactionTid.is_locked (bucket_entry.version buck) = false ->
  new_elem <> nullptr ->
  unordered_index.elems st !! new_elem = None ->
  unordered_index.deref_or_default st vptr = Some v ->
  TransItem.has_read
    (TransItem.get (TransItem.TaggedKey idx) (unordered_index.items st)) = false ->
  exists st1 st2,
    unordered_index.select_row k for_update st
    = Some ((true, false, 0, nullptr), st1)
    /\ unordered_index.insert_row k vptr overwrite new_elem st1
       = Some ((true, false), st2)
    /\ TransItem.has_read
         (TransItem.get (TransItem.TaggedKey idx) (unordered_index.items st2))
       = true
    /\ Some (TransItem.rdata
               (TransItem.get (TransItem.TaggedKey idx) (unordered_index.items st2)))
       = bucket_entry.version <$> (unordered_index.map_ st2 !! idx).
Proof.
  intros Hidx Hbuck Hfind Hfree Hnz Hfresh Hv Hnr.
  destruct (miss_result k idx buck st Hidx Hbuck Hfind) as [Hsel _].
  specialize (Hsel for_update). rewrite Hfree, andb_false_r in Hsel.
  cbn [negb] in Hsel.
  match type of Hsel with _ = Some (_, ?s) => set (st1 := s) in * end.
  assert (Hb : TransItem.get (TransItem.TaggedKey idx) (unordered_index.items st1)
               = TransItem.observed false (bucket_entry.version buck)
                   (TransItem.get (TransItem.TaggedKey idx)
                      (unordered_index.items st))).
  { subst st1. cbn [unordered_index.items unordered_index.set_items].
    apply item_get_put. cbn. apply item_get_key. }
  destruct (insert_row_absent_view k vptr new_elem overwrite idx buck v st1)
    as (st2 & Hins & _ & _ & Hb2 & _ & _ & _ & _ & _ & Hbi); try done.
  exists st1, st2. split; [exact Hsel|]. split; [exact Hins|].
  rewrite Hbi, Hb2. cbv zeta. rewrite Hb.
  unfold TransItem.observed, TransItem.update_read.
  cbn [TransItem.has_read TransItem.rdata]. rewrite Hnr, Z.eqb_refl.
  cbn. done.
Qed.

(** X19.  An aborted insert is undone by [cleanup]: the node that [insert_row]
    put at the head of the chain is unlinked and handed to the deferred
    deletion, and the key is absent again.  The bucket's version is not
    taken back: its counter stays one above what it was. *)
Theorem insert_then_abort_restores_chain
  {P : unordered_index.params} (k : unordered_index.K)
  (vptr new_elem : Z) (overwrite : bool)
  (idx : nat) (buck : bucket_entry.t) (v : unordered_index.V)
  (st : unordered_index.state) :
  unordered_index.find_bucket_idx k st = Some idx ->
  unordered_index.map_ st !! idx = Some buck ->
  unordered_index.find_in_bucket st buck k = Some nullptr ->
  TransactionTid.is_locked (bucket_entry.version buck) = false ->
  0 <= bucket_entry.version buck < uint64_modulus ->
  new_elem <> nullptr ->
  unordered_index.elems st !! new_elem = None ->
  unordered_index.deref_or_default st vptr = Some v ->
  let v1 :=
    TransactionTid.unlock
      (TransactionTid.inc_nonopaque_version
         (Z.lor (bucket_entry.version buck) TransactionTid.lock_bit)) in
  exists st1 st2,
    unordered_index.insert_row k vptr overwrite new_elem st
    = Some ((true, false), st1)
    /\ unordered_index.cleanup
         (unordered_index.get_item (TransItem.RecordKey new_elem) st1) false st1
       = Some st2
    /\ unordered_index.map_ st2
       = <[idx := bucket_entry.mk (bucket_entry.chain buck) v1]>
           (unordered_index.map_ st)
    /\ TransactionTid.counter v1
       = (TransactionTid.counter (bucket_entry.version buck) + 1) mod 2 ^ 54
    /\ unordered_index.rcu st2 = unordered_index.rcu st ++ [new_elem]
    /\ unordered_index.find_in_bucket st2
         (bucket_entry.mk (bucket_entry.chain buck) v1) k = Some nullptr.
Proof.
  intros Hidx Hbuck Hfind Hfree Hrange Hnz Hfresh Hv v1.
  destruct (insert_row_absent_view k vptr new_elem overwrite idx buck v st
              Hidx Hbuck Hfind Hfree Hnz Hfresh Hv)
    as (st1 & Hins & Hidx1 & Hmap1 & Hb1 & Hel1 & Hfind1 & Hval1 & Hrcu1
        & (it0 & Hit1 & Hit0) & _).
  fold v1 in Hmap1, Hb1, Hfind1.
  set (nh := internal_elem.mk k
               (Z.lor unordered_index.initialized_tid unordered_index.invalid_bit)
               v false) in *.
  assert (Hnh : unordered_index.elems st1 !! new_elem = Some nh)
    by (rewrite Hel1; apply lookup_insert_eq).
  pose proof (remove_result new_elem nh idx _ st1 Hnh Hidx1 Hb1
                (is_locked_unlock _)) as Hrem.
  cbn [bucket_entry.chain bucket_entry.version unordered_index.unlink] in Hrem.
  rewrite Z.eqb_refl in Hrem. cbn [fmap option_fmap option_map] in Hrem.
  exists st1. eexists. split; [exact Hins|]. split.
  - unfold unordered_index.cleanup, unordered_index.get_item.
    rewrite Hit1, has_insert_add_flags.
    cbn [TransItem.key TransItem.add_flags TransItem.add_write].
    subst it0. rewrite item_get_key. rewrite Hnh. cbn [mbind option_bind].
    unfold nh at 1. rewrite new_elem_invalid. cbn [negb orb]. exact Hrem.
  - cbn [unordered_index.map_ unordered_index.rcu unordered_index.elems].
    split. { rewrite Hmap1. apply list_insert_insert_eq. }
    split; [now apply counter_bump|].
    split; [now rewrite Hrcu1|].
    unfold unordered_index.find_in_bucket in *.
    cbn [bucket_entry.chain unordered_index.elems]. rewrite Hel1.
    now apply find_in_chain_fresh.
Qed.

Section InstallFacts.
Import unordered_index.
Context {P : params}.
Variable set_version : Z -> Z -> Z.
Variable set_version_locked : Z -> Z -> Z.

(** The part of [install] that promotes the bucket's version. *)
Lemma install_bucket_part (commit_tid : Z) (idx : nat) (buck : bucket_entry.t)
  (st : state) :
  map_ st !! idx = Some buck ->
  TransactionTid.is_locked (bucket_entry.version buck) = false ->
  exists vb,
    (st1 ← lock idx st;
     buck1 ← map_ st1 !! idx;
     unlock idx
       (if negb (Z.land (bucket_entry.version buck1)
                   TransactionTid.nonopaque_bit =? 0)
        then set_bucket idx
               (bucket_entry.mk (bucket_entry.chain buck1)
                  (set_version (bucket_entry.version buck1) commit_tid)) st1
        else st1))
    = Some (set_bucket idx (bucket_entry.mk (bucket_entry.chain buck) vb) st).
Proof.
  intros Hbuck Hfree.
  rewrite (lock_spec idx buck st) by done. cbn [mbind option_bind].
  rewrite (set_bucket_lookup idx _ buck) by done. cbn [mbind option_bind].
  cbn [bucket_entry.chain bucket_entry.version].
  destruct (negb _).
  - rewrite set_bucket_twice.
    erewrite unlock_spec by (apply (set_bucket_lookup idx _ buck); done).
    rewrite set_bucket_twice. cbn [bucket_entry.chain]. eauto.
  - erewrite unlock_spec by (apply (set_bucket_lookup idx _ buck); done).
    rewrite set_bucket_twice. cbn [bucket_entry.chain]. eauto.
Qed.

(** [install] of an item that is not flagged deleted. *)
Lemma install_write_result (item : TransItem.t) (commit_tid : Z) (e : Z)
  (el : internal_elem.t K V) (w : V) (idx : nat) (buck : bucket_entry.t)
  (st : state) :
  TransItem.key item = TransItem.RecordKey e ->
  elems st !! e = Some el ->
  has_delete item = false ->
  (has_insert item = false ->
   TransItem.wdata item <> nullptr /\ values st !! TransItem.wdata item = Some w) ->
  find_bucket_idx (internal_elem.key el) st = Some idx ->
  map_ st !! idx = Some buck ->
  TransactionTid.is_locked (bucket_entry.version buck) = false ->
  exists st',
    install set_version set_version_locked item commit_tid st = Some st'
    /\ elems st'
       = <[e := internal_elem.mk (internal_elem.key el)
                  (set_version (internal_elem.version el) commit_tid)
                  (if has_insert item then internal_elem.value el else w)
                  (internal_elem.deleted el)]> (elems st)
    /\ bucket_entry.chain <$> map_ st' = bucket_entry.chain <$> map_ st
    /\ values st' = values st /\ rcu st' = rcu st /\ items st' = items st.
Proof.
  intros Hkey Hel Hnd Hw Hidx Hbuck Hfree. unfold install.
  rewrite Hkey, Hel. cbn [mbind option_bind]. rewrite Hnd.
  assert (Hchain : forall vb (s : state),
             map_ s = map_ st ->
             bucket_entry.chain
             <$> map_ (set_bucket idx
                         (bucket_entry.mk (bucket_entry.chain buck) vb) s)
             = bucket_entry.chain <$> map_ st).
  { intros vb s Hs. unfold set_bucket, set_map. cbn [map_]. rewrite Hs.
    rewrite list_fmap_insert. cbn [bucket_entry.chain].
    apply list_insert_id. rewrite list_lookup_fmap, Hbuck. reflexivity. }
  destruct (has_insert item) eqn:Hins; cbn [negb].
  - cbn [mbind option_bind]. rewrite Hel. cbn [mbind option_bind].
    unfold set_elem_version. rewrite Hel. cbn [mbind option_bind].
    cbn [internal_elem.key internal_elem.value internal_elem.deleted].
    set (st1 := set_elems _ st).
    destruct Opacity; cbn [andb].
    + change (find_bucket_idx (internal_elem.key el) st1)
        with (find_bucket_idx (internal_elem.key el) st).
      rewrite Hidx. cbn [mbind option_bind].
      destruct (install_bucket_part commit_tid idx buck st1 Hbuck Hfree)
        as (vb & Hpart).
      rewrite Hpart. eexists. split; [reflexivity|].
      split; [reflexivity|]. split; [now apply Hchain|]. done.
    + eexists. split; [reflexivity|]. done.
  - destruct (Hw eq_refl) as [Hnz Hval].
    unfold copy_row.
    replace (TransItem.wdata item =? nullptr) with false
      by (symmetry; now apply Z.eqb_neq).
    rewrite Hval. cbn [mbind option_bind]. rewrite Hel. cbn [mbind option_bind].
    cbn [set_elems elems]. rewrite lookup_insert_eq. cbn [mbind option_bind].
    unfold set_elem_version. cbn [set_elems elems].
    rewrite lookup_insert_eq. cbn [mbind option_bind].
    cbn [internal_elem.key internal_elem.value internal_elem.deleted
         internal_elem.version].
    rewrite insert_insert_eq, andb_false_r.
    eexists. split; [reflexivity|]. done.
Qed.

End InstallFacts.

(** X20.  [install] publishes the staged value of an update and nothing of an
    insert.  For an item without the delete flag, the row takes the version
    that [set_version] makes of the commit tid; its value becomes the one
    the staged pointer refers to when the item has no insert flag, and stays
    what the node holds when it has one; the chains are not touched. *)
Theorem install_copies_update_only
  {P : unordered_index.params} (set_version set_version_locked : Z -> Z -> Z)
  (item : TransItem.t) (commit_tid : Z) (e : Z)
  (el : internal_elem.t unordered_index.K unordered_index.V)
  (w : unordered_index.V) (idx : nat) (buck : bucket_entry.t)
  (st : unordered_index.state) :
  TransItem.key item = TransItem.RecordKey e ->
  unordered_index.elems st !! e = Some el ->
  unordered_index.has_delete item = false ->
  TransItem.wdata item <> nullptr ->
  unordered_index.values st !! TransItem.wdata item = Some w ->
  unordered_index.find_bucket_idx (internal_elem.key el) st = Some idx ->
  unordered_index.map_ st !! idx = Some buck ->
  TransactionTid.is_locked (bucket_entry.version buck) = false ->
  exists st',
    unordered_index.install set_version set_version_locked item commit_tid st
    = Some st'
    /\ unordered_index.elems st'
       = <[e := internal_elem.mk (internal_elem.key el)
                  (set_version (internal_elem.version el) commit_tid)
                  (if unordered_index.has_insert item
                   then internal_elem.value el else w)
                  (internal_elem.deleted el)]> (unordered_index.elems st)
    /\ bucket_entry.chain <$> unordered_index.map_ st'
       = bucket_entry.chain <$> unordered_index.map_ st.
Proof.
  intros Hkey Hel Hnd Hnz Hval Hidx Hbuck Hfree.
  destruct (install_write_result set_version set_version_locked item commit_tid
              e el w idx buck st Hkey Hel Hnd (fun _ => conj Hnz Hval)
              Hidx Hbuck Hfree) as (st' & Hin & He & Hc & _).
  exists st'. done.
Qed.

(** X21.  The second value of a key inserted twice.  A transaction inserts a key
    with the value [v1] and then calls [insert_row] with [overwrite] and the
    value [v2] on it.  In read-my-writes mode the second call copies [v2]
    into the new node.  Otherwise it only stages the pointer, and since the
    item carries the insert flag [install] copies nothing: the row is
    committed with [v1]. *)
Theorem overwrite_of_own_insert
  {P : unordered_index.params} (set_version set_version_locked : Z -> Z -> Z)
  (k : unordered_index.K) (vptr1 vptr2 new_elem new_elem2 commit_tid : Z)
  (overwrite : bool) (idx : nat) (buck : bucket_entry.t)
  (v1 v2 : unordered_index.V) (st : unordered_index.state) :
  unordered_index.find_bucket_idx k st = Some idx ->
  unordered_index.map_ st !! idx = Some buck ->
  unordered_index.find_in_bucket st buck k = Some nullptr ->
  TransactionTid.is_locked (bucket_entry.version buck) = false ->
  new_elem <> nullptr ->
  unordered_index.elems st !! new_elem = None ->
  unordered_index.deref_or_default st vptr1 = Some v1 ->
  vptr2 <> nullptr ->
  unordered_index.values st !! vptr2 = Some v2 ->
  unordered_index.has_delete
    (TransItem.get (TransItem.RecordKey new_elem) (unordered_index.items st))
  = false ->
  exists st1 st2 st3,
    unordered_index.insert_row k vptr1 overwrite new_elem st
    = Some ((true, false), st1)
    /\ unordered_index.insert_row k vptr2 true new_elem2 st1
       = Some ((true, true), st2)
    /\ unordered_index.install set_version set_version_locked
         (unordered_index.get_item (TransItem.RecordKey new_elem) st2)
         commit_tid st2
       = Some st3
    /\ internal_elem.value <$> (unordered_index.elems st3 !! new_elem)
       = Some (if unordered_index.ReadMyWrite then v2 else v1).
Proof.
  intros Hidx Hbuck Hfind Hfree Hnz Hfresh Hv1 Hnz2 Hv2 Hnd.
  destruct (insert_row_absent_view k vptr1 new_elem overwrite idx buck v1 st
              Hidx Hbuck Hfind Hfree Hnz Hfresh Hv1)
    as (st1 & Hins & Hidx1 & Hmap1 & Hb1 & Hel1 & Hfind1 & Hval1 & Hrcu1
        & (it0 & Hit1 & Hit0) & _).
  set (nh := internal_elem.mk k
               (Z.lor unordered_index.initialized_tid unordered_index.invalid_bit)
               v1 false) in *.
  assert (Hnh : unordered_index.elems st1 !! new_elem = Some nh)
    by (rewrite Hel1; apply lookup_insert_eq).
  match type of Hb1 with _ = Some ?b => set (buck1 := b) in * end.
  assert (Hfree1 : TransactionTid.is_locked (bucket_entry.version buck1) = false)
    by exact (is_locked_unlock _).
  pose proof (insert_row_present k vptr2 new_elem2 true idx buck1 new_elem nh st1
                Hidx1 Hb1 Hfree1 Hfind1 Hnz Hnh) as Hsec.
  cbv zeta in Hsec. rewrite Hit1 in Hsec.
  rewrite has_insert_add_flags, has_delete_add_insert in Hsec.
  replace (unordered_index.has_delete (TransItem.add_write vptr1 it0))
    with (unordered_index.has_delete it0) in Hsec by reflexivity.
  rewrite Hit0, Hnd, andb_false_r, andb_true_r in Hsec.
  unfold unordered_index.is_phantom in Hsec.
  rewrite has_insert_add_flags, andb_false_r in Hsec.
  specialize (Hsec eq_refl eq_refl).
  set (item2 := TransItem.add_write vptr2
                  (TransItem.add_flags unordered_index.insert_bit
                     (TransItem.add_write vptr1
                        (TransItem.get (TransItem.RecordKey new_elem)
                           (unordered_index.items st))))) in *.
  set (st2 := unordered_index.set_items
                (TransItem.put item2
                   (TransItem.item (TransItem.RecordKey new_elem)
                      (unordered_index.items st1))) st1) in *.
  assert (Hk2 : TransItem.key item2 = TransItem.RecordKey new_elem).
  { subst item2. cbn. apply item_get_key. }
  assert (Hi2 : unordered_index.has_insert item2 = true).
  { subst item2.
    change (unordered_index.has_insert (TransItem.add_write vptr2 ?x))
      with (unordered_index.has_insert x).
    apply has_insert_add_flags. }
  assert (Hd2 : unordered_index.has_delete item2 = false).
  { subst item2.
    change (unordered_index.has_delete (TransItem.add_write vptr2 ?x))
      with (unordered_index.has_delete x).
    rewrite has_delete_add_insert. exact Hnd. }
  assert (Hg2 : forall s, unordered_index.items s = unordered_index.items st2 ->
                  unordered_index.get_item (TransItem.RecordKey new_elem) s = item2).
  { intros s Hs. unfold unordered_index.get_item. rewrite Hs. subst st2.
    cbn [unordered_index.items unordered_index.set_items].
    now apply item_get_put. }
  destruct unordered_index.ReadMyWrite eqn:Hmode.
  - (* the value is copied at once *)
    unfold unordered_index.copy_row in Hsec.
    replace (vptr2 =? nullptr) with false in Hsec
      by (symmetry; now apply Z.eqb_neq).
    change (unordered_index.values st2) with (unordered_index.values st1) in Hsec.
    change (unordered_index.elems st2) with (unordered_index.elems st1) in Hsec.
    rewrite Hval1, Hv2, Hnh in Hsec.
    cbn [mbind option_bind fmap option_fmap option_map internal_elem.key
         internal_elem.version internal_elem.deleted nh] in Hsec.
    match type of Hsec with _ = Some (_, ?s) => set (st2' := s) in * end.
    destruct (install_write_result set_version set_version_locked item2
                commit_tid new_elem
                (internal_elem.mk k
                   (Z.lor unordered_index.initialized_tid
                      unordered_index.invalid_bit) v2 false)
                v2 idx buck1 st2' Hk2) as (st3 & Hin & He3 & _);
      try done.
    { subst st2'. cbn. apply lookup_insert_eq. }
    { rewrite Hi2. done. }
    exists st1, st2', st3. split; [exact Hins|]. split; [exact Hsec|].
    split. { rewrite (Hg2 st2') by reflexivity. exact Hin. }
    rewrite He3, lookup_insert_eq. cbn. now rewrite Hi2.
  - (* the pointer is staged, and the insert flag keeps [install] from
       copying *)
    destruct (install_write_result set_version set_version_locked item2
                commit_tid new_elem nh v2 idx buck1 st2 Hk2 Hnh)
      as (st3 & Hin & He3 & _); try done.
    { rewrite Hi2. done. }
    exists st1, st2, st3. split; [exact Hins|]. split; [exact Hsec|].
    split. { rewrite (Hg2 st2) by reflexivity. exact Hin. }
    rewrite He3, lookup_insert_eq. cbn. now rewrite Hi2.
Qed.

(** X22.  The commit of a delete.  After [delete_row] of a committed row,
    [cleanup] alone would fail its assertion, the row being neither invalid
    nor marked deleted; [install] marks the row deleted and gives it the
    version that [set_version_locked] makes of its old version plus one
    increment; the [cleanup] that follows unlinks the node, where it stands
    in the chain, keeps the bucket's version, and hands the node to the
    deferred deletion. *)
Theorem committed_delete_unlinks_the_row
  {P : unordered_index.params} (set_version set_version_locked : Z -> Z -> Z)
  (k : unordered_index.K) (commit_tid : Z)
  (idx : nat) (buck : bucket_entry.t) (e : Z)
  (el : internal_elem.t unordered_index.K unordered_index.V)
  (st : unordered_index.state) :
  unordered_index.find_bucket_idx k st = Some idx ->
  unordered_index.map_ st !! idx = Some buck ->
  TransactionTid.is_locked (bucket_entry.version buck) = false ->
  unordered_index.find_in_bucket st buck k = Some e -> e <> nullptr ->
  unordered_index.elems st !! e = Some el ->
  unordered_index.valid el = true -> internal_elem.deleted el = false ->
  unordered_index.Opacity
  && TransactionTid.is_locked (internal_elem.version el) = false ->
  unordered_index.ReadMyWrite
  && unordered_index.has_delete
       (TransItem.get (TransItem.RecordKey e) (unordered_index.items st)) = false ->
  exists st1 st2 st3 pre post,
    unordered_index.delete_row k st = Some ((true, true), st1)
    /\ (let item := unordered_index.get_item (TransItem.RecordKey e) st1 in
        unordered_index.cleanup item true st1 = None
        /\ unordered_index.install set_version set_version_locked item
             commit_tid st1 = Some st2
        /\ unordered_index.cleanup item true st2 = Some st3)
    /\ unordered_index.elems st2 !! e
       = Some (internal_elem.mk (internal_elem.key el)
                 (set_version_locked (internal_elem.version el)
                    (add64 (internal_elem.version el)
                       TransactionTid.increment_value))
                 (internal_elem.value el) true)
    /\ bucket_entry.chain buck = pre ++ e :: post /\ (e ∉ pre)
    /\ unordered_index.map_ st3
       = <[idx := bucket_entry.mk (pre ++ post) (bucket_entry.version buck)]>
           (unordered_index.map_ st)
    /\ unordered_index.elems st3 = unordered_index.elems st2
    /\ unordered_index.rcu st3 = unordered_index.rcu st ++ [e].
Proof.
  intros Hidx Hbuck Hfree Hfind Hne Hel Hvalid Hdel Hobs Hrmw.
  destruct (delete_row_present k idx buck e el st Hidx Hbuck Hfind Hne Hel
              Hvalid Hdel Hobs Hrmw) as (its' & Hd & Hit & _).
  set (st1 := unordered_index.set_items its' st) in *.
  destruct (find_in_chain_found _ _ _ _ Hfind Hne) as (Hin & el' & Hel' & Hkey).
  rewrite Hel in Hel'. injection Hel' as <-.
  destruct (list_elem_of_split_l _ _ Hin) as (pre & post & Hc & Hpre).
  set (item := unordered_index.get_item (TransItem.RecordKey e) st1).
  assert (Hitem : item
                  = TransItem.add_flags unordered_index.delete_bit
                      (TransItem.observed true (internal_elem.version el)
                         (TransItem.get (TransItem.RecordKey e)
                            (unordered_index.items st)))) by exact Hit.
  assert (Hik : TransItem.key item = TransItem.RecordKey e).
  { rewrite Hitem. cbn. apply item_get_key. }
  assert (Hid : unordered_index.has_delete item = true).
  { rewrite Hitem. apply has_delete_flagged. }
  set (el2 := internal_elem.mk (internal_elem.key el)
                (set_version_locked (internal_elem.version el)
                   (add64 (internal_elem.version el)
                      TransactionTid.increment_value))
                (internal_elem.value el) true).
  set (st2 := unordered_index.set_elems
                (<[e := el2]> (unordered_index.elems st1)) st1).
  assert (Hinst : unordered_index.install set_version set_version_locked item
                    commit_tid st1 = Some st2).
  { unfold unordered_index.install. rewrite Hik.
    change (unordered_index.elems st1) with (unordered_index.elems st).
    rewrite Hel. cbn [mbind option_bind]. now rewrite Hid. }
  assert (Hel2 : unordered_index.elems st2 !! e = Some el2).
  { subst st2. cbn. apply lookup_insert_eq. }
  pose proof (remove_result e el2 idx buck st2 Hel2) as Hrem.
  cbn [internal_elem.key el2] in Hrem. rewrite Hkey in Hrem.
  specialize (Hrem Hidx Hbuck Hfree).
  rewrite Hc, unlink_middle in Hrem by done.
  cbn [fmap option_fmap option_map] in Hrem.
  exists st1, st2. eexists. exists pre, post.
  split; [exact Hd|]. split.
  { fold item. cbv zeta. split; [|split; [exact Hinst|]].
    - unfold unordered_index.cleanup. rewrite Hid, Hik.
      change (unordered_index.elems st1) with (unordered_index.elems st).
      rewrite Hel. cbn [mbind option_bind]. now rewrite Hvalid, Hdel.
    - unfold unordered_index.cleanup. rewrite Hid, Hik, Hel2.
      cbn [mbind option_bind internal_elem.deleted el2].
      rewrite orb_true_r. exact Hrem. }
  split; [exact Hel2|]. split; [exact Hc|]. split; [exact Hpre|].
  repeat split.
Qed.

(** ** The ordered index: rows and node versions *)

(** X23.  In read-my-writes mode [select_row(rid)] of the ordered index answers
    from the write set with a pointer to the pending value: the member
    [value] of the record for a row the transaction inserted, the staged row
    for one it updated. *)
Theorem ordered_select_row_answers_from_write_set
  {P : ordered_index.params} (value_offset rid : Z) (for_update : bool)
  (el : internal_elem.t ordered_index.Str ordered_index.V)
  (w : ordered_index.V) (st : ordered_index.state) :
  ordered_index.ReadMyWrite = true ->
  ordered_index.elems st !! rid = Some el ->
  let item := TransItem.get (TransItem.RecordKey rid) (ordered_index.items st) in
  ordered_index.is_phantom el item = false ->
  ordered_index.has_delete item = false ->
  TransItem.has_write item = true ->
  ordered_index.values st !! (rid + value_offset) = None ->
  (ordered_index.has_insert item = false ->
   ordered_index.values st !! TransItem.wdata item = Some w) ->
  exists p st',
    ordered_index.select_row value_offset rid for_update st
    = Some ((true, true, rid, p), st')
    /\ ordered_index.read_value value_offset st' p
       = Some (if ordered_index.has_insert item then internal_elem.value el
               else w)
    /\ ordered_index.elems st' = ordered_index.elems st
    /\ ordered_index.values st' = ordered_index.values st.
Proof.
  intros Hrmw Hel item Hph Hnd Hw Hfree Hval.
  unfold ordered_index.select_row. rewrite Hel. cbn [mbind option_bind].
  rewrite item_get_item. fold item. rewrite Hph, Hrmw, Hnd, Hw. cbn [andb].
  eexists _, _. split; [reflexivity|]. split; [|done].
  unfold ordered_index.read_value.
  cbn [ordered_index.values ordered_index.elems ordered_index.set_items].
  destruct (ordered_index.has_insert item).
  - rewrite Hfree. replace (rid + value_offset - value_offset) with rid by lia.
    now rewrite Hel.
  - now rewrite Hval.
Qed.

(** X24.  The update of a row read back.  In read-my-writes mode, after
    [select_row(rid, true)] of a committed row and [update_row(rid,
    new_row)], a further [select_row(rid)] returns [new_row] itself, where
    the new value is read. *)
Theorem ordered_update_then_select_reads_new_row
  {P : ordered_index.params} (value_offset rid new_row : Z) (for_update : bool)
  (el : internal_elem.t ordered_index.Str ordered_index.V)
  (w : ordered_index.V) (st : ordered_index.state) :
  ordered_index.ReadMyWrite = true ->
  ordered_index.elems st !! rid = Some el ->
  ordered_index.valid el = true ->
  ordered_index.Opacity
  && TransactionTid.is_locked (internal_elem.version el) = false ->
  TransItem.lookup (TransItem.RecordKey rid) (ordered_index.items st) = None ->
  ordered_index.values st !! new_row = Some w ->
  exists st1 st2 st3,
    ordered_index.select_row value_offset rid true st
    = Some ((true, true, rid, rid + value_offset), st1)
    /\ ordered_index.update_row rid new_row st1 = Some st2
    /\ ordered_index.select_row value_offset rid for_update st2
       = Some ((true, true, rid, new_row), st3)
    /\ ordered_index.read_value value_offset st3 new_row = Some w.
Proof.
  intros Hrmw Hel Hvalid Hobs Hfresh Hval.
  set (k := TransItem.RecordKey rid) in *.
  assert (Hitem : TransItem.get k (ordered_index.items st) = TransItem.fresh k).
  { unfold TransItem.get. now rewrite Hfresh. }
  set (it1 := TransItem.observed true (internal_elem.version el) (TransItem.fresh k)).
  set (st1 := ordered_index.set_items
                (TransItem.put it1 (TransItem.item k (ordered_index.items st)))
                (ordered_index.set_items (TransItem.item k (ordered_index.items st))
                   st)).
  assert (Hsel : ordered_index.select_row value_offset rid true st
                 = Some ((true, true, rid, rid + value_offset), st1)).
  { unfold ordered_index.select_row. rewrite Hel. cbn [mbind option_bind].
    fold k. rewrite item_get_item, Hitem.
    unfold ordered_index.is_phantom. rewrite Hvalid. cbn [negb andb].
    rewrite Hrmw. cbn [andb TransItem.fresh TransItem.has_write].
    change (ordered_index.has_delete (TransItem.fresh k)) with false. cbn iota.
    unfold ordered_index.select_for_update. rewrite observe_spec, Hobs.
    reflexivity. }
  assert (Hg1 : TransItem.get k (ordered_index.items st1) = it1).
  { subst st1. cbn [ordered_index.items ordered_index.set_items].
    now apply item_get_put. }
  set (it2 := TransItem.add_write new_row it1).
  set (st2 := ordered_index.set_items
                (TransItem.put it2 (TransItem.item k (ordered_index.items st1)))
                st1).
  assert (Hupd : ordered_index.update_row rid new_row st1 = Some st2).
  { unfold ordered_index.update_row. fold k. rewrite item_get_item, Hg1.
    reflexivity. }
  assert (Hg2 : TransItem.get k (ordered_index.items st2) = it2).
  { subst st2. cbn [ordered_index.items ordered_index.set_items].
    now apply item_get_put. }
  exists st1, st2. eexists. split; [exact Hsel|]. split; [exact Hupd|]. split.
  - unfold ordered_index.select_row.
    change (ordered_index.elems st2) with (ordered_index.elems st).
    rewrite Hel. cbn [mbind option_bind]. fold k. rewrite item_get_item, Hg2.
    unfold ordered_index.is_phantom. rewrite Hvalid. cbn [negb andb].
    rewrite Hrmw. reflexivity.
  - unfold ordered_index.read_value, st2, st1.
    cbn [ordered_index.values ordered_index.set_items]. now rewrite Hval.
Qed.

(** X25.  [update_internode_version] follows the observation: after a node's
    version [v] was registered on an item without observation, the call
    moves it to [new_nv] and returns true exactly when [prev_nv] is [v];
    otherwise it returns false and the observation stays [v]. *)
Theorem update_internode_version_needs_the_observed_version
  {P : ordered_index.params} (n : nat) (v prev_nv new_nv : Z)
  (st : ordered_index.state) :
  (forall its,
     ordered_index.Opacity && negb (ordered_index.check_opacity its) = false) ->
  TransItem.has_read
    (TransItem.get (ordered_index.get_internode_key n) (ordered_index.items st))
  = false ->
  let st1 := (ordered_index.register_internode_version n v st).2 in
  let r := ordered_index.update_internode_version n prev_nv new_nv st1 in
  (ordered_index.register_internode_version n v st).1 = true
  /\ r.1 = bool_decide (prev_nv = v)
  /\ TransItem.has_read
       (TransItem.get (ordered_index.get_internode_key n)
          (ordered_index.items r.2)) = true
  /\ TransItem.rdata
       (TransItem.get (ordered_index.get_internode_key n)
          (ordered_index.items r.2))
     = if bool_decide (prev_nv = v) then new_nv else v.
Proof.
  intros Hop Hnr. cbv zeta.
  set (k := ordered_index.get_internode_key n) in *.
  unfold ordered_index.register_internode_version. fold k. rewrite Hop.
  cbn [fst snd]. split; [done|].
  rewrite item_get_item. unfold ordered_index.add_read. rewrite Hnr.
  set (it1 := TransItem.mkItem _ _ true v _ _).
  assert (Hk1 : TransItem.key it1 = k) by (subst it1; cbn; apply item_get_key).
  unfold ordered_index.update_internode_version. fold k.
  cbn [ordered_index.items ordered_index.set_items].
  rewrite item_get_item, (item_get_put k it1) by exact Hk1.
  cbn [TransItem.has_read TransItem.rdata it1 andb].
  destruct (Z.eqb_spec prev_nv v) as [->|Hne].
  - rewrite bool_decide_eq_true_2 by done. cbn [fst snd ordered_index.items
      ordered_index.set_items].
    rewrite item_get_put.
    + unfold TransItem.update_read. cbn. now rewrite Z.eqb_refl.
    + unfold TransItem.update_read. cbn. rewrite Z.eqb_refl. exact Hk1.
  - rewrite bool_decide_eq_false_2 by done. cbn [fst snd ordered_index.items
      ordered_index.set_items].
    rewrite item_get_item, (item_get_put k it1) by exact Hk1. done.
Qed.

(** ** Range scans as passes over the entries *)

Section PassFacts.
Import ordered_index.
Context {X : Type}.
Variables skip stop go : Z * Str * Z -> bool.
Variable d : Z * Str * Z -> list X.

Lemma pass_on_ok (ens : list (Z * Str * Z)) :
  pass_on skip stop go ens = true -> pass_ok skip stop go ens = true.
Proof.
  induction ens as [|en rest IH]; [done|]. cbn.
  destruct (skip en); [done|]. destruct (stop en); [done|].
  destruct (go en); done.
Qed.

Lemma pass_log_app (a b : list (Z * Str * Z)) :
  pass_log skip stop go d (a ++ b)
  = pass_log skip stop go d a
    ++ (if pass_on skip stop go a then pass_log skip stop go d b else []).
Proof.
  induction a as [|en rest IH]; [done|]. cbn.
  destruct (skip en); [done|]. destruct (stop en); [done|].
  destruct (go en); [now rewrite IH, app_assoc|]. now rewrite !app_nil_r.
Qed.

Lemma pass_ok_app (a b : list (Z * Str * Z)) :
  pass_ok skip stop go (a ++ b)
  = pass_ok skip stop go a
    && (if pass_on skip stop go a then pass_ok skip stop go b else true).
Proof.
  induction a as [|en rest IH]; [done|]. cbn.
  destruct (skip en); [done|]. destruct (stop en); [done|].
  destruct (go en); done.
Qed.

Lemma pass_skipped (a b : list (Z * Str * Z)) :
  Forall (fun en => skip en = true) a ->
  pass_log skip stop go d (a ++ b) = pass_log skip stop go d b
  /\ pass_ok skip stop go (a ++ b) = pass_ok skip stop go b.
Proof.
  induction 1 as [|en rest Hen Hrest IH]; [done|]. cbn. now rewrite Hen.
Qed.

End PassFacts.

Section PassScan.
Import ordered_index.
Import range_scanner.

Context {S X : Type}.
Variable node_callback_ : nat -> Z -> S -> bool * S.
Variable value_callback_ : Str -> Z -> S -> option (bool * bool * S).
Variable Reverse : bool.
Variable Inv : S -> Prop.
Variable m : S -> list X.
Variable d : Z * Str * Z -> list X.
Variables stop go : Z * Str * Z -> bool.
Variable ScInv : t -> Prop.
Variable ents : list (Z * Str * Z).
Variable begin : Str.

Let skip (en : Z * Str * Z) : bool := negb (str_le begin en.1.2).
Let test (sc : t) (en : Z * Str * Z) : bool :=
  boundary_compar_ sc
  && ((Reverse && str_le en.1.2 (boundary_ sc))
      || (negb Reverse && str_le (boundary_ sc) en.1.2)).

Hypothesis value_ok :
  forall en s, en ∈ ents -> Inv s ->
    exists ok visited s',
      value_callback_ en.1.2 en.2 s = Some (ok, visited, s')
      /\ Inv s' /\ m s' = m s ++ d en /\ ok && visited = go en.
Hypothesis leaf_ok :
  forall l sc s,
    leaf_wf l -> StronglySorted key_lt (entries l) -> ScInv sc -> Inv s ->
    exists sc' s',
      visit_leaf node_callback_ Reverse l (entry_key l) sc s = Some (sc', s')
      /\ ScInv sc' /\ scan_succeeded_ sc' = scan_succeeded_ sc
      /\ Inv s' /\ m s' = m s
      /\ Forall (fun en => test sc' en = stop en) (entries l).

Lemma scan_values_pass (ens : list (Z * Str * Z)) (sc : t) (s : S) :
  ens ⊆ ents -> Forall (fun en => test sc en = stop en) ens -> Inv s ->
  exists s',
    scan_values value_callback_ Reverse begin ens sc s
    = Some (pass_on skip stop go ens,
            if pass_ok skip stop go ens then sc else set_succeeded false sc, s')
    /\ Inv s' /\ m s' = m s ++ pass_log skip stop go d ens.
Proof.
  revert s. induction ens as [|en ens IH]; intros s Hsub Htest Hinv.
  - exists s. cbn. now rewrite app_nil_r.
  - apply Forall_cons in Htest as [Hen Htest].
    assert (Hsub' : ens ⊆ ents) by (intros x Hx; apply Hsub; now right).
    destruct en as [[ik k] e]. cbn [scan_values pass_on pass_ok pass_log].
    assert (Hsk : skip (ik, k, e) = negb (str_le begin k)) by reflexivity.
    rewrite !Hsk.
    destruct (str_le begin k) eqn:Hbk; cbn [negb]; cbv iota.
    + unfold visit_value. unfold test in Hen. cbn [fst snd] in Hen. rewrite Hen.
      destruct (stop (ik, k, e)) eqn:Hstop; cbv iota.
      * exists s. now rewrite app_nil_r.
      * destruct (value_ok (ik, k, e) s) as (ok & vis & s1 & Hcb & Hinv1 & Hm1 & Hgo);
          [apply Hsub; left|done|].
        cbn [fst snd] in Hcb. rewrite Hcb. rewrite <- Hgo.
        destruct ok; cbn [negb andb]; cbv iota.
        -- destruct vis; cbn [negb]; cbv iota.
           ++ destruct (IH s1 Hsub' Htest Hinv1) as (s' & Hscan & Hinv' & Hm').
              exists s'. split; [exact Hscan|]. split; [done|].
              now rewrite Hm', Hm1, <- app_assoc.
           ++ exists s1. now rewrite app_nil_r.
        -- exists s1. now rewrite app_nil_r.
    + apply IH; done.
Qed.

Lemma scan_leaves_pass (ls : list leaf) (sc : t) (s : S) :
  table_wf ls -> all_entries ls ⊆ ents -> ScInv sc -> Inv s ->
  exists sc' s',
    scan_leaves node_callback_ value_callback_ Reverse begin ls sc s
    = Some (sc', s')
    /\ Inv s'
    /\ m s' = m s ++ pass_log skip stop go d (all_entries ls)
    /\ scan_succeeded_ sc'
       = scan_succeeded_ sc && pass_ok skip stop go (all_entries ls).
Proof.
  intros [Hwf Hsorted]. revert sc s.
  induction Hwf as [|l ls Hl Hwf IH]; intros sc s Hsub Hsc Hinv.
  - exists sc, s. cbn. now rewrite app_nil_r, andb_true_r.
  - rewrite all_entries_cons in Hsorted, Hsub.
    apply StronglySorted_app in Hsorted as (Hcross & Hs1 & Hs2).
    cbn [scan_leaves].
    destruct (leaf_ok l sc s Hl Hs1 Hsc Hinv)
      as (sc1 & s1 & Hleaf & Hsc1 & Hok1 & Hinv1 & Hm1 & Htest).
    rewrite Hleaf.
    destruct (scan_values_pass (entries l) sc1 s1) as (s2 & Hscan & Hinv2 & Hm2);
      try done.
    { intros x Hx. apply Hsub. apply elem_of_app. now left. }
    rewrite Hscan, all_entries_cons, pass_log_app, pass_ok_app.
    destruct (pass_on skip stop go (entries l)) eqn:Hon.
    + rewrite (pass_on_ok _ _ _ _ Hon). cbn [andb].
      destruct (IH Hs2 sc1 s2) as (sc' & s' & Hrest & Hinv' & Hm' & Hok');
        try done.
      { intros x Hx. apply Hsub. apply elem_of_app. now right. }
      exists sc', s'. split; [exact Hrest|]. split; [done|].
      split; [now rewrite Hm', Hm2, Hm1, app_assoc|]. now rewrite Hok', Hok1.
    + eexists _, s2. split; [reflexivity|]. split; [done|].
      rewrite app_nil_r, andb_true_r. split; [now rewrite Hm2, Hm1|].
      destruct (pass_ok skip stop go (entries l)); cbn; [now rewrite andb_true_r|].
      now rewrite andb_false_r.
Qed.

(** The leaves passed by on the way down hold keys before [begin] only. *)
Lemma descend_pass (ls : list leaf) :
  table_wf ls ->
  table_wf (descend begin ls)
  /\ all_entries (descend begin ls) ⊆ all_entries ls
  /\ pass_log skip stop go d (all_entries (descend begin ls))
     = pass_log skip stop go d (all_entries ls)
  /\ pass_ok skip stop go (all_entries (descend begin ls))
     = pass_ok skip stop go (all_entries ls).
Proof.
  induction ls as [|l ls IH]; intros Hwf; [done|].
  cbn [descend]. destruct ls as [|l' ls']; [done|].
  destruct (head (entries l')) as [[[ik k] e]|] eqn:Hhead; [|done].
  destruct (str_le k begin) eqn:Hk; [|done].
  destruct Hwf as [Hall Hsorted]. rewrite all_entries_cons in Hsorted.
  apply StronglySorted_app in Hsorted as (Hcross & Hs1 & Hs2).
  destruct IH as (IH1 & IH2 & IH3 & IH4).
  { split; [now apply Forall_inv_tail in Hall|done]. }
  assert (Hskip : Forall (fun en => skip en = true) (entries l)).
  { apply Forall_forall. intros x Hx.
    assert (Hlt : key_lt x (ik, k, e)).
    { apply (Hcross x (ik, k, e) Hx).
      rewrite all_entries_cons. apply elem_of_app. left.
      destruct (entries l') as [|en' ens']; [done|].
      cbn in Hhead. injection Hhead as ->. left. }
    unfold key_lt in Hlt. cbn [fst snd] in Hlt. apply str_le_lex in Hk.
    pose proof (lex_lt_le_trans _ _ _ Hlt Hk) as H1.
    unfold skip. apply negb_true_iff.
    destruct (str_le begin x.1.2) eqn:Hle; [|done].
    apply str_le_lex in Hle. rewrite (lex_antisym x.1.2 begin) in Hle. lia. }
  split; [exact IH1|]. split.
  - intros x Hx. rewrite all_entries_cons. apply elem_of_app. right. now apply IH2.
  - rewrite IH3, IH4, (all_entries_cons l).
    destruct (pass_skipped skip stop go d (entries l) (all_entries (l' :: ls')) Hskip)
      as [-> ->]. done.
Qed.

(** The scan as a whole is the pass over the entries of the table. *)
Lemma scan_pass (ls : list leaf) (end_ : Str) (s : S) :
  table_wf ls -> all_entries ls ⊆ ents -> ScInv (make end_) -> Inv s ->
  exists sc' s',
    scan node_callback_ value_callback_ Reverse begin ls (make end_) s
    = Some (sc', s')
    /\ Inv s'
    /\ m s' = m s ++ pass_log skip stop go d (all_entries ls)
    /\ scan_succeeded_ sc' = pass_ok skip stop go (all_entries ls).
Proof.
  intros Hwf Hsub Hsc Hinv. unfold scan.
  destruct (descend_pass ls Hwf) as (Hwf' & Hsub' & Hlog & Hok).
  rewrite <- Hlog, <- Hok.
  destruct (scan_leaves_pass (descend begin ls) (make end_) s)
    as (sc' & s' & Hscan & Hinv' & Hm' & Hok'); try done.
  { intros x Hx. apply Hsub. now apply Hsub'. }
  exists sc', s'. done.
Qed.

End PassScan.

Section PassRows.
Import ordered_index.
Context {Y : Type}.
Variable f : Z * Str * Z -> option Y.
Variable acc : Y -> bool.
Variable begin : Str.

Let skip (en : Z * Str * Z) : bool := negb (str_le begin en.1.2).
Let d (en : Z * Str * Z) : list Y := option_list (f en).
Let go (en : Z * Str * Z) : bool := from_option acc true (f en).

Lemma pass_cons_row (stop : Z * Str * Z -> bool) (en : Z * Str * Z)
  (rest : list (Z * Str * Z)) (rows : list Y) :
  skip en = false -> stop en = false ->
  pass_log skip stop go d rest = through_first (fun y => negb (acc y)) rows ->
  pass_ok skip stop go rest = forallb acc rows ->
  pass_log skip stop go d (en :: rest)
  = through_first (fun y => negb (acc y))
      (match f en with Some y => y :: rows | None => rows end)
  /\ pass_ok skip stop go (en :: rest)
     = forallb acc (match f en with Some y => y :: rows | None => rows end).
Proof.
  intros Hskip Hstop Hlog Hok. cbn [pass_log pass_ok]. rewrite Hskip, Hstop.
  assert (Hd : d en = option_list (f en)) by reflexivity.
  assert (Hg : go en = from_option acc true (f en)) by reflexivity.
  rewrite Hd, Hg.
  destruct (f en) as [y|];
    cbn [option_list from_option app through_first forallb]; [|done].
  destruct (acc y); cbn [negb andb]; cbv iota; [now rewrite Hlog, Hok|done].
Qed.

(** A pass that no entry from [begin] on stops. *)
Lemma pass_never_stopped (stop : Z * Str * Z -> bool) (ens : list (Z * Str * Z)) :
  (forall en, en ∈ ens -> skip en = false -> stop en = false) ->
  let rows := omap f (filter (fun en => str_le begin en.1.2 = true) ens) in
  pass_log skip stop go d ens = through_first (fun y => negb (acc y)) rows
  /\ pass_ok skip stop go ens = forallb acc rows.
Proof.
  cbv zeta. induction ens as [|en rest IH]; intros Hstop; [done|].
  destruct IH as [IH1 IH2]. { intros x Hx. apply Hstop. now right. }
  destruct (str_le begin en.1.2) eqn:Hb.
  - rewrite filter_cons_True by done. cbn [omap].
    apply pass_cons_row; try done.
    + unfold skip. now rewrite Hb.
    + apply Hstop; [left|]. unfold skip. now rewrite Hb.
  - rewrite filter_cons_False by (rewrite Hb; done).
    assert (Hsk : skip en = true) by (unfold skip; now rewrite Hb).
    cbn [pass_log pass_ok]. rewrite Hsk. done.
Qed.

(** A forward pass that stops at the first key from [end_] on. *)
Lemma pass_bounded (end_ : Str) (ens : list (Z * Str * Z)) :
  StronglySorted key_lt ens ->
  let stop := fun en : Z * Str * Z => str_le end_ en.1.2 in
  let rows := omap f (filter (fun en => in_range begin end_ en = true) ens) in
  pass_log skip stop go d ens = through_first (fun y => negb (acc y)) rows
  /\ pass_ok skip stop go ens = forallb acc rows.
Proof.
  cbv zeta. induction 1 as [|en rest Hs IH Hall]; [done|].
  destruct IH as [IH1 IH2].
  destruct (str_le begin en.1.2) eqn:Hb.
  - destruct (str_le end_ en.1.2) eqn:He.
    + rewrite filter_cons_False.
      2:{ unfold in_range. intros Hin. apply andb_true_iff in Hin as [_ Hin].
          apply str_lt_lex in Hin. apply str_le_lex in He.
          rewrite (lex_antisym end_ en.1.2) in Hin. lia. }
      rewrite (none_in_range_after begin end_ en rest He Hall).
      assert (Hsk : skip en = false) by (unfold skip; now rewrite Hb).
      cbn [pass_log pass_ok omap]. rewrite Hsk, He. done.
    + rewrite filter_cons_True.
      2:{ unfold in_range. rewrite Hb. cbn. apply str_lt_lex.
          assert (~ lex end_ en.1.2 <= 0) as Hn.
          { intros Hle. apply str_le_lex in Hle. congruence. }
          rewrite (lex_antisym end_ en.1.2). lia. }
      cbn [omap]. apply pass_cons_row; try done. unfold skip. now rewrite Hb.
  - rewrite filter_cons_False.
    2:{ unfold in_range. now rewrite Hb. }
    assert (Hsk : skip en = true) by (unfold skip; now rewrite Hb).
    cbn [pass_log pass_ok]. rewrite Hsk. done.
Qed.

End PassRows.

Section RangeScanPass.
Import ordered_index.
Import range_scanner.
Context {P : params}.
Variable callback : Str -> V -> bool.
Variable st0 : state.

Hypothesis opacity_ok : forall its, Opacity && negb (check_opacity its) = false.

Lemma node_callback_pass (n : nat) (v : Z) (st : state) :
  scan_inv st0 st ->
  exists st',
    node_callback n v st = (true, st') /\ scan_inv st0 st'
    /\ delivered st' = delivered st.
Proof.
  intros Hinv.
  destruct (node_callback_ok st0 n v st opacity_ok Hinv) as (st' & Heq & Hinv' & _).
  exists st'. split; [exact Heq|]. split; [exact Hinv'|].
  unfold node_callback, register_internode_version in Heq.
  rewrite opacity_ok in Heq. now injection Heq as <-.
Qed.

(** What the value callback does with an entry whose record can be
    observed: a valid record is handed to the user's callback, whose answer
    decides whether the scan goes on; a record that is not valid is passed
    over in silence. *)
Lemma value_callback_pass (en : Z * Str * Z) (st : state) :
  readable st0 en -> scan_inv st0 st ->
  exists ok visited st',
    value_callback callback en.1.2 en.2 st = Some (ok, visited, st')
    /\ scan_inv st0 st'
    /\ delivered st' = delivered st ++ option_list (committed_row st0 en)
    /\ ok && visited
       = from_option (fun kv : Str * V => callback kv.1 kv.2) true
           (committed_row st0 en).
Proof.
  intros (el & Hel & Hobs) (Ht & He & Hv & Hw).
  unfold value_callback, committed_row. rewrite He, Hel. cbn [mbind option_bind].
  set (its := TransItem.item (TransItem.RecordKey en.2) (items st)).
  set (item := TransItem.get (TransItem.RecordKey en.2) its).
  assert (Hclean : ReadMyWrite = false
                   \/ (TransItem.has_write item = false /\ has_delete item = false)).
  { destruct Hw as [Hw|Hw]; [now left|right].
    apply no_writes_get. now apply no_writes_item. }
  assert (Hrd : ReadMyWrite && has_delete item = false).
  { destruct Hclean as [->|[_ ->]]; [done|apply andb_false_r]. }
  assert (Hrw : ReadMyWrite && TransItem.has_write item = false).
  { destruct Hclean as [->|[-> _]]; [done|apply andb_false_r]. }
  rewrite Hrd, Hrw, observe_spec, Hobs.
  assert (Hinv' : forall it',
             TransItem.has_write it' = TransItem.has_write item ->
             has_delete it' = has_delete item ->
             ReadMyWrite = false \/ no_writes (TransItem.put it' its)).
  { intros it' H1 H2. destruct Hw as [Hw|Hw]; [now left|right].
    destruct (no_writes_get (TransItem.RecordKey en.2) its
                (no_writes_item _ _ Hw)) as [H3 H4].
    apply no_writes_put;
      [now apply no_writes_item|rewrite H1; exact H3|rewrite H2; exact H4]. }
  destruct (valid el) eqn:Hvalid; cbn [negb].
  - eexists _, _, _. split; [reflexivity|]. split.
    + repeat split; try done. cbn [items deliver set_items]. now apply Hinv'.
    + cbn. done.
  - eexists _, _, _. split; [reflexivity|]. split.
    + repeat split; try done. cbn [items set_items]. now apply Hinv'.
    + cbn. now rewrite app_nil_r.
Qed.

End RangeScanPass.

Section LeafFacts.
Import ordered_index.
Import range_scanner.

(** A key that starts as [b] does, where [a] is smaller within the first
    [n] bytes, lies after [a]. *)
Lemma memcmp_neg_lex (a b k : Str) (n : nat) :
  memcmp a b n < 0 -> take n k = take n b -> (n <= length b)%nat ->
  lex a k < 0.
Proof.
  revert a b k. induction n as [|n IH]; intros a b k; [cbn; intros; lia|].
  destruct a as [|x a], b as [|y b]; cbn [memcmp length]; try (intros; lia).
  destruct k as [|z k]; [cbn; discriminate|].
  cbn [take lex]. intros Hneg [= -> Htk] Hlen.
  destruct (Z.ltb_spec (byte_val x) (byte_val y)); [lia|].
  destruct (Z.ltb_spec (byte_val y) (byte_val x)); [lia|].
  apply (IH a b k); [done|done|lia].
Qed.

(** The test a reverse scanner makes on entering a leaf: when it leaves
    the comparisons off, every key of the leaf lies after the boundary. *)
Lemma check_reverse_sound (l : leaf) (sc : t) :
  leaf_wf l ->
  exists sc',
    check true l (entry_key l) sc = Some sc'
    /\ boundary_ sc' = boundary_ sc
    /\ scan_succeeded_ sc' = scan_succeeded_ sc
    /\ (boundary_compar_ sc' = false ->
        Forall (fun en : Z * Str * Z => lex (boundary_ sc) en.1.2 < 0) (entries l)).
Proof.
  intros (Hne & Hpl & Hents). unfold check. cbn [negb].
  set (b := boundary_ sc) in *. set (pl := prefix_length (entry_key l)) in *.
  set (full := full_string (entry_key l)) in *.
  set (n := Nat.min (length b) pl) in *.
  set (cmp := memcmp b full n) in *.
  destruct (Z.leb_spec 0 cmp) as [Hge|Hlt].
  - eexists. split; [reflexivity|]. cbn. repeat split. done.
  - exists sc. split; [reflexivity|]. split; [done|]. split; [done|].
    intros _. rewrite Forall_forall in Hents |- *.
    intros en Hen. destruct (Hents _ Hen) as (r & Hk & _).
    apply (memcmp_neg_lex b full en.1.2 n); [fold cmp; lia| |subst n; lia].
    rewrite Hk. unfold leaf_prefix. fold pl full.
    rewrite take_app_le by (rewrite length_take; subst n; lia).
    rewrite take_take. f_equal. subst n. lia.
Qed.

End LeafFacts.

Section RangeScanRows.
Import ordered_index.
Import range_scanner.
Context {P : params}.
Variable callback : Str -> V -> bool.
Variable st0 : state.

Hypothesis opacity_ok : forall its, Opacity && negb (check_opacity its) = false.
Hypothesis table_ok : table_wf (table_ st0).
Hypothesis readable_ok : Forall (readable st0) (all_entries (table_ st0)).
Hypothesis writes_ok : ReadMyWrite = false \/ no_writes (items st0).

Let accepts (kv : Str * V) : bool := callback kv.1 kv.2.

(** A scan of the table is a pass over its entries, for any way [stop] of
    ending at the boundary that the scanner's test on entering a leaf
    agrees with. *)
Lemma range_scan_pass (Reverse : bool) (begin end_ : Str)
  (stop : Z * Str * Z -> bool) (ScInv : t -> Prop) :
  ScInv (make end_) ->
  (forall l sc st,
     leaf_wf l -> StronglySorted key_lt (entries l) -> ScInv sc ->
     scan_inv st0 st ->
     exists sc' st',
       visit_leaf node_callback Reverse l (entry_key l) sc st = Some (sc', st')
       /\ ScInv sc' /\ scan_succeeded_ sc' = scan_succeeded_ sc
       /\ scan_inv st0 st' /\ delivered st' = delivered st
       /\ Forall (fun en : Z * Str * Z =>
                    boundary_compar_ sc'
                    && ((Reverse && str_le en.1.2 (boundary_ sc'))
                        || (negb Reverse && str_le (boundary_ sc') en.1.2))
                    = stop en) (entries l)) ->
  let skip := fun en : Z * Str * Z => negb (str_le begin en.1.2) in
  let go := fun en => from_option accepts true (committed_row st0 en) in
  let d := fun en => option_list (committed_row st0 en) in
  exists st',
    range_scan Reverse begin end_ callback st0
    = Some (pass_ok skip stop go (all_entries (table_ st0)), st')
    /\ delivered st'
       = delivered st0 ++ pass_log skip stop go d (all_entries (table_ st0))
    /\ table_ st' = table_ st0 /\ elems st' = elems st0.
Proof.
  intros Hsc Hleaf skip go d.
  destruct (scan_pass node_callback (value_callback callback) Reverse
              (scan_inv st0) delivered d stop go ScInv
              (all_entries (table_ st0)) begin)
    with (ls := table_ st0) (end_ := end_) (s := st0)
    as (sc' & st' & Hscan & Hinv & Hm & Hok); try done.
  - intros en s Hin Hs. apply value_callback_pass; [|done].
    rewrite Forall_forall in readable_ok. now apply readable_ok.
  - exists st'. unfold range_scan. rewrite Hscan.
    cbn [mbind option_bind fst snd]. rewrite Hok.
    destruct Hinv as (Ht & He & _). done.
Qed.

End RangeScanRows.




(** X29.  The test the scanner makes on entering a leaf may leave the
    comparisons of [visit_value] off only when they could not end the scan
    there: when [check] leaves [boundary_compar_] false, every key of the
    leaf lies before the boundary in a forward scan, and after it in a
    reverse one. *)
Theorem scanner_check_is_sound
  (Reverse : bool) (l : ordered_index.leaf)
  (sc : ordered_index.range_scanner.t) :
  ordered_index.leaf_wf l ->
  StronglySorted ordered_index.key_lt (ordered_index.entries l) ->
  exists sc',
    ordered_index.range_scanner.check Reverse l (ordered_index.entry_key l) sc
    = Some sc'
    /\ ordered_index.range_scanner.boundary_ sc'
       = ordered_index.range_scanner.boundary_ sc
    /\ ordered_index.range_scanner.scan_succeeded_ sc'
       = ordered_index.range_scanner.scan_succeeded_ sc
    /\ (ordered_index.range_scanner.boundary_compar_ sc' = false ->
        Forall (fun en : Z * ordered_index.Str * Z =>
                  if Reverse
                  then ordered_index.str_lt
                         (ordered_index.range_scanner.boundary_ sc) en.1.2 = true
                  else ordered_index.str_lt en.1.2
                         (ordered_index.range_scanner.boundary_ sc) = true)
          (ordered_index.entries l)).
Proof.
  intros Hl Hs. destruct Reverse.
  - destruct (check_reverse_sound l sc Hl) as (sc' & Hc & Hb & Hok & Hoff).
    exists sc'. split; [exact Hc|]. split; [exact Hb|]. split; [exact Hok|].
    intros Hf. eapply Forall_impl; [exact (Hoff Hf)|].
    intros en Hlt. now apply str_lt_lex.
  - destruct (check_forward_sound l sc Hl Hs) as (sc' & Hc & Hb & Hok & Hoff).
    exists sc'. split; [exact Hc|]. split; [exact Hb|]. split; [exact Hok|].
    intros Hf. eapply Forall_impl; [exact (Hoff Hf)|].
    intros en Hlt. now apply str_lt_lex.
Qed.

(** ** The TPC-C input generator *)

(** X30.  [nurand] stays in its range: whatever the two random draws are, the
    result lies between [x] and [y], for [x <= y] that do not span all of
    [uint64_t] (where the remainder would be by zero). *)
Theorem nurand_stays_in_range (a c x y r_a r_xy : Z) :
  0 <= x <= y -> y - x + 1 < uint64_modulus -> y < uint64_modulus ->
  0 <= r_a ->
  exists n,
    tpcc_input_generator.nurand a c x y r_a r_xy = Some n /\ x <= n <= y.
Proof.
  intros Hxy Hspan Hy Hra. unfold tpcc_input_generator.nurand.
  rewrite (Z.mod_small (y - x + 1)) by lia.
  replace (y - x + 1 =? 0) with false by (symmetry; apply Z.eqb_neq; lia).
  set (r1 := Z.lor r_a (add64 r_xy c)).
  assert (Hr1 : 0 <= r1).
  { apply Z.lor_nonneg. split; [lia|]. unfold add64.
    apply Z.mod_pos_bound. unfold uint64_modulus. lia. }
  pose proof (Z.mod_pos_bound r1 (y - x + 1) ltac:(lia)) as Hm.
  eexists. split; [reflexivity|]. unfold add64.
  rewrite Z.mod_small by lia. lia.
Qed.

(** ** The further properties on concrete inputs *)

(** A group of four slots holding three entries: the next deferral is
    refused although its epoch is the group's and one slot is free. *)
Lemma rcu_group_add_needs_two_slots_witness :
  TRcuGroup.add 5 300 3
    (TRcuGroup.mkGroup 0 3 4 5
       [TRcuGroup.mkElement 0 5; TRcuGroup.mkElement 100 1;
        TRcuGroup.mkElement 200 2; TRcuGroup.mkElement 0 0]) = None.
Proof.
  destruct (rcu_group_add_needs_two_slots 5 300 3
              (TRcuGroup.mkGroup 0 3 4 5
                 [TRcuGroup.mkElement 0 5; TRcuGroup.mkElement 100 1;
                  TRcuGroup.mkElement 200 2; TRcuGroup.mkElement 0 0]))
    as [Hiff _].
  - unfold TRcuGroup.wf, unsigned_modulus. cbn. lia.
  - unfold unsigned_modulus. cbn. lia.
  - destruct (TRcuGroup.add 5 300 3 _) as [g'|] eqn:E; [|reflexivity].
    exfalso. assert (Hs : is_Some (Some g')) by eauto.
    apply Hiff in Hs. cbn in Hs. lia.
Defined.

(** Three deferrals over two epochs, one of them with a null function:
    the destructor calls the two others, in order. *)
Lemma rcu_group_free_runs_what_was_added_witness :
  exists g g',
    TRcuGroup.add_seq [(5, 100, 1); (5, 0, 9); (6, 200, 2)]
      (TRcuGroup.make 8 0 (replicate 8 (TRcuGroup.mkElement 0 0))) = Some g
    /\ TRcuGroup.destroy g [] = Some (g', [(100, 1); (200, 2)])
    /\ TRcuGroup.head_ g' = TRcuGroup.tail_ g'.
Proof.
  apply (rcu_group_free_runs_what_was_added 8 0
           (replicate 8 (TRcuGroup.mkElement 0 0))
           [(5, 100, 1); (5, 0, 9); (6, 200, 2)] []).
  - reflexivity.
  - unfold unsigned_modulus. lia.
  - cbn. lia.
Defined.

(** A set cleaned up to epoch 5, an action deferred at epoch 3, and the
    set cleaned up to epoch 5 again: the action is not run. *)
Lemma rcu_set_clean_until_same_epoch_skips_witness :
  exists s2,
    TRcuSet.add grow_by_eight 3 100 1 (TRcuSet.clean_until 5 one_group_set []).1
    = Some s2
    /\ TRcuSet.clean_until 5 s2 [] = (s2, []).
Proof.
  eexists. split; [vm_compute; reflexivity|].
  apply (rcu_set_clean_until_same_epoch_skips grow_by_eight 5 3 100 1
           one_group_set _ []).
  - intros s'. reflexivity.
  - vm_compute. reflexivity.
Defined.

(** The key 5 behind the key 7 on one chain: the walk returns the node of
    5. *)
Lemma find_in_bucket_returns_first_match_witness :
  unordered_index.find_in_bucket (P := uint_index true false)
    (two_row_table true false) (bucket_entry.mk [8192; 4096] 0) 5 = Some 4096.
Proof.
  destruct (find_in_bucket_returns_first_match (P := uint_index true false)
              (two_row_table true false) (bucket_entry.mk [8192; 4096] 0) 5)
    as (r & Hr & _).
  - intros e He. cbn in He.
    apply elem_of_cons in He as [->|He]; [split; [discriminate|vm_compute; eauto]|].
    apply list_elem_of_singleton in He as ->. split; [discriminate|vm_compute; eauto].
  - rewrite Hr. vm_compute in Hr. symmetry. exact Hr.
Defined.

(** The node of the key 5, second on its chain, is unlinked: the node of 7
    stays, and the node goes to the deferred deletion. *)
Lemma remove_unlinks_the_node_witness :
  unordered_index._remove (P := uint_index true false) 4096 (two_row_table true false)
  = Some (unordered_index.mkState (P := uint_index true false)
            [bucket_entry.mk [] 0; bucket_entry.mk [8192] 0]
            (unordered_index.elems (two_row_table true false))
            (unordered_index.values (two_row_table true false)) [] [4096]).
Proof.
  destruct (remove_unlinks_the_node (P := uint_index true false) 4096
              (internal_elem.mk 5 1024 77 false) 1%nat
              (bucket_entry.mk [8192; 4096] 0) (two_row_table true false))
    as [Hin _]; [vm_compute; reflexivity | reflexivity | reflexivity | reflexivity |].
  apply (Hin [8192] []); [reflexivity|].
  intros He. apply list_elem_of_singleton in He. discriminate.
Defined.

Lemma select_row_present_reads_record_witness :
  exists st',
    unordered_index.select_row (P := uint_index true false) 5 false
      (one_row_table true false 1024 [])
    = Some ((true, true, 4096, 4120), st')
    /\ unordered_index.read_value (P := uint_index true false) st' 4120 = Some 77.
Proof.
  destruct (select_row_present_reads_record (P := uint_index true false) 5 false
              1%nat (bucket_entry.mk [4096] 0) 4096
              (internal_elem.mk 5 1024 77 false) (one_row_table true false 1024 []))
    as (st' & Hsel & _ & _ & _ & _ & Hread);
    [reflexivity | reflexivity | reflexivity | discriminate | reflexivity
    | reflexivity | reflexivity | reflexivity |].
  exists st'. split; [exact Hsel|]. now destruct (Hread eq_refl).
Defined.

Lemma select_for_update_then_update_row_witness :
  exists st1 st2,
    unordered_index.select_row (P := uint_index true false) 5 true
      (one_row_table true false 1024 [])
    = Some ((true, true, 4096, 4120), st1)
    /\ unordered_index.update_row (P := uint_index true false) 4096 1000 st1
       = Some st2
    /\ TransItem.get (TransItem.RecordKey 4096) (unordered_index.items st2)
       = TransItem.mkItem (TransItem.RecordKey 4096) 0 true 1024 true 1000.
Proof.
  destruct (select_for_update_then_update_row (P := uint_index true false) 5 1000
              1%nat (bucket_entry.mk [4096] 0) 4096
              (internal_elem.mk 5 1024 77 false) (one_row_table true false 1024 []))
    as (st1 & st2 & Hsel & Hupd & Hitem & _);
    [reflexivity | reflexivity | reflexivity | discriminate | reflexivity
    | reflexivity | reflexivity | reflexivity | reflexivity |].
  exists st1, st2. split; [exact Hsel|]. split; [exact Hupd|exact Hitem].
Defined.

Lemma update_row_after_plain_select_fails_witness :
  exists st1,
    unordered_index.select_row (P := uint_index true false) 5 false
      (one_row_table true false 1024 [])
    = Some ((true, true, 4096, 4120), st1)
    /\ unordered_index.update_row (P := uint_index true false) 4096 1000 st1 = None.
Proof.
  apply (update_row_after_plain_select_fails (P := uint_index true false) 5 1000
           1%nat (bucket_entry.mk [4096] 0) 4096
           (internal_elem.mk 5 1024 77 false) (one_row_table true false 1024 []));
    reflexivity || discriminate.
Defined.

Lemma update_row_after_own_insert_fails_witness :
  exists st1,
    unordered_index.insert_row (P := uint_index true false) 5 1000 false 4096
      (empty_table true false) = Some ((true, false), st1)
    /\ unordered_index.update_row (P := uint_index true false) 4096 1000 st1 = None.
Proof.
  apply (update_row_after_own_insert_fails (P := uint_index true false) 5 1000 4096
           1000 false 1%nat (bucket_entry.mk [] 0) 77 (empty_table true false));
    reflexivity || discriminate.
Defined.

(** The row holds 77 and the update stages the value 78 at 1000: the
    select that follows still reads 77. *)
Lemma select_after_update_reads_committed_value_witness :
  exists st1 st2 st3,
    unordered_index.select_row (P := uint_index true false) 5 true
      (one_row_table true false 1024 [])
    = Some ((true, true, 4096, 4120), st1)
    /\ unordered_index.update_row (P := uint_index true false) 4096 1000 st1
       = Some st2
    /\ unordered_index.select_row (P := uint_index true false) 5 false st2
       = Some ((true, true, 4096, 4120), st3)
    /\ unordered_index.read_value (P := uint_index true false) st3 4120 = Some 77.
Proof.
  apply (select_after_update_reads_committed_value (P := uint_index true false)
           5 1000 false 1%nat (bucket_entry.mk [4096] 0) 4096
           (internal_elem.mk 5 1024 77 false) (one_row_table true false 1024 []));
    reflexivity || discriminate.
Defined.

Lemma nontrans_put_then_select_row_witness :
  exists st1 st2,
    unordered_index.nontrans_put (P := uint_index true false) 5 99 4096
      (empty_table true false) = Some st1
    /\ unordered_index.map_ st1 !! 1%nat = Some (bucket_entry.mk [4096] 0)
    /\ unordered_index.select_row (P := uint_index true false) 5 false st1
       = Some ((true, true, 4096, 4120), st2)
    /\ unordered_index.read_value (P := uint_index true false) st2 4120 = Some 99.
Proof.
  apply (nontrans_put_then_select_row (P := uint_index true false) 5 99 4096 false
           1%nat (bucket_entry.mk [] 0) (empty_table true false));
    reflexivity || discriminate.
Defined.

Lemma nontrans_put_present_overwrites_in_place_witness :
  exists st',
    unordered_index.nontrans_put (P := uint_index true false) 5 99 8192
      (one_row_table true false 1024 []) = Some st'
    /\ unordered_index.map_ st'
       = unordered_index.map_ (one_row_table true false 1024 [])
    /\ unordered_index.elems st' !! 4096
       = Some (internal_elem.mk 5 1024 99 false).
Proof.
  destruct (nontrans_put_present_overwrites_in_place (P := uint_index true false)
              5 99 8192 1%nat (bucket_entry.mk [4096] 0) 4096
              (internal_elem.mk 5 1024 77 false) (one_row_table true false 1024 []))
    as (st' & Hput & Hmap & Hel & _);
    [reflexivity | reflexivity | reflexivity | reflexivity | discriminate
    | reflexivity |].
  exists st'. split; [exact Hput|]. split; [exact Hmap|].
  rewrite Hel. apply lookup_insert_eq.
Defined.

Lemma miss_observes_bucket_version_witness :
  exists st',
    unordered_index.select_row (P := uint_index true false) 5 false
      (empty_table true false) = Some ((true, false, 0, nullptr), st')
    /\ unordered_index.delete_row (P := uint_index true false) 5
         (empty_table true false) = Some ((true, false), st')
    /\ TransItem.get (TransItem.TaggedKey 1) (unordered_index.items st')
       = TransItem.mkItem (TransItem.TaggedKey 1) 0 true 0 false 0.
Proof.
  destruct (miss_observes_bucket_version (P := uint_index true false) 5 false
              1%nat (bucket_entry.mk [] 0) (empty_table true false))
    as (st' & Hsel & Hdel & _ & _ & _ & Hitem);
    [reflexivity | reflexivity | reflexivity |].
  exists st'. split; [exact Hsel|]. split; [exact Hdel|]. exact (Hitem eq_refl).
Defined.

Lemma select_after_delete_row_witness :
  (exists st1 st2,
     unordered_index.delete_row (P := uint_index true true) 5
       (one_row_table true true 1024 []) = Some ((true, true), st1)
     /\ unordered_index.select_row (P := uint_index true true) 5 false st1
        = Some ((true, false, 0, nullptr), st2))
  /\ exists st1 st2,
       unordered_index.delete_row (P := uint_index true false) 5
         (one_row_table true false 1024 []) = Some ((true, true), st1)
       /\ unordered_index.select_row (P := uint_index true false) 5 false st1
          = Some ((true, true, 4096, 4120), st2).
Proof.
  split.
  - destruct (select_after_delete_row (P := uint_index true true) 5 false
                1%nat (bucket_entry.mk [4096] 0) 4096
                (internal_elem.mk 5 1024 77 false) (one_row_table true true 1024 []))
      as (st1 & st2 & Hdel & Hsel & _);
      [reflexivity | reflexivity | reflexivity | discriminate | reflexivity
      | reflexivity | reflexivity | reflexivity | reflexivity |].
    exists st1, st2. split; [exact Hdel|exact Hsel].
  - destruct (select_after_delete_row (P := uint_index true false) 5 false
                1%nat (bucket_entry.mk [4096] 0) 4096
                (internal_elem.mk 5 1024 77 false) (one_row_table true false 1024 []))
      as (st1 & st2 & Hdel & Hsel & _);
      [reflexivity | reflexivity | reflexivity | discriminate | reflexivity
      | reflexivity | reflexivity | reflexivity | reflexivity |].
    exists st1, st2. split; [exact Hdel|exact Hsel].
Defined.

Lemma insert_after_delete_row_restages_witness :
  exists st1 st2,
    unordered_index.delete_row (P := uint_index true true) 5
      (one_row_table true true 1024 []) = Some ((true, true), st1)
    /\ unordered_index.insert_row (P := uint_index true true) 5 1000 false 8192 st1
       = Some ((true, false), st2)
    /\ unordered_index.map_ st2
       = unordered_index.map_ (one_row_table true true 1024 [])
    /\ TransItem.wdata
         (TransItem.get (TransItem.RecordKey 4096) (unordered_index.items st2))
       = 1000.
Proof.
  destruct (insert_after_delete_row_restages (P := uint_index true true) 5 1000 8192
              false 1%nat (bucket_entry.mk [4096] 0) 4096
              (internal_elem.mk 5 1024 77 false) (one_row_table true true 1024 []))
    as (st1 & st2 & Hdel & Hins & Hmap & _ & _ & _ & Hw & _);
    [reflexivity | reflexivity | reflexivity | reflexivity | reflexivity
    | discriminate | reflexivity | reflexivity | reflexivity | reflexivity
    | reflexivity |].
  exists st1, st2. split; [exact Hdel|]. split; [exact Hins|].
  split; [exact Hmap|exact Hw].
Defined.

Lemma insert_row_twice_allocates_once_witness :
  exists st1 st2,
    unordered_index.insert_row (P := uint_index true false) 5 1000 false 4096
      (empty_table true false) = Some ((true, false), st1)
    /\ unordered_index.insert_row (P := uint_index true false) 5 1000 false 8192 st1
       = Some ((true, true), st2)
    /\ bucket_entry.chain <$> (unordered_index.map_ st2 !! 1%nat) = Some [4096].
Proof.
  destruct (insert_row_twice_allocates_once (P := uint_index true false) 5 1000 4096
              1000 8192 false 1%nat (bucket_entry.mk [] 0) 77
              (empty_table true false))
    as (st1 & st2 & Hins & Hsec & _ & _ & Hchain);
    [reflexivity | reflexivity | reflexivity | reflexivity | discriminate
    | reflexivity | reflexivity | reflexivity | reflexivity |].
  exists st1, st2. split; [exact Hins|]. split; [exact Hsec|exact Hchain].
Defined.

(** The row's version is locked and the index opaque: the overwrite is
    staged all the same, without an observation. *)
Lemma insert_row_overwrite_is_blind_write_witness :
  exists st',
    unordered_index.insert_row (P := uint_index true false) 5 1000 true 8192
      (one_row_table true false 1056 []) = Some ((true, true), st')
    /\ TransItem.get (TransItem.RecordKey 4096) (unordered_index.items st')
       = TransItem.mkItem (TransItem.RecordKey 4096) 0 false 0 true 1000.
Proof.
  destruct (insert_row_overwrite_is_blind_write (P := uint_index true false) 5 1000
              8192 1%nat (bucket_entry.mk [4096] 0) 4096
              (internal_elem.mk 5 1056 77 false) (one_row_table true false 1056 []))
    as (st' & Hins & _ & _ & Hitem & _);
    [reflexivity | reflexivity | reflexivity | reflexivity | discriminate
    | reflexivity | reflexivity | reflexivity | reflexivity |].
  exists st'. split; [exact Hins|exact Hitem].
Defined.

Lemma miss_then_insert_keeps_observation_current_witness :
  exists st1 st2,
    unordered_index.select_row (P := uint_index true false) 5 false
      (empty_table true false) = Some ((true, false, 0, nullptr), st1)
    /\ unordered_index.insert_row (P := uint_index true false) 5 1000 false 4096 st1
       = Some ((true, false), st2)
    /\ Some (TransItem.rdata
               (TransItem.get (TransItem.TaggedKey 1) (unordered_index.items st2)))
       = bucket_entry.version <$> (unordered_index.map_ st2 !! 1%nat).
Proof.
  destruct (miss_then_insert_keeps_observation_current (P := uint_index true false)
              5 1000 4096 false false 1%nat (bucket_entry.mk [] 0) 77
              (empty_table true false))
    as (st1 & st2 & Hsel & Hins & _ & Hobs);
    [reflexivity | reflexivity | reflexivity | reflexivity | discriminate
    | reflexivity | reflexivity | reflexivity |].
  exists st1, st2. split; [exact Hsel|]. split; [exact Hins|exact Hobs].
Defined.

Lemma insert_then_abort_restores_chain_witness :
  exists st1 st2,
    unordered_index.insert_row (P := uint_index true false) 5 1000 false 4096
      (empty_table true false) = Some ((true, false), st1)
    /\ unordered_index.cleanup
         (unordered_index.get_item (TransItem.RecordKey 4096) st1) false st1
       = Some st2
    /\ unordered_index.map_ st2
       = [bucket_entry.mk [] 0; bucket_entry.mk [] 1088]
    /\ unordered_index.rcu st2 = [4096].
Proof.
  destruct (insert_then_abort_restores_chain (P := uint_index true false) 5 1000
              4096 false 1%nat (bucket_entry.mk [] 0) 77 (empty_table true false))
    as (st1 & st2 & Hins & Hcl & Hmap & _ & Hrcu & _);
    [reflexivity | reflexivity | reflexivity | reflexivity
    | cbn; unfold uint64_modulus; lia | discriminate | reflexivity | reflexivity |].
  exists st1, st2. split; [exact Hins|]. split; [exact Hcl|].
  split; [exact Hmap|exact Hrcu].
Defined.

(** An item that stages the value at 1000 over the row of the key 5, with
    a version word that takes the commit tid as it comes. *)
Lemma install_copies_update_only_witness :
  exists st',
    unordered_index.install (P := uint_index true false)
      (fun _ new => new) (fun _ new => new)
      (TransItem.mkItem (TransItem.RecordKey 4096) 0 true 1024 true 1000) 2048
      (one_row_table true false 1024 []) = Some st'
    /\ unordered_index.elems st' !! 4096
       = Some (internal_elem.mk 5 2048 78 false).
Proof.
  destruct (install_copies_update_only (P := uint_index true false)
              (fun _ new => new) (fun _ new => new)
              (TransItem.mkItem (TransItem.RecordKey 4096) 0 true 1024 true 1000)
              2048 4096 (internal_elem.mk 5 1024 77 false) 78 1%nat
              (bucket_entry.mk [4096] 0) (one_row_table true false 1024 []))
    as (st' & Hin & Hel & _);
    [reflexivity | reflexivity | reflexivity | discriminate | reflexivity
    | reflexivity | reflexivity | reflexivity |].
  exists st'. split; [exact Hin|]. rewrite Hel. apply lookup_insert_eq.
Defined.

(** The key 5 inserted with the default value 0 and then with 77: the row
    is committed with 0 when read-my-writes is off, with 77 when it is
    on. *)
Lemma overwrite_of_own_insert_witness :
  (exists st1 st2 st3,
     unordered_index.insert_row (P := uint_index true false) 5 0 false 4096
       (empty_table true false) = Some ((true, false), st1)
     /\ unordered_index.insert_row (P := uint_index true false) 5 1000 true 8192 st1
        = Some ((true, true), st2)
     /\ unordered_index.install (P := uint_index true false)
          (fun _ new => new) (fun _ new => new)
          (unordered_index.get_item (TransItem.RecordKey 4096) st2) 2048 st2
        = Some st3
     /\ internal_elem.value <$> (unordered_index.elems st3 !! 4096) = Some 0)
  /\ exists st1 st2 st3,
       unordered_index.insert_row (P := uint_index true true) 5 0 false 4096
         (empty_table true true) = Some ((true, false), st1)
       /\ unordered_index.insert_row (P := uint_index true true) 5 1000 true 8192 st1
          = Some ((true, true), st2)
       /\ unordered_index.install (P := uint_index true true)
            (fun _ new => new) (fun _ new => new)
            (unordered_index.get_item (TransItem.RecordKey 4096) st2) 2048 st2
          = Some st3
       /\ internal_elem.value <$> (unordered_index.elems st3 !! 4096) = Some 77.
Proof.
  split.
  - apply (overwrite_of_own_insert (P := uint_index true false)
             (fun _ new => new) (fun _ new => new) 5 0 1000 4096 8192 2048 false
             1%nat (bucket_entry.mk [] 0) 0 77 (empty_table true false));
      reflexivity || discriminate.
  - apply (overwrite_of_own_insert (P := uint_index true true)
             (fun _ new => new) (fun _ new => new) 5 0 1000 4096 8192 2048 false
             1%nat (bucket_entry.mk [] 0) 0 77 (empty_table true true));
      reflexivity || discriminate.
Defined.

Lemma committed_delete_unlinks_the_row_witness :
  exists st1 st2 st3,
    unordered_index.delete_row (P := uint_index true false) 5
      (one_row_table true false 1024 []) = Some ((true, true), st1)
    /\ unordered_index.cleanup
         (unordered_index.get_item (TransItem.RecordKey 4096) st1) true st1 = None
    /\ unordered_index.install (P := uint_index true false)
         (fun _ new => new) (fun _ new => new)
         (unordered_index.get_item (TransItem.RecordKey 4096) st1) 4096 st1
       = Some st2
    /\ unordered_index.cleanup
         (unordered_index.get_item (TransItem.RecordKey 4096) st1) true st2
       = Some st3
    /\ unordered_index.map_ st3 = [bucket_entry.mk [] 0; bucket_entry.mk [] 0]
    /\ unordered_index.elems st3 !! 4096
       = Some (internal_elem.mk 5 2048 77 true)
    /\ unordered_index.rcu st3 = [4096].
Proof.
  destruct (committed_delete_unlinks_the_row (P := uint_index true false)
              (fun _ new => new) (fun _ new => new) 5 4096 1%nat
              (bucket_entry.mk [4096] 0) 4096 (internal_elem.mk 5 1024 77 false)
              (one_row_table true false 1024 []))
    as (st1 & st2 & st3 & pre & post & Hdel & (Hc1 & Hin & Hc2) & Hel & Hch & Hpre
        & Hmap & He3 & Hrcu);
    [reflexivity | reflexivity | reflexivity | reflexivity | discriminate
    | reflexivity | reflexivity | reflexivity | reflexivity | reflexivity |].
  exists st1, st2, st3. split; [exact Hdel|]. split; [exact Hc1|].
  split; [exact Hin|]. split; [exact Hc2|].
  assert (Hpp : pre = [] /\ post = []).
  { cbn in Hch. destruct pre as [|x pre].
    - cbn in Hch. now injection Hch as <-.
    - cbn in Hch. injection Hch as -> Hch. now destruct pre. }
  destruct Hpp as [-> ->].
  split; [exact Hmap|]. split; [|exact Hrcu]. rewrite He3. exact Hel.
Defined.

(** The ordered index, a record with the value 100 and an item that stages
    the row at 1000 over it: the select returns 1000, where 555 is read. *)
Lemma ordered_select_row_answers_from_write_set_witness :
  exists st',
    ordered_index.select_row (P := rmw_ordered_index) 16 4096 false
      (one_record_state
         [TransItem.mkItem (TransItem.RecordKey 4096) 0 true 1024 true 1000])
    = Some ((true, true, 4096, 1000), st')
    /\ ordered_index.read_value (P := rmw_ordered_index) 16 st' 1000 = Some 555.
Proof.
  destruct (ordered_select_row_answers_from_write_set (P := rmw_ordered_index)
              16 4096 false (internal_elem.mk (key8 x0a) 1024 100 false) 555
              (one_record_state
                 [TransItem.mkItem (TransItem.RecordKey 4096) 0 true 1024 true 1000]))
    as (p & st' & Hsel & Hread & _);
    [reflexivity | reflexivity | reflexivity | reflexivity | reflexivity
    | reflexivity | intros _; reflexivity |].
  assert (Hp : p = 1000).
  { vm_compute in Hsel. now injection Hsel as <- _. }
  subst p. exists st'. split; [exact Hsel|exact Hread].
Defined.

Lemma ordered_update_then_select_reads_new_row_witness :
  exists st1 st2 st3,
    ordered_index.select_row (P := rmw_ordered_index) 16 4096 true
      (one_record_state []) = Some ((true, true, 4096, 4112), st1)
    /\ ordered_index.update_row (P := rmw_ordered_index) 4096 1000 st1 = Some st2
    /\ ordered_index.select_row (P := rmw_ordered_index) 16 4096 false st2
       = Some ((true, true, 4096, 1000), st3)
    /\ ordered_index.read_value (P := rmw_ordered_index) 16 st3 1000 = Some 555.
Proof.
  apply (ordered_update_then_select_reads_new_row (P := rmw_ordered_index)
           16 4096 1000 false (internal_elem.mk (key8 x0a) 1024 100 false) 555
           (one_record_state [])); reflexivity.
Defined.

(** The version 10 of a node registered, then moved to 11. *)
Lemma update_internode_version_needs_the_observed_version_witness :
  (ordered_index.update_internode_version (P := scan_index) 1 10 11
     (ordered_index.register_internode_version (P := scan_index) 1 10 scan_table).2).1
  = true
  /\ (ordered_index.update_internode_version (P := scan_index) 1 9 11
        (ordered_index.register_internode_version (P := scan_index) 1 10 scan_table).2).1
     = false.
Proof.
  split.
  - destruct (update_internode_version_needs_the_observed_version (P := scan_index)
                1 10 10 11 scan_table) as (_ & Hr & _);
      [intros its; reflexivity | reflexivity |].
    exact Hr.
  - destruct (update_internode_version_needs_the_observed_version (P := scan_index)
                1 10 9 11 scan_table) as (_ & Hr & _);
      [intros its; reflexivity | reflexivity |].
    exact Hr.
Defined.

Lemma scan_table_wf :
  ordered_index.table_wf (ordered_index.table_ scan_table).
Proof.
  split.
  - repeat constructor; try discriminate; cbn; try lia;
      eexists; (split; [reflexivity|vm_compute; reflexivity]).
  - repeat constructor.
Qed.




(** The leaf of the keys 10 and 20 entered with the boundary 30: the
    comparisons stay off. *)
Lemma scanner_check_is_sound_witness :
  exists sc',
    ordered_index.range_scanner.check false
      (ordered_index.mkLeaf 1 0 (ordered_index.mkKey 0 [])
         [(10, key8 x0a, 4096); (20, key8 x14, 4128)])
      (ordered_index.mkKey 0 []) (ordered_index.range_scanner.make (key8 x1e))
    = Some sc'
    /\ ordered_index.range_scanner.boundary_compar_ sc' = false.
Proof.
  destruct (scanner_check_is_sound false
              (ordered_index.mkLeaf 1 0 (ordered_index.mkKey 0 [])
                 [(10, key8 x0a, 4096); (20, key8 x14, 4128)])
              (ordered_index.range_scanner.make (key8 x1e)))
    as (sc' & Hc & _).
  - repeat constructor; try discriminate; cbn; try lia;
      eexists; (split; [reflexivity|vm_compute; reflexivity]).
  - repeat constructor.
  - exists sc'. split; [exact Hc|].
    vm_compute in Hc. now injection Hc as <-.
Defined.

(** A customer id drawn from 1000 and 2999. *)
Lemma nurand_stays_in_range_witness :
  exists n,
    tpcc_input_generator.gen_customer_id 1000 2999 = Some n /\ 1 <= n <= 3000.
Proof.
  apply (nurand_stays_in_range 1023 259 1 3000 1000 2999);
    unfold uint64_modulus; lia.
Defined.
